(** * Paperbox: the text analytics ([paperbox/nlp.py],
    [paperbox/graphing.py], [paperbox/utils.py]) and the ingestion
    ([paperbox/ingest.py], [paperbox/db.py], [paperbox/extractors]) as a
    shallow embedding.

    Conventions of the embedding.
    - A Python [str] is a list of Unicode code points ([text := list N]);
      [len] is [length], [+] is [++].
    - A Python [int] is a [Z] where it can be negative (slice bounds, node
      ids) and a [nat] where it counts.
    - A Python [float] is idealised as a real number ([R]): sums, products,
      [math.log] and square roots are exact.  Whether a call raises, which
      terms are kept, which entries are zero and which are positive never
      depend on rounding.  What does depend on it is not stated over the
      reals: the ranking of the summarizer is stated over an arbitrary
      arithmetic (module [Floating]), and bounds that hold of the exact
      values only (a cosine of at most 1, a diagonal of exactly 1) are
      left out.
    - A call that can raise returns a sum: [inl e] is the exception [e].
    - Functions of third-party libraries (scikit-learn, numpy) are modelled
      in their own modules from their documented behaviour; the Japanese
      segmenter (janome) is a parameter.
    - The SQLite connection is the list of the rows of [docs] with the last
      row id handed out; a statement is the function on that state its SQL
      text denotes.  Strings are stored as they are.
    - What the file system, the hash and the document libraries answer for
      a path is data of the model (a record per file); the code that works
      on these answers is embedded as written. *)

From Stdlib Require Import ZArith NArith Reals Lra Lia.
From Stdlib Require Import String Ascii DecimalString.
From stdpp Require Import gmap list sorting.

Local Open Scope N_scope.

(** ** Python strings *)

Module PyStr.

Abbreviation char := N (only parsing).
Abbreviation text := (list N) (only parsing).

(** A literal of the source, written as a Rocq string of ASCII characters. *)
Definition py (s : string) : text :=
  map N_of_ascii (list_ascii_of_string s).
Arguments py : simpl never.

Definition LF : char := 10.
Definition CR : char := 13.
Definition SPACE : char := 32.
Definition QUOTE : char := 34.

(** [str.isspace] on one character; also the class [\s] of [re] on a [str]
    pattern and the set [str.strip()] removes. *)
Definition isspace (c : char) : bool :=
  ((9 <=? c) && (c <=? 13)) || ((28 <=? c) && (c <=? 32)) ||
  (c =? 0x85) || (c =? 0xA0) || (c =? 0x1680) ||
  ((0x2000 <=? c) && (c <=? 0x200A)) ||
  (c =? 0x2028) || (c =? 0x2029) || (c =? 0x202F) || (c =? 0x205F) ||
  (c =? 0x3000).

(** The line boundaries of [str.splitlines]. *)
Definition is_linebreak (c : char) : bool :=
  ((10 <=? c) && (c <=? 13)) || ((28 <=? c) && (c <=? 30)) ||
  (c =? 0x85) || (c =? 0x2028) || (c =? 0x2029).

Fixpoint lstrip (s : text) : text :=
  match s with
  | c :: s' => if isspace c then lstrip s' else s
  | [] => []
  end.

Definition rstrip (s : text) : text := reverse (lstrip (reverse s)).

(** [s.strip()] *)
Definition strip (s : text) : text := rstrip (lstrip s).

(** [sep.join(parts)] *)
Fixpoint join (sep : text) (parts : list text) : text :=
  match parts with
  | [] => []
  | [p] => p
  | p :: ps => p ++ sep ++ join sep ps
  end.

(** [s.splitlines()]: [cur] is the line being read, reversed.  A carriage
    return directly followed by a line feed is one boundary; a boundary at
    the very end opens no further line. *)
Fixpoint splitlines_from (cur : text) (s : text) : list text :=
  match s with
  | [] => match cur with [] => [] | _ => [reverse cur] end
  | c :: rest =>
      if is_linebreak c then
        reverse cur ::
          (if c =? CR then
             match rest with
             | d :: rest' =>
                 if d =? LF then splitlines_from [] rest'
                 else splitlines_from [] rest
             | [] => []
             end
           else splitlines_from [] rest)
      else splitlines_from (c :: cur) rest
  end.

Definition splitlines (s : text) : list text := splitlines_from [] s.

(** [s.replace(old, new)] for a one-character [old]. *)
Definition replace (old : char) (new : text) (s : text) : text :=
  flat_map (fun c => if c =? old then new else [c]) s.

(** [s.lower()] on the characters a token of the word pattern can hold
    (ASCII letters, digits, hyphen, apostrophe). *)
Definition lower_char (c : char) : char :=
  if (65 <=? c) && (c <=? 90) then c + 32 else c.
Definition lower (s : text) : text := map lower_char s.

(** [str(i)] and [f"{i}"] for an [int]. *)
Definition str_of_int (i : Z) : text :=
  py (NilEmpty.string_of_int (Z.to_int i)).

(** Lexicographic order on code points: [<] of [str], the order [sorted]
    uses on terms. *)
Fixpoint ltb (a b : text) : bool :=
  match a, b with
  | [], [] => false
  | [], _ :: _ => true
  | _ :: _, [] => false
  | x :: a', y :: b' => (x <? y) || ((x =? y) && ltb a' b')
  end.

(** [s.replace(old, new)] for a two-character [old]: from the left, without
    overlap. *)
Fixpoint replace_pair (o1 o2 : char) (new : text) (s : text) : text :=
  match s with
  | [] => []
  | c :: rest =>
      if c =? o1 then
        match rest with
        | d :: rest' =>
            if d =? o2 then new ++ replace_pair o1 o2 new rest'
            else c :: replace_pair o1 o2 new rest
        | [] => [c]
        end
      else c :: replace_pair o1 o2 new rest
  end.

(** [s.split(sep)] for a one-character [sep]; [cur] is the piece being
    read, reversed.  There is always at least one piece. *)
Fixpoint split_from (sep : char) (cur : text) (s : text) : list text :=
  match s with
  | [] => [reverse cur]
  | c :: rest =>
      if c =? sep then reverse cur :: split_from sep [] rest
      else split_from sep (c :: cur) rest
  end.

Definition split (sep : char) (s : text) : list text := split_from sep [] s.

End PyStr.
Import PyStr.


(** ** Python lists *)

Module PyList.

(** [l[:k]] for an [int] k: a negative bound counts from the end. *)
Definition slice_to {A} (k : Z) (l : list A) : list A :=
  if (k <? 0)%Z then take (Z.to_nat (Z.of_nat (length l) + k)) l
  else take (Z.to_nat k) l.

(** [list(enumerate(l))] *)
Definition enumerate {A} (l : list A) : list (nat * A) :=
  imap (fun i x => (i, x)) l.

Section Sorted.
Context {A : Type}.
  (** [before y x]: [y] sorts strictly before [x]. *)
Variable before : A -> A -> bool.

Fixpoint insert_sorted (x : A) (l : list A) : list A :=
    match l with
    | [] => [x]
    | y :: l' =>
        if before y x then y :: insert_sorted x l' else x :: y :: l'
    end.

  (** A stable sort, as [sorted] and [list.sort] are: an element is put
      after the ones that sort strictly before it and before every other
      one, so equal keys keep the order they came in. *)
Definition stable_sort (l : list A) : list A :=
    foldr insert_sorted [] l.
End Sorted.

#[global] Instance Rlt_decision (x y : R) : Decision (x < y)%R := Rlt_dec x y.
#[global] Instance Rle_decision (x y : R) : Decision (x <= y)%R := Rle_dec x y.
#[global] Instance Req_decision : EqDecision R := Req_dec_T.
#[global] Instance R_inhabited : Inhabited R := populate 0%R.

(** [sorted(l, key=key)] for a [float] key. *)
Definition sorted_by_float {A} (key : A -> R) : list A -> list A :=
  stable_sort (fun y x => bool_decide (key y < key x)%R).

(** [sorted(l, key=key, reverse=True)] for a [float] key: descending, and
    still stable. *)
Definition sorted_by_float_reverse {A} (key : A -> R) : list A -> list A :=
  stable_sort (fun y x => bool_decide (key x < key y)%R).

(** [sorted(l, key=key)] for an [int] key that counts. *)
Definition sorted_by_nat {A} (key : A -> nat) : list A -> list A :=
  stable_sort (fun y x => (key y <? key x)%nat).

End PyList.
Import PyList.

(** ** paperbox/utils.py *)

Module Utils.

(** [_JP_RE]: hiragana and katakana, CJK extension A, CJK unified
    ideographs. *)
Definition is_jp_char (c : char) : bool :=
  ((0x3040 <=? c) && (c <=? 0x30FF)) ||
  ((0x3400 <=? c) && (c <=? 0x4DBF)) ||
  ((0x4E00 <=? c) && (c <=? 0x9FFF)).

(** [is_probably_japanese(text)] at its default threshold 0.08: the
    quotient [jp / max(len(text), 1) >= 0.08] is compared as the exact
    fraction, [8 * len <= 100 * jp]. *)
Definition is_probably_japanese (t : text) : bool :=
  match t with
  | [] => false
  | _ =>
      let jp := length (List.filter is_jp_char t) in
      (8 * Nat.max (length t) 1 <=? 100 * jp)%nat
  end.

(** [re.sub(r"\n{3,}", "\n\n", text)]: a run of three line feeds or more
    becomes two; [run] counts the line feeds of the run read so far. *)
Fixpoint sub_blank_lines (run : nat) (s : text) : text :=
  match s with
  | [] => []
  | c :: rest =>
      if c =? LF then
        if (run <? 2)%nat then c :: sub_blank_lines (S run) rest
        else sub_blank_lines (S run) rest
      else c :: sub_blank_lines 0 rest
  end.

Definition normalize_whitespace (t : text) : text :=
  (* collapse spaces but keep newlines *)
  let t := replace CR [LF] (replace_pair CR LF [LF] t) in
  (* remove excessive blank lines *)
  let t := sub_blank_lines 0 t in
  (* trim each line *)
  let lines := map strip (split LF t) in
  strip (join [LF] lines).

Section GuessTitle.
(** [str.isalnum] on one character: a table of the Unicode database. *)
Variable isalnum : char -> bool.

(** The loop of [guess_title] over the lines. *)
Fixpoint first_title (lines : list text) : option text :=
  match lines with
  | [] => None
  | line :: rest =>
      let s := strip line in
      match s with
      | [] => first_title rest
      | _ =>
          if (140 <? length s)%nat then first_title rest
          (* Avoid lines that are mostly punctuation *)
          else if (length (List.filter isalnum s) <? 3)%nat then first_title rest
          else Some s
      end
  end.

(** [guess_title(path, text)], [stem] being [path.stem]. *)
Definition guess_title (stem : text) (t : text) : text :=
  match first_title (splitlines t) with
  | Some s => s
  | None => stem
  end.
End GuessTitle.

End Utils.
Import Utils.

(** ** scikit-learn and numpy, as far as nlp.py calls them *)

Module Sklearn.

(** The three [ValueError]s [TfidfVectorizer.fit_transform] raises. *)
Inductive ValueError : Type :=
  | EmptyVocabulary      (* "empty vocabulary; perhaps the documents only contain stop words" *)
  | MaxDfBelowMinDf      (* "max_df corresponds to < documents than min_df" *)
  | NoTermsRemain.       (* "After pruning, no terms remain. ..." *)

Fixpoint Rsum (l : list R) : R :=
  match l with
  | [] => 0%R
  | x :: l' => (x + Rsum l')%R
  end.

Definition dot (x y : list R) : R := Rsum (zip_with Rmult x y).

(** [normalize(X, norm="l2")] on one row: a row of norm zero is left as
    it is (its norm is taken to be 1). *)
Definition l2_normalize (row : list R) : list R :=
  let norm := sqrt (dot row row) in
  let d := if decide (norm = 0%R) then 1%R else norm in
  map (fun x => (x / d)%R) row.

(** [cosine_similarity(X, Y)]: both arguments are normalised again, then
    multiplied. *)
Definition cosine_similarity (X Y : list (list R)) : list (list R) :=
  map (fun x => map (fun y => dot (l2_normalize x) (l2_normalize y)) Y) X.

(** [v.argsort()]: the indices of [v] by ascending value.  numpy leaves the
    order of equal values open; here they keep their index order. *)
Definition argsort (v : list R) : list nat :=
  map fst (sorted_by_float snd (enumerate v)).

Definition minimum (v w : list R) : list R := zip_with Rmin v w.
(** [np.maximum(v - w, 0.0)] *)
Definition maximum_diff_0 (v w : list R) : list R :=
  zip_with (fun x y => Rmax (x - y) 0) v w.

Section Vectorizer.
  (** [TfidfVectorizer(tokenizer=..., lowercase=False, min_df=..., max_df=...,
      ngram_range=(1,2))]; [max_df] is a proportion, given as a fraction,
      [min_df] a count. *)
Variable tokenizer : text -> list text.
Variable min_df : nat.
Variable max_df_num max_df_den : nat.

  (** [_word_ngrams]: the tokens, then each two neighbours joined by a
      space. *)
Definition bigrams (tokens : list text) : list text :=
    zip_with (fun u v => join [SPACE] [u; v]) tokens (drop 1 tokens).
Definition analyze (doc : text) : list text :=
    let tokens := tokenizer doc in tokens ++ bigrams tokens.

Definition count_term (t : text) (feats : list text) : nat :=
    length (List.filter (fun u => bool_decide (u = t)) feats).
  (** [_document_frequency]: in how many documents the term occurs. *)
Definition doc_freq (all_feats : list (list text)) (t : text) : nat :=
    length (List.filter (fun feats => bool_decide (t ∈ feats)) all_feats).

  (** The vocabulary [fit] ends with: every term seen, sorted, without the
      terms [_limit_features] prunes. *)
Definition fit_vocabulary (docs : list text) : ValueError + list text :=
    let all_feats := map analyze docs in
    let vocabulary := stable_sort PyStr.ltb (remove_dups (concat all_feats)) in
    match vocabulary with
    | [] => inl EmptyVocabulary
    | _ =>
        let n_doc := length docs in
        (* max_doc_count = max_df * n_doc < min_doc_count = min_df *)
        if (max_df_num * n_doc <? min_df * max_df_den)%nat then inl MaxDfBelowMinDf
        else
          let kept :=
            List.filter (fun t =>
              let df := doc_freq all_feats t in
              (df * max_df_den <=? max_df_num * n_doc)%nat && (min_df <=? df)%nat)
              vocabulary in
          match kept with
          | [] => inl NoTermsRemain
          | _ => inr kept
          end
    end.

  (** [TfidfTransformer(smooth_idf=True)]: [idf = ln((1+n)/(1+df)) + 1]. *)
Definition idf (n_doc df : nat) : R :=
    (ln (INR (1 + n_doc) / INR (1 + df)) + 1)%R.

Definition tfidf_row (all_feats : list (list text)) (vocabulary : list text)
      (feats : list text) : list R :=
    l2_normalize
      (map (fun t => (INR (count_term t feats) *
                      idf (length all_feats) (doc_freq all_feats t))%R)
           vocabulary).

  (** [vec.fit_transform(docs)] with [vec.get_feature_names_out()]. *)
Definition fit_transform (docs : list text)
      : ValueError + (list text * list (list R)) :=
    match fit_vocabulary docs with
    | inl e => inl e
    | inr vocabulary =>
        let all_feats := map analyze docs in
        inr (vocabulary, map (tfidf_row all_feats vocabulary) all_feats)
    end.
End Vectorizer.

End Sklearn.
Import Sklearn.

(** ** paperbox/nlp.py *)

Module Nlp.

(** [_SENT_SPLIT_RE = (?<=[。！？!?\.])\s+|\n+] *)
Definition is_sentence_end (c : char) : bool :=
  (c =? 0x3002) || (c =? 0xFF01) || (c =? 0xFF1F) ||
  (c =? 33) || (c =? 63) || (c =? 46).

(** Where the scan of [_SENT_SPLIT_RE.split] stands: in a piece of text
    (and whether the character before is a sentence end), inside a match of
    the first alternative (white space after a sentence end), or inside a
    match of the second (a run of line feeds). *)
Inductive scan : Type :=
  | InText (after_end : bool)
  | InSpaces
  | InNewlines.

(** [_SENT_SPLIT_RE.split(text)]: the pieces between the matches, in order;
    [cur] is the piece being read, reversed.  At a position the first
    alternative is tried before the second, and a match is as long as it
    can be. *)
Fixpoint sent_split_from (st : scan) (cur : text) (s : text) : list text :=
  match s with
  | [] => [reverse cur]
  | c :: rest =>
      match st with
      | InText after_end =>
          if after_end && isspace c then
            reverse cur :: sent_split_from InSpaces [] rest
          else if c =? LF then
            reverse cur :: sent_split_from InNewlines [] rest
          else sent_split_from (InText (is_sentence_end c)) (c :: cur) rest
      | InSpaces =>
          if isspace c then sent_split_from InSpaces [] rest
          else sent_split_from (InText (is_sentence_end c)) [c] rest
      | InNewlines =>
          if c =? LF then sent_split_from InNewlines [] rest
          else sent_split_from (InText (is_sentence_end c)) [c] rest
      end
  end.

Definition sent_split (t : text) : list text :=
  sent_split_from (InText false) [] t.

Definition nonempty {A} (l : list A) : bool :=
  match l with [] => false | _ => true end.

(** [raw = [s.strip() for s in _SENT_SPLIT_RE.split(text) if s and s.strip()]] *)
Definition raw_fragments (t : text) : list text :=
  map strip (List.filter (fun s => nonempty s && nonempty (strip s)) (sent_split t)).

(** One turn of the merging loop on the state [(out, buf)]. *)
Definition merge_step (st : list text * text) (s : text) : list text * text :=
  let '(out, buf) := st in
  if (length s <? 20)%nat && nonempty buf then
    (out, strip (buf ++ py " " ++ s))
  else
    (if nonempty buf then out ++ [buf] else out, s).

Definition merge_fragments (raw : list text) : list text :=
  let '(out, buf) := foldl merge_step ([], []) raw in
  if nonempty buf then out ++ [buf] else out.

Definition split_sentences (t : text) : list text :=
  merge_fragments (raw_fragments t).

(** [_word_re = [A-Za-z][A-Za-z0-9\-']{1,}] *)
Definition is_alpha (c : char) : bool :=
  ((65 <=? c) && (c <=? 90)) || ((97 <=? c) && (c <=? 122)).
Definition is_word_char (c : char) : bool :=
  is_alpha c || ((48 <=? c) && (c <=? 57)) || (c =? 45) || (c =? 39).

(** A letter and the word characters after it are a match when there is at
    least one of the latter. *)
Definition close_word (cur : text) : list text :=
  if (2 <=? length cur)%nat then [reverse cur] else [].

(** [[m.group(0) for m in _word_re.finditer(text)]]; [cur] is the match
    being read, reversed, empty between matches. *)
Fixpoint word_matches_from (cur : text) (s : text) : list text :=
  match s with
  | [] => close_word cur
  | c :: rest =>
      match cur with
      | [] => if is_alpha c then word_matches_from [c] rest
              else word_matches_from [] rest
      | _ => if is_word_char c then word_matches_from (c :: cur) rest
             else close_word cur ++ word_matches_from [] rest
      end
  end.

Definition word_matches (t : text) : list text := word_matches_from [] t.

Definition EN_STOP : list text := map py [
  "the";"a";"an";"and";"or";"to";"of";"in";"for";"on";"with";"as";"by";"at";"from";
  "is";"are";"was";"were";"be";"been";"being";"this";"that";"these";"those";"it";
  "we";"you";"they";"i";"he";"she";"them";"his";"her";"their";"our";"your"
]%string.

Definition JA_STOP : list text := [
  [0x3053; 0x308C]; [0x305D; 0x308C]; [0x3042; 0x308C]; [0x3053; 0x3068];
  [0x305F; 0x3081]; [0x3088; 0x3046]; [0x3082; 0x306E];
  [0x3068; 0x3053; 0x308D]; [0x305D; 0x3057; 0x3066]; [0x3057; 0x304B; 0x3057];
  [0x307E; 0x305F]; [0x3067; 0x3059]; [0x307E; 0x3059]; [0x3059; 0x308B];
  [0x3044; 0x308B]; [0x3042; 0x308B]; [0x306A; 0x308B];
  [0x3067; 0x304D; 0x308B]; [0x3089; 0x308C; 0x308B]; [0x306A; 0x3069];
  [0x306B; 0x3066]; [0x306B; 0x3088; 0x308B]
].

Record CompareResult : Type := {
  similarity : R;
  common_terms : list (text * R);
  doc1_unique_terms : list (text * R);
  doc2_unique_terms : list (text * R)
}.

Section WithSegmenter.
(** [_JA_TOKENIZER.tokenize]: janome's word segmentation ([wakati=True]),
    a library outside the repository. *)
Variable janome : text -> list text.

Definition tokenize (t : text) : list text :=
  if is_probably_japanese t then
    let tokens := List.filter (fun t => nonempty (strip t)) (janome t) in
    List.filter (fun t => negb (bool_decide (t ∈ JA_STOP)) && (1 <? length t)%nat) tokens
  else
    let tokens := map lower (word_matches t) in
    List.filter (fun t => negb (bool_decide (t ∈ EN_STOP)) && (2 <? length t)%nat) tokens.

(** The loop [freq[tok] = freq.get(tok, 0) + 1]. *)
Definition count_tokens (toks : list text) : gmap text nat :=
  foldl (fun freq tok => <[tok := default 0%nat (freq !! tok) + 1]> freq)%nat ∅ toks.

(** [max(freq.values())] *)
Definition max_value (freq : gmap text nat) : nat :=
  map_fold (fun _ v acc => Nat.max v acc) 0%nat freq.

(** The score of one sentence, [freq] being the normalised histogram. *)
Definition sentence_score (freq : gmap text R) (s : text) : R :=
  let toks := tokenize s in
  match toks with
  | [] => 0%R
  | _ => (Rsum (map (fun t => default 0%R (freq !! t)) toks)
          / (1 + ln (INR (1 + length toks))))%R
  end.

(** The histogram of the whole text, every count divided by the largest. *)
Definition normalized_freq (t : text) : gmap text R :=
  let freq := count_tokens (tokenize t) in
  let maxf := max_value freq in
  (fun c => (INR c / INR maxf)%R) <$> freq.

Definition summarize (t : text) (sentences : Z) : text :=
  let sents := split_sentences t in
  match sents with
  | [] => []
  | _ =>
      let freq := count_tokens (tokenize t) in
      if decide (freq = ∅) then
        (* fallback: head *)
        join [LF] (slice_to sentences sents)
      else
        let freq' := normalized_freq t in
        let scored := imap (fun i s => (i, sentence_score freq' s)) sents in
        let top_idx :=
          sorted_by_nat fst (slice_to sentences (sorted_by_float_reverse snd scored)) in
        let chosen := map (fun p => sents !!! fst p) top_idx in
        strip (join [LF] chosen)
  end.

(** [[(feature_names[i], float(v[i])) for i in v.argsort()[::-1][:top_terms] if v[i] > 0]] *)
Definition ranked_terms (feature_names : list text) (v : list R) (top_terms : Z)
    : list (text * R) :=
  let idx := slice_to top_terms (reverse (argsort v)) in
  map (fun i => (feature_names !!! i, v !!! i))
      (List.filter (fun i => bool_decide (0 < v !!! i)%R) idx).

Definition vectorize : list text -> ValueError + (list text * list (list R)) :=
  fit_transform tokenize 1 95 100.

Definition compare_texts (text1 text2 : text) (top_terms : Z)
    : ValueError + CompareResult :=
  match vectorize [text1; text2] with
  | inl e => inl e
  | inr (feature_names, X) =>
      let v1 := X !!! 0%nat in
      let v2 := X !!! 1%nat in
      let sim := (cosine_similarity [v1] [v2] !!! 0%nat) !!! 0%nat in
      inr {| similarity := sim;
             common_terms := ranked_terms feature_names (minimum v1 v2) top_terms;
             doc1_unique_terms :=
               ranked_terms feature_names (maximum_diff_0 v1 v2) top_terms;
             doc2_unique_terms :=
               ranked_terms feature_names (maximum_diff_0 v2 v1) top_terms |}
  end.

Definition pairwise_similarity (texts : list text) : ValueError + list (list R) :=
  match vectorize texts with
  | inl e => inl e
  | inr (_, X) => inr (cosine_similarity X X)
  end.

End WithSegmenter.

End Nlp.
Import Nlp.

(** ** The summarizer over the arithmetic of [float]

    The scores of [summarize] are [float]s, and which sentences tie is a
    matter of their rounding.  Here the arithmetic is a parameter: the
    code is the instance whose numbers are the floats (other than NaN,
    which no operation of the summarizer yields: its operands are finite
    and not negative, and its divisors are at least 1). *)

Module Floating.

Record Arith : Type := {
  num : Type;
  zero : num;                      (* 0.0 *)
  one : num;                       (* 1.0 *)
  ratio : nat -> nat -> num;       (* c / m for two [int]s *)
  add : num -> num -> num;         (* x + y *)
  div : num -> num -> num;         (* x / y *)
  log : nat -> num;                (* math.log(n) for an [int] *)
  ltb : num -> num -> bool         (* x < y *)
}.

Section WithArith.
Variable A : Arith.
Variable janome : text -> list text.

(** [sum(xs)]: from the left, starting at 0.  (CPython from 3.12 on
    compensates the rounding of this sum; nothing stated below depends on
    how the sum is formed.) *)
Definition sum (xs : list (num A)) : num A := foldl (add A) (zero A) xs.

(** [sorted(l, key=key, reverse=True)]: descending, and still stable. *)
Definition sorted_reverse {B} (key : B -> num A) : list B -> list B :=
  stable_sort (fun y x => ltb A (key x) (key y)).

(** The score of one sentence, [freq] being the normalised histogram. *)
Definition sentence_score (freq : gmap text (num A)) (s : text) : num A :=
  let toks := tokenize janome s in
  match toks with
  | [] => zero A
  | _ => div A (sum (map (fun t => default (zero A) (freq !! t)) toks))
               (add A (one A) (log A (1 + length toks)))
  end.

(** The histogram of the whole text, every count divided by the largest. *)
Definition normalized_freq (t : text) : gmap text (num A) :=
  let freq := count_tokens (tokenize janome t) in
  let maxf := max_value freq in
  (fun c => ratio A c maxf) <$> freq.

Definition summarize (t : text) (sentences : Z) : text :=
  let sents := split_sentences t in
  match sents with
  | [] => []
  | _ =>
      let freq := count_tokens (tokenize janome t) in
      if decide (freq = ∅) then
        (* fallback: head *)
        join [LF] (slice_to sentences sents)
      else
        let freq' := normalized_freq t in
        let scored := imap (fun i s => (i, sentence_score freq' s)) sents in
        let top_idx :=
          sorted_by_nat fst (slice_to sentences (sorted_reverse snd scored)) in
        let chosen := map (fun p => sents !!! fst p) top_idx in
        strip (join [LF] chosen)
  end.

End WithArith.

(** The arithmetic of the real numbers: [summarize] above is [summarize]
    over it (lemma [summarize_real]). *)
Definition real : Arith :=
  {| num := R; zero := 0%R; one := 1%R;
     ratio := fun c m => (INR c / INR m)%R;
     add := Rplus; div := Rdiv;
     log := fun n => ln (INR n);
     ltb := fun x y => bool_decide (x < y)%R |}.

End Floating.

(** ** paperbox/graphing.py *)

Module Graphing.

Record Node : Type := { id : Z; label : text }.
Record Edge : Type := { a : nat; b : nat; weight : R }.

(** [sim[i, j]]; outside the array numpy raises [IndexError], here [None]. *)
Definition getitem (sim : list (list R)) (i j : nat) : option R :=
  row ← sim !! i; row !! j.

(** The pairs the two loops visit, in the order they visit them:
    [for i in range(n): for j in range(i+1, n)]. *)
Definition upper_triangle (n : nat) : list (nat * nat) :=
  i ← seq 0 n; j ← seq (i + 1) (n - (i + 1)); [(i, j)].

Definition build_edges (sim : list (list R)) (threshold : R) : option (list Edge) :=
  let n := length sim in
  edges ← mapM (fun '(i, j) =>
                  w ← getitem sim i j;
                  Some (if decide (threshold <= w)%R
                        then [{| a := i; b := j; weight := w |}] else []))
               (upper_triangle n);
  (* sort strong first *)
  Some (sorted_by_float_reverse weight (concat edges)).

Section Render.
(** [f"{x:.2f}"] on a [float], not modelled. *)
Variable format_2f : R -> text.

Definition render_mermaid (nodes : list Node) (edges : list Edge) : text :=
  let lines :=
    [py "```mermaid"; py "graph TD"]
    ++ map (fun nd => py "  D" ++ str_of_int (id nd) ++ py "[" ++ [QUOTE]
                      ++ label nd ++ [QUOTE] ++ py "]") nodes
    ++ map (fun e => py "  D" ++ str_of_int (Z.of_nat (a e)) ++ py " ---|"
                     ++ format_2f (weight e) ++ py "| D"
                     ++ str_of_int (Z.of_nat (b e))) edges
    ++ [py "```"] in
  join [LF] lines.

Definition render_dot (nodes : list Node) (edges : list Edge) : text :=
  let lines :=
    [py "graph G {"; py "  graph [overlap=false, splines=true];";
     py "  node [shape=box];"]
    ++ map (fun nd =>
              (* the replacement literal of the source, a backslash and a
                 quote between single quotes, denotes the quote alone *)
              let safe := replace QUOTE [QUOTE] (label nd) in
              py "  D" ++ str_of_int (id nd) ++ py " [label=" ++ [QUOTE]
              ++ safe ++ [QUOTE] ++ py "];") nodes
    ++ map (fun e => py "  D" ++ str_of_int (Z.of_nat (a e)) ++ py " -- D"
                     ++ str_of_int (Z.of_nat (b e)) ++ py " [label=" ++ [QUOTE]
                     ++ format_2f (weight e) ++ [QUOTE] ++ py ", penwidth="
                     ++ format_2f (1 + 4 * weight e)%R ++ py "];") edges
    ++ [py "}"] in
  join [LF] lines.

Inductive format : Type := mermaid | dot_format.

Definition render (nodes : list Node) (edges : list Edge) (fmt : format) : text :=
  match fmt with
  | dot_format => render_dot nodes edges
  | mermaid => render_mermaid nodes edges
  end.
End Render.

End Graphing.

(** ** paperbox/extractors *)

Module Extractors.

Inductive Extractor : Type :=
  | extract_pdf | extract_docx | extract_html | extract_text.

(** The dictionary of [get_extractor]. *)
Definition mapping : gmap text Extractor :=
  list_to_map [
    (py ".pdf", extract_pdf);
    (py ".docx", extract_docx);
    (py ".html", extract_html);
    (py ".htm", extract_html);
    (py ".txt", extract_text);
    (py ".md", extract_text);
    (py ".rst", extract_text)
  ].

(** [get_extractor(path)], [ext] being [path.suffix.lower()]. *)
Definition get_extractor (ext : text) : option Extractor := mapping !! ext.

(** [extract_html] from the text [soup.get_text("\n")] gives. *)
Definition html_text (t : text) : text :=
  (* normalize line breaks *)
  let lines := map strip (splitlines t) in
  let lines := List.filter Nlp.nonempty lines in
  strip (join [LF] lines).

(** [extract_pdf] from what [page.extract_text()] gives page by page;
    [None] is a page on which the call raises or returns nothing. *)
Definition pdf_text (pages : list (option text)) : text :=
  let parts :=
    List.filter (fun t => Nlp.nonempty (strip t))
                (map (fun page => match page with Some t => t | None => [] end) pages) in
  strip (join [LF; LF] parts).

(** [extract_docx] from the texts [p.text] of the paragraphs. *)
Definition docx_text (paragraphs : list text) : text :=
  let lines :=
    map strip
        (List.filter (fun p => Nlp.nonempty p && Nlp.nonempty (strip p)) paragraphs) in
  strip (join [LF] lines).

End Extractors.

(** ** paperbox/db.py *)

Module Db.

(** A row of the table [docs]. *)
Record Doc : Type := {
  id : nat;
  source_path : text;
  title : text;
  sha256 : text;
  text_ : text;       (* the column [text] *)
  created_at : text
}.

(** The connection: the rows of [docs] in the order they were inserted,
    and the largest row id handed out so far ([AUTOINCREMENT]). *)
Record Conn : Type := {
  rows : list Doc;
  last_id : nat
}.

(** The database [init_db] leaves when the file is new. *)
Definition empty : Conn := {| rows := []; last_id := 0 |}.

(** [UPDATE docs SET source_path=?, title=?, text=? WHERE id=?] *)
Definition update_row (doc_id : nat) (sp ti tx : text) (d : Doc) : Doc :=
  if (id d =? doc_id)%nat then
    {| id := id d; source_path := sp; title := ti; sha256 := sha256 d;
       text_ := tx; created_at := created_at d |}
  else d.

(** [upsert_doc]: the connection after the call, and [(doc_id, inserted)]. *)
Definition upsert_doc (conn : Conn) (sp ti sha tx created : text)
    : Conn * (nat * bool) :=
  (* SELECT id FROM docs WHERE sha256 = ? *)
  match List.find (fun d => bool_decide (sha256 d = sha)) (rows conn) with
  | Some row =>
      let doc_id := id row in
      ({| rows := map (update_row doc_id sp ti tx) (rows conn);
          last_id := last_id conn |},
       (doc_id, false))
  | None =>
      (* INSERT INTO docs(source_path, title, sha256, text, created_at) *)
      let doc_id := S (last_id conn) in
      ({| rows := rows conn ++ [{| id := doc_id; source_path := sp; title := ti;
                                   sha256 := sha; text_ := tx;
                                   created_at := created |}];
          last_id := doc_id |},
       (doc_id, true))
  end.

(** [SELECT * FROM docs ORDER BY id ASC] *)
Definition list_docs (conn : Conn) : list Doc := sorted_by_nat id (rows conn).

(** [SELECT * FROM docs WHERE id = ?], [fetchone]. *)
Definition get_doc (conn : Conn) (doc_id : nat) : option Doc :=
  List.find (fun d => (id d =? doc_id)%nat) (rows conn).

(** The score [search_docs] gives a row: [1.0 / (1.0 + max(bm25, 0.0))]. *)
Definition search_score (bm25 : R) : R := (1 / (1 + Rmax bm25 0))%R.

(** The loop of [search_docs] over the rows the query returned, each with
    its [bm25]. *)
Definition search_results (fetched : list (Doc * R)) : list (Doc * R) :=
  map (fun r => (r.1, search_score r.2)) fetched.

End Db.

(** ** paperbox/ingest.py *)

Module Ingest.

Definition SUPPORTED_EXTS : list text :=
  [py ".pdf"; py ".docx"; py ".html"; py ".htm"; py ".txt"; py ".md"; py ".rst"].

(** What the file system and the libraries answer for one path of
    [iter_files(inputs)]: the path as a string, [path.suffix.lower()],
    [path.stem], [str(path.resolve())], what [sha256_file(path)] and
    [extractor(path)] return ([inl] is the message of the exception
    raised), and the time stamp. *)
Record File : Type := {
  path : text;
  suffix_lower : text;
  stem : text;
  resolved : text;
  hashed : text + text;
  extracted : text + text;
  now : text
}.

Record IngestItemResult : Type := {
  result_path : text;        (* the field [path] *)
  skipped : bool;
  reason : text;
  doc_id : option nat;
  inserted : option bool
}.

Definition skip (f : File) (why : text) : IngestItemResult :=
  {| result_path := path f; skipped := true; reason := why;
     doc_id := None; inserted := None |}.

Section WithTables.
Variable isalnum : char -> bool.

(** One turn of the loop of [ingest_paths]. *)
Definition ingest_file (conn : Db.Conn) (f : File) : Db.Conn * IngestItemResult :=
  if negb (bool_decide (suffix_lower f ∈ SUPPORTED_EXTS)) then
    (conn, skip f (py "unsupported extension"))
  else
    match Extractors.get_extractor (suffix_lower f) with
    | None => (conn, skip f (py "no extractor"))
    | Some _ =>
        match hashed f with
        | inl e => (conn, skip f (py "hash failed: " ++ e))
        | inr h =>
            match extracted f with
            | inl e => (conn, skip f (py "extract failed: " ++ e))
            | inr raw =>
                let t := normalize_whitespace raw in
                if negb (Nlp.nonempty (strip t)) then
                  (conn, skip f (py "empty text (maybe scanned PDF?)"))
                else
                  let title := guess_title isalnum (stem f) t in
                  let '(conn', (i, ins)) :=
                    Db.upsert_doc conn (resolved f) title h t (now f) in
                  (conn', {| result_path := path f; skipped := false;
                             reason := py "ok"; doc_id := Some i;
                             inserted := Some ins |})
            end
        end
    end.

(** [ingest_paths] on an open connection: the connection it leaves and
    the results. *)
Definition ingest_paths (conn : Db.Conn) (files : list File)
    : Db.Conn * list IngestItemResult :=
  foldl (fun st f =>
           let '(conn', r) := ingest_file st.1 f in (conn', st.2 ++ [r]))
        (conn, []) files.
End WithTables.

End Ingest.

(** * Notions the properties are stated with *)

Local Close Scope N_scope.

(** No white space at either end. *)
Definition trimmed (s : text) : Prop :=
  (∀ c, head s = Some c → isspace c = false) ∧
  (∀ c, last s = Some c → isspace c = false).

(** What every sentence is: not empty, and trimmed. *)
Definition clean (s : text) : Prop := s ≠ [] ∧ trimmed s.

(** A character that is no line boundary. *)
Definition no_break (c : N) : Prop := is_linebreak c = false.

(** The only line boundary the text holds is the line feed. *)
Definition only_lf_breaks (t : text) : Prop :=
  ∀ c, c ∈ t → is_linebreak c = true → c = LF.

(** The number of line boundaries of a string. *)
Definition breaks (s : text) : nat := length (List.filter is_linebreak s).

(** How many elements [l[:k]] has, [n] being [len(l)], before it is cut to
    the list. *)
Definition slice_len (k : Z) (n : nat) : nat :=
  if (k <? 0)%Z then Z.to_nat (Z.of_nat n + k) else Z.to_nat k.

(** The order a stable descending sort puts scored sentences in: the higher
    score goes first, and of two equal scores the lower index. *)
Definition ranks_before (x y : nat * R) : Prop :=
  (y.2 < x.2)%R ∨ (x.2 = y.2 ∧ x.1 < y.1).

(** The score [summarize] gives sentence [i] of [t]. *)
Definition score_of (janome : text → list text) (t : text) (i : nat) : R :=
  sentence_score janome (normalized_freq janome t) (split_sentences t !!! i).

(** To run the model on a text a segmenter has to be named.  The texts
    of the examples hold no Japanese character, so none of them reaches it
    (lemma [tokenize_latin]). *)
Definition no_segmenter : text → list text := λ _, [].

(** The divisor [l2_normalize] uses: the norm, or 1 for a row of norm 0. *)
Definition l2_divisor (row : list R) : R :=
  if decide (sqrt (dot row row) = 0%R) then 1%R else sqrt (dot row row).

(** The terms before pruning: every feature of every document, sorted. *)
Definition full_vocabulary (tokenizer : text → list text) (docs : list text)
    : list text :=
  stable_sort PyStr.ltb (remove_dups (concat (map (analyze tokenizer) docs))).

(** Whether [_limit_features] keeps a term. *)
Definition keeps (tokenizer : text → list text) (min_df max_df_num max_df_den : nat)
    (docs : list text) (t : text) : bool :=
  (doc_freq (map (analyze tokenizer) docs) t * max_df_den
     <=? max_df_num * length docs)
  && (min_df <=? doc_freq (map (analyze tokenizer) docs) t).

(** The weight of a term in a document before the row is normalised. *)
Definition raw_weight (all_feats : list (list text)) (feats : list text) (t : text) : R :=
  (INR (count_term t feats) * idf (length all_feats) (doc_freq all_feats t))%R.

(** A row of the matrix, term by term. *)
Definition weight (all_feats : list (list text)) (vocabulary : list text)
    (feats : list text) (t : text) : R :=
  (raw_weight all_feats feats t
   / l2_divisor (raw_weight all_feats feats <$> vocabulary))%R.

(** An N by N matrix: N rows of N entries. *)
Definition square (sim : list (list R)) : Prop :=
  Forall (λ row, length row = length sim) sim.

(** The edge of a pair of indices, whatever its weight. *)
Definition edge_of (sim : list (list R)) (p : nat * nat) : Graphing.Edge :=
  {| Graphing.a := p.1; Graphing.b := p.2; Graphing.weight := (sim !!! p.1) !!! p.2 |}.

(** [map] of the standard library, read as the [fmap] the list lemmas are
    stated with. *)
Ltac to_fmap :=
  repeat match goal with
  | |- context [map ?f ?l] => change (map f l) with (f <$> l)
  end.

(** ** Notions of the further properties *)

(** At least 20 characters long. *)
Definition long (s : text) : Prop := 20 ≤ length s.

(** The characters that are no white space, in order. *)
Definition visible (s : text) : text := List.filter (λ c, negb (isspace c)) s.

(** Outside a piece of text the scan holds no piece. *)
Definition scan_ok (st : scan) (cur : text) : Prop :=
  match st with InText _ => True | _ => cur = [] end.

(** A lower-case ASCII letter. *)
Definition is_lower_alpha (c : N) : bool := ((97 <=? c) && (c <=? 122))%N.

(** What a token of the word pattern is made of once lower-cased. *)
Definition is_lower_word_char (c : N) : bool :=
  (is_lower_alpha c || ((48 <=? c) && (c <=? 57)) || (c =? 45) || (c =? 39))%N.

(** A match of the word pattern: a letter, then at least one word
    character. *)
Definition wordlike (m : text) : Prop :=
  2 ≤ length m
  ∧ (∀ c, c ∈ m → is_word_char c = true)
  ∧ (∃ a, head m = Some a ∧ is_alpha a = true).

(** The match being read: nothing yet, or a letter followed by word
    characters ([cur] is reversed). *)
Definition candidate (cur : text) : Prop :=
  cur = [] ∨ ((∀ c, c ∈ cur → is_word_char c = true)
              ∧ ∃ a, last cur = Some a ∧ is_alpha a = true).

(** What a ranked list is for a count [k]: at most [k] entries, every
    weight positive, the weights in descending order. *)
Definition ranked (k : Z) (l : list (text * R)) : Prop :=
  length l ≤ Z.to_nat k
  ∧ Forall (λ p, (0 < p.2)%R) l
  ∧ StronglySorted (λ p q, (q.2 <= p.2)%R) l.

(** A line [guess_title] accepts, once stripped: not empty, at most 140
    characters, at least three of them alphanumeric. *)
Definition title_candidate (isalnum : N → bool) (s : text) : Prop :=
  s ≠ [] ∧ length s ≤ 140 ∧ 3 ≤ length (List.filter isalnum s).

(** [part] is a contiguous piece of [s]. *)
Definition piece_of (part s : text) : Prop := ∃ pre post, s = pre ++ part ++ post.

(** The lines [extract_html] keeps. *)
Definition html_lines (t : text) : list text :=
  List.filter nonempty (map strip (splitlines t)).

(** What the schema and [upsert_doc] keep of the table: the row ids grow
    with the order of insertion ([AUTOINCREMENT]) and are between 1 and
    the last id handed out, and no two rows have the same [sha256]
    ([UNIQUE]). *)
Definition consistent (conn : Db.Conn) : Prop :=
  StronglySorted lt (map Db.id (Db.rows conn))
  ∧ Forall (λ d, 1 ≤ Db.id d ≤ Db.last_id conn) (Db.rows conn)
  ∧ NoDup (map Db.sha256 (Db.rows conn)).

(** The arguments of a call of [upsert_doc] as a row with the id [i] and
    the time stamp [created]. *)
Definition row_of (i : nat) (sp ti sha tx created : text) : Db.Doc :=
  {| Db.id := i; Db.source_path := sp; Db.title := ti; Db.sha256 := sha;
     Db.text_ := tx; Db.created_at := created |}.

(** The table after a call of [upsert_doc] with the arguments [c]: path,
    title, hash, text and time stamp. *)
Definition upsert_call (conn : Db.Conn) (c : text * text * text * text * text)
    : Db.Conn :=
  let '(sp, ti, sha, tx, created) := c in
  (Db.upsert_doc conn sp ti sha tx created).1.

(** The hashes and ids of the table, row by row. *)
Definition index (conn : Db.Conn) : list (text * nat) :=
  map (λ d, (Db.sha256 d, Db.id d)) (Db.rows conn).

(** The stored text is what the ingestion stores: not empty and trimmed. *)
Definition holds_text (d : Db.Doc) : Prop :=
  Db.text_ d ≠ [] ∧ strip (Db.text_ d) = Db.text_ d.

(** [n] lines that hold one space each, each closed by a line feed. *)
Definition space_lines (n : nat) : text := concat (replicate n [SPACE; LF]).

(** A line of text: not empty, trimmed, without line feed or carriage
    return. *)
Definition plain_line (s : text) : Prop := clean s ∧ (LF ∉ s) ∧ (CR ∉ s).

(** The text of a page, empty when the page gave none. *)
Definition page_text (page : option text) : text :=
  match page with Some t => t | None => [] end.

(** ** Notions on the arithmetic of floats *)

(** What [<] is on floats none of which is NaN: a strict weak order, here
    on the numbers that satisfy [P]. *)
Definition strict_weak_on {K} (ltb : K → K → bool) (P : K → Prop) : Prop :=
  (∀ x y, P x → P y → ltb x y = true → ltb y x = false)
  ∧ (∀ x y z, P x → P y → P z →
       ltb x y = false → ltb y z = false → ltb x z = false).

(** Two numbers tie: neither is below the other. *)
Definition tie (A : Floating.Arith) (x y : Floating.num A) : Prop :=
  Floating.ltb A x y = false ∧ Floating.ltb A y x = false.

(** The score [summarize] gives sentence [i] of [t], over the arithmetic
    [A]. *)
Definition float_score (A : Floating.Arith) (janome : text → list text)
    (t : text) (i : nat) : Floating.num A :=
  Floating.sentence_score A janome (Floating.normalized_freq A janome t)
                          (split_sentences t !!! i).

(** [x] is the score of a sentence of [t]. *)
Definition is_score (A : Floating.Arith) (janome : text → list text)
    (t : text) (x : Floating.num A) : Prop :=
  ∃ i, i < length (split_sentences t) ∧ x = float_score A janome t i.

(** The order a stable descending sort puts scored sentences in, over the
    arithmetic [A]: the higher score goes first, and of two scores that
    tie the lower index. *)
Definition ranks_before_by (A : Floating.Arith) (x y : nat * Floating.num A) : Prop :=
  Floating.ltb A y.2 x.2 = true ∨ (Floating.ltb A x.2 y.2 = false ∧ x.1 < y.1).

(** * Properties *)

(** ** Stripping *)

Section StripFacts.

Lemma lstrip_head s c : head (lstrip s) = Some c → isspace c = false.
Proof.
  induction s as [|x s IH]; simpl; [done|].
  destruct (isspace x) eqn:Hx; [done|]. simpl. congruence.
Qed.

Lemma lstrip_suffix s : lstrip s `suffix_of` s.
Proof.
  induction s as [|x s IH]; simpl; [done|].
  destruct (isspace x); [by apply suffix_cons_r | done].
Qed.

Lemma lstrip_id s : (∀ c, head s = Some c → isspace c = false) → lstrip s = s.
Proof.
  destruct s as [|x s]; simpl; [done|]. intros H. by rewrite (H x eq_refl).
Qed.

Lemma rstrip_last s c : last (rstrip s) = Some c → isspace c = false.
Proof. unfold rstrip. rewrite last_reverse. apply lstrip_head. Qed.

Lemma rstrip_prefix s : rstrip s `prefix_of` s.
Proof.
  unfold rstrip. apply prefix_suffix_reverse.
  rewrite reverse_involutive. apply lstrip_suffix.
Qed.

Lemma rstrip_id s : (∀ c, last s = Some c → isspace c = false) → rstrip s = s.
Proof.
  intros H. unfold rstrip. rewrite lstrip_id, reverse_involutive; [done|].
  intros c. rewrite head_reverse. apply H.
Qed.

Lemma head_prefix (p l : text) c : p `prefix_of` l → head p = Some c → head l = Some c.
Proof. intros [k ->]. by destruct p. Qed.

Lemma strip_trimmed s : trimmed (strip s).
Proof.
  split; intros c Hc.
  - apply (lstrip_head s). eapply head_prefix; [apply rstrip_prefix | exact Hc].
  - by apply (rstrip_last (lstrip s)).
Qed.

Lemma strip_id s : trimmed s → strip s = s.
Proof.
  intros [Hh Hl]. unfold strip. rewrite (lstrip_id s Hh). by apply rstrip_id.
Qed.

Lemma trimmed_app (x mid y : text) :
  clean x → clean y → clean (x ++ mid ++ y).
Proof.
  intros [Hx [Hxh _]] [Hy [_ Hyl]]. split; [by destruct x|]. split; intros c.
  - destruct x; [done|]. apply Hxh.
  - rewrite !app_assoc, last_app. destruct (last y) eqn:E; [apply Hyl|].
    apply last_None in E. done.
Qed.

End StripFacts.

(** ** Sentence splitting *)

Section SplitFacts.

Lemma nonempty_true {A} (l : list A) : nonempty l = true ↔ l ≠ [].
Proof. by destruct l. Qed.

Lemma raw_fragments_clean t : Forall clean (raw_fragments t).
Proof.
  unfold raw_fragments. apply Forall_forall. intros s Hs.
  apply list_elem_of_fmap in Hs as (s0 & -> & Hs0).
  apply list_elem_of_In, filter_In in Hs0 as [_ H].
  apply andb_prop in H as [_ H]. apply nonempty_true in H.
  split; [done | apply strip_trimmed].
Qed.

(** An invariant of the merging loop: a property [Q] of fragments that a
    merge keeps holds of every sentence. *)
Section MergeInvariant.
Variable Q : text → Prop.
Hypothesis Q_merge :
  ∀ buf s, buf ≠ [] → Q buf → Q s → Q (strip (buf ++ py " " ++ s)).

Lemma merge_step_inv out buf s :
  Forall Q out → (buf = [] ∨ Q buf) → Q s →
  Forall Q (merge_step (out, buf) s).1 ∧ Q (merge_step (out, buf) s).2.
Proof.
  intros Hout Hbuf Hs. unfold merge_step.
  destruct ((length s <? 20)%nat && nonempty buf) eqn:E; cbn [fst snd].
  - apply andb_prop in E as [_ E]. apply nonempty_true in E.
    destruct Hbuf as [->|Hbuf]; [done|]. split; [done|]. by apply Q_merge.
  - split; [|done]. destruct Hbuf as [->|Hbuf]; simpl; [done|].
    destruct buf; [done|]. simpl. apply Forall_app. by split; [|constructor].
Qed.

Lemma merge_loop_inv raw : ∀ out buf,
  Forall Q raw → Forall Q out → (buf = [] ∨ Q buf) →
  Forall Q (foldl merge_step (out, buf) raw).1 ∧
  ((foldl merge_step (out, buf) raw).2 = [] ∨
   Q (foldl merge_step (out, buf) raw).2).
Proof.
  induction raw as [|s raw IH]; intros out buf Hraw Hout Hbuf; cbn [foldl]; [done|].
  inversion Hraw as [|? ? Hs Hraw']; subst.
  destruct (merge_step_inv out buf s Hout Hbuf Hs) as [H1 H2].
  destruct (merge_step (out, buf) s) as [out' buf'] eqn:E. cbn [fst snd] in *.
  apply IH; auto.
Qed.

Lemma merge_fragments_inv raw : Forall Q raw → Forall Q (merge_fragments raw).
Proof.
  intros Hraw. unfold merge_fragments.
  destruct (merge_loop_inv raw [] [] Hraw) as [H1 H2]; [done | by left |].
  destruct (foldl merge_step ([], []) raw) as [out buf]. simpl in *.
  destruct buf; simpl; [done|]. destruct H2 as [?|H2]; [done|].
  apply Forall_app. by split; [|constructor].
Qed.

End MergeInvariant.

Lemma clean_merge buf s :
  buf ≠ [] → clean buf → clean s → clean (strip (buf ++ py " " ++ s)).
Proof.
  intros _ Hb Hs. rewrite strip_id; apply (trimmed_app buf _ s); done.
Qed.

Lemma split_sentences_clean t : Forall clean (split_sentences t).
Proof. apply (merge_fragments_inv clean clean_merge), raw_fragments_clean. Qed.

(** The loop only ever appends to [out]. *)
Lemma merge_step_prefix out buf s : out `prefix_of` (merge_step (out, buf) s).1.
Proof.
  unfold merge_step. destruct ((length s <? 20)%nat && nonempty buf); [done|].
  destruct (nonempty buf); cbn [fst]; [by apply prefix_app_r | done].
Qed.

Lemma merge_loop_prefix raw : ∀ out buf,
  out `prefix_of` (foldl merge_step (out, buf) raw).1.
Proof.
  induction raw as [|s raw IH]; intros out buf; cbn [foldl]; [done|].
  pose proof (merge_step_prefix out buf s) as H.
  destruct (merge_step (out, buf) s) as [o b]. etrans; [exact H | apply IH].
Qed.

Lemma merge_result_prefix raw out buf :
  ∃ tail,
    (let '(o, b) := foldl merge_step (out, buf) raw in
     if nonempty b then o ++ [b] else o) = out ++ tail.
Proof.
  destruct (merge_loop_prefix raw out buf) as [k Hk].
  destruct (foldl merge_step (out, buf) raw) as [out' buf']. simpl in Hk. subst.
  destruct (nonempty buf'); [|by eauto]. exists (k ++ [buf']). by rewrite app_assoc.
Qed.

End SplitFacts.

(** C10. The merge of fragments under 20 characters only goes backward: a
    first raw fragment shorter than 20 characters, followed by nothing or
    by a fragment of at least 20 characters, is the first sentence returned,
    on its own; every sentence returned, on every input, is non-empty and
    has no white space at either end; and a sentence shorter than 20
    characters is returned for some input. *)
Theorem split_sentences_merges_backward_only :
  (∀ (t : text) (s1 : text) (rest : list text),
      raw_fragments t = s1 :: rest →
      (length s1 < 20)%nat →
      (∀ s2, head rest = Some s2 → (20 ≤ length s2)%nat) →
      ∃ tail, split_sentences t = s1 :: tail)
  ∧ (∀ (t : text) (s : text), s ∈ split_sentences t → s ≠ [] ∧ trimmed s)
  ∧ (∃ (t : text) (s : text), s ∈ split_sentences t ∧ (length s < 20)%nat).
Proof.
  split; [|split].
  - intros t s1 rest Hraw Hlen Hnext.
    assert (Hs1 : s1 ≠ []).
    { pose proof (raw_fragments_clean t) as H. rewrite Hraw in H.
      by inversion H as [|? ? [? _] _]. }
    unfold split_sentences, merge_fragments. rewrite Hraw.
    destruct rest as [|s2 rest].
    + exists []. simpl. rewrite andb_false_r. by destruct s1.
    + specialize (Hnext s2 eq_refl).
      assert (E : foldl merge_step ([], []) (s1 :: s2 :: rest)
                  = foldl merge_step ([s1], s2) rest).
      { simpl. rewrite andb_false_r. simpl.
        assert ((length s2 <? 20)%nat = false) as -> by (apply Nat.ltb_ge; lia).
        simpl. by destruct s1. }
      rewrite E. apply (merge_result_prefix rest [s1] s2).
  - intros t s Hs. pose proof (split_sentences_clean t) as H.
    rewrite Forall_forall in H. by apply H.
  - exists (py "Hi. This is a long sentence for sure."), (py "Hi.").
    split; [vm_compute; apply list_elem_of_here | vm_compute; lia].
Qed.

Lemma split_sentences_merges_backward_only_witness :
  ∃ tail, split_sentences (py "Hi. This is a long sentence for sure.")
          = py "Hi." :: tail.
Proof.
  apply (proj1 split_sentences_merges_backward_only
           (py "Hi. This is a long sentence for sure.") (py "Hi.")
           [py "This is a long sentence for sure."]).
  - vm_compute. reflexivity.
  - vm_compute. lia.
  - intros s2 H. injection H as <-. vm_compute. lia.
Defined.

(** ** Sorting *)

Section SortFacts.
Context {A : Type} (before : A → A → bool).

Lemma insert_sorted_perm x l : insert_sorted before x l ≡ₚ x :: l.
Proof.
  induction l as [|y l IH]; simpl; [done|].
  destruct (before y x); [|done]. rewrite IH. apply Permutation_swap.
Qed.

Lemma stable_sort_perm l : stable_sort before l ≡ₚ l.
Proof.
  induction l as [|x l IH]; simpl; [done|].
  rewrite insert_sorted_perm. by rewrite IH.
Qed.

Lemma stable_sort_elem x l : x ∈ stable_sort before l ↔ x ∈ l.
Proof. by rewrite stable_sort_perm. Qed.

Lemma stable_sort_length l : length (stable_sort before l) = length l.
Proof. by rewrite stable_sort_perm. Qed.

(** [ord u v]: [v] does not sort strictly before [u]. *)
Let ord (u v : A) : Prop := before v u = false.

Hypothesis ord_trans : ∀ x y z, ord x y → ord y z → ord x z.
Hypothesis before_asym : ∀ x y, before x y = true → before y x = false.

Lemma insert_sorted_sorted x l :
  StronglySorted ord l → StronglySorted ord (insert_sorted before x l).
Proof.
  induction l as [|y l IH]; simpl; intros Hl.
  - repeat constructor.
  - apply StronglySorted_cons in Hl as [Hy Hl].
    destruct (before y x) eqn:E.
    + apply StronglySorted_cons. split; [|by apply IH].
      apply Forall_forall. intros z Hz.
      rewrite insert_sorted_perm in Hz. apply elem_of_cons in Hz as [->|Hz].
      * by apply before_asym.
      * rewrite Forall_forall in Hy. by apply Hy.
    + apply StronglySorted_cons. split; [|by apply StronglySorted_cons].
      constructor; [exact E|].
      rewrite Forall_forall in Hy |- *. intros z Hz.
      apply (ord_trans x y z); [exact E | by apply Hy].
Qed.

Lemma stable_sort_sorted l : StronglySorted ord (stable_sort before l).
Proof.
  induction l as [|x l IH]; simpl; [constructor|]. by apply insert_sorted_sorted.
Qed.

End SortFacts.

Lemma StronglySorted_impl {A} (R1 R2 : relation A) l :
  (∀ u v, R1 u v → R2 u v) → StronglySorted R1 l → StronglySorted R2 l.
Proof.
  intros H. induction 1 as [|x l Hl IH Hx]; constructor; [done|].
  eapply Forall_impl; [exact Hx | by auto].
Qed.

Lemma sorted_by_float_reverse_sorted {A} (key : A → R) l :
  StronglySorted (λ u v, (key v <= key u)%R) (sorted_by_float_reverse key l).
Proof.
  unfold sorted_by_float_reverse.
  eapply StronglySorted_impl; [|apply stable_sort_sorted].
  - intros u v H. simpl in H. apply bool_decide_eq_false in H. lra.
  - intros x y z H1 H2. apply bool_decide_eq_false in H1, H2.
    apply bool_decide_eq_false. lra.
  - intros x y H. apply bool_decide_eq_true in H. apply bool_decide_eq_false. lra.
Qed.

Lemma sorted_by_nat_sorted {A} (key : A → nat) l :
  StronglySorted (λ u v, key u ≤ key v) (sorted_by_nat key l).
Proof.
  unfold sorted_by_nat.
  eapply StronglySorted_impl; [|apply stable_sort_sorted].
  - intros u v H. simpl in H. apply Nat.ltb_ge in H. lia.
  - intros x y z H1 H2. apply Nat.ltb_ge in H1, H2. apply Nat.ltb_ge. lia.
  - intros x y H. apply Nat.ltb_lt in H. apply Nat.ltb_ge. lia.
Qed.

Lemma insert_ranked x l :
  Forall (λ y, x.1 < y.1) l →
  StronglySorted ranks_before l →
  StronglySorted ranks_before
    (insert_sorted (λ y x, bool_decide (x.2 < y.2)%R) x l).
Proof.
  induction l as [|y l IH]; simpl; intros Hx Hl.
  - repeat constructor.
  - apply Forall_cons in Hx as [Hxy Hx].
    apply StronglySorted_cons in Hl as [Hy Hl].
    destruct (bool_decide (x.2 < y.2)%R) eqn:E.
    + apply bool_decide_eq_true in E.
      apply StronglySorted_cons. split; [|by apply IH].
      apply Forall_forall. intros z Hz.
      rewrite insert_sorted_perm in Hz. apply elem_of_cons in Hz as [->|Hz].
      * by left.
      * rewrite Forall_forall in Hy. by apply Hy.
    + apply bool_decide_eq_false in E.
      apply StronglySorted_cons. split; [|by apply StronglySorted_cons].
      assert (Hxy' : ranks_before x y).
      { unfold ranks_before. destruct (Rlt_dec y.2 x.2); [by left|right].
        split; [lra | done]. }
      constructor; [done|].
      rewrite Forall_forall in Hy, Hx |- *. intros z Hz.
      specialize (Hy z Hz). specialize (Hx z Hz).
      unfold ranks_before in *.
      destruct (Rlt_dec z.2 x.2); [by left|right]. split; [|done].
      destruct Hy as [?|[? _]], Hxy' as [?|[? _]]; lra.
Qed.

Lemma sorted_by_float_reverse_ranked (l : list (nat * R)) :
  StronglySorted (λ x y, x.1 < y.1) l →
  StronglySorted ranks_before (sorted_by_float_reverse snd l).
Proof.
  unfold sorted_by_float_reverse.
  induction l as [|x l IH]; simpl; intros Hl; [constructor|].
  apply StronglySorted_cons in Hl as [Hx Hl].
  apply insert_ranked; [|by apply IH].
  rewrite Forall_forall in Hx |- *. intros y Hy. apply Hx.
  by rewrite stable_sort_perm in Hy.
Qed.

Lemma StronglySorted_le_lt (l : list nat) :
  NoDup l → StronglySorted le l → StronglySorted lt l.
Proof.
  induction l as [|x l IH]; intros Hnd Hl; [constructor|].
  apply NoDup_cons in Hnd as [Hx Hnd].
  apply StronglySorted_cons in Hl as [Hxl Hl].
  apply StronglySorted_cons. split; [|by apply IH].
  rewrite Forall_forall in Hxl |- *. intros y Hy.
  specialize (Hxl y Hy). assert (x ≠ y) by (intros ->; done). lia.
Qed.

(** ** Slices, joins and lines *)

Section SliceJoinFacts.

Lemma slice_to_take {A} k (l : list A) :
  slice_to k l = take (slice_len k (length l)) l.
Proof. unfold slice_to, slice_len. by destruct (k <? 0)%Z. Qed.

Lemma take_lookups (l : list text) m :
  take m l = (λ i, l !!! i) <$> seq 0 (min m (length l)).
Proof.
  apply list_eq. intros i. rewrite list_lookup_fmap.
  destruct (decide (i < min m (length l))) as [Hi|Hi].
  - rewrite lookup_take_lt, lookup_seq_lt by lia. simpl.
    apply list_lookup_lookup_total_lt. lia.
  - assert (seq 0 (min m (length l)) !! i = None) as ->.
    { apply lookup_ge_None. rewrite length_seq. lia. }
    simpl. apply lookup_ge_None. rewrite length_take. lia.
Qed.

Lemma seq_sorted j n : StronglySorted lt (seq j n).
Proof.
  revert j. induction n as [|n IH]; intros j; simpl; constructor; [apply IH|].
  apply Forall_forall. intros x Hx. apply elem_of_seq in Hx. lia.
Qed.

Lemma join_cons sep (p q : text) ps :
  join sep (p :: q :: ps) = p ++ sep ++ join sep (q :: ps).
Proof. done. Qed.

Lemma join_clean (ss : list text) :
  ss ≠ [] → Forall clean ss → clean (join [LF] ss).
Proof.
  induction ss as [|p [|q ps] IH]; intros Hne Hss; [done| |].
  - by inversion Hss.
  - rewrite join_cons. inversion Hss as [|? ? Hp Hss']; subst.
    apply trimmed_app; [done|]. by apply IH.
Qed.

Lemma strip_join (ss : list text) :
  Forall clean ss → strip (join [LF] ss) = join [LF] ss.
Proof.
  intros Hss. destruct ss as [|p ps]; [done|].
  apply strip_id. by apply join_clean.
Qed.

End SliceJoinFacts.

(** ** The summarizer *)

Section SummarizeFacts.
Variable janome : text → list text.

Lemma StronglySorted_fmap_inv {A B} (f : A → B) (R : relation B) l :
  StronglySorted R (f <$> l) → StronglySorted (λ x y, R (f x) (f y)) l.
Proof.
  induction l as [|x l IH]; csimpl; intros H; [constructor|].
  apply StronglySorted_cons in H as [Hx Hl]. constructor; [by apply IH|].
  by rewrite Forall_fmap in Hx.
Qed.

(** What [summarize] returns: the sentences at some indices [idx], joined
    by line feeds. The indices increase, there are as many as the slice
    leaves, and a sentence that is chosen brings with it every earlier
    sentence that scores as least as high. *)
Lemma summarize_selection t k :
  ∃ idx : list nat,
    summarize janome t k = join [LF] ((λ i, split_sentences t !!! i) <$> idx)
    ∧ StronglySorted lt idx
    ∧ (∀ i, i ∈ idx → i < length (split_sentences t))
    ∧ length idx = min (slice_len k (length (split_sentences t)))
                       (length (split_sentences t))
    ∧ (∀ i j, i < j < length (split_sentences t) →
              (score_of janome t j <= score_of janome t i)%R → j ∈ idx → i ∈ idx).
Proof.
  unfold summarize, score_of.
  pose proof (split_sentences_clean t) as Hclean.
  destruct (split_sentences t) as [|s0 ss] eqn:Es.
  { exists []. split; [done|]. split; [apply SSorted_nil|].
    split; [intros i Hi; by apply elem_of_nil in Hi|].
    split; [simpl; lia|]. intros i j Hij. simpl in Hij. lia. }
  rewrite <- Es in *. set (sents := split_sentences t) in *.
  set (n := length sents). set (m := slice_len k n).
  destruct (decide (count_tokens (tokenize janome t) = ∅)) as [Hempty|Hfreq].
  - (* fallback: head *)
    exists (seq 0 (min m n)).
    rewrite Es; cbv beta iota zeta; rewrite <- Es; fold sents.
    rewrite slice_to_take, take_lookups. fold n m.
    split; [done|]. split; [apply seq_sorted|].
    split; [intros i Hi; apply elem_of_seq in Hi; lia|].
    split; [rewrite length_seq; lia|].
    intros i j Hij _ Hj. apply elem_of_seq in Hj. apply elem_of_seq. lia.
  - rewrite Es; cbv beta iota zeta; rewrite <- Es; fold sents.
    set (f := λ (i : nat) (s : text),
                (i, sentence_score janome (normalized_freq janome t) s)).
    set (scored := imap f sents).
    set (L := sorted_by_float_reverse snd scored).
    set (top := sorted_by_nat fst (slice_to k L)).
    assert (Hfst : fst <$> scored = seq 0 n).
    { unfold scored. rewrite fmap_imap.
      rewrite (imap_ext (λ n, fst ∘ f n) (λ (j : nat) (_ : text), j) sents) by done.
      rewrite (imap_seq_0 sents (λ j, j)). apply list_fmap_id. }
    assert (HLperm : L ≡ₚ scored) by apply stable_sort_perm.
    assert (HLlen : length L = n).
    { rewrite (Permutation_length HLperm). unfold scored. by rewrite length_imap. }
    assert (HT : slice_to k L = take m L).
    { rewrite slice_to_take. by rewrite HLlen. }
    assert (HLsorted : StronglySorted ranks_before L).
    { apply sorted_by_float_reverse_ranked.
      apply (StronglySorted_fmap_inv fst lt). rewrite Hfst. apply seq_sorted. }
    assert (Htop : top ≡ₚ take m L).
    { unfold top. rewrite HT. apply stable_sort_perm. }
    assert (Hscored : ∀ p, p ∈ scored ↔ p.1 < n ∧ p.2 =
              sentence_score janome (normalized_freq janome t) (sents !!! p.1)).
    { intros [i x]. unfold scored. rewrite elem_of_lookup_imap. simpl. split.
      - intros (i' & s & [= -> ->] & Hs). split; [by eapply lookup_lt_Some|].
        by rewrite (list_lookup_total_correct _ _ _ Hs).
      - intros [Hi ->]. exists i, (sents !!! i). split; [done|].
        by apply list_lookup_lookup_total_lt. }
    exists (fst <$> top).
    split; [|split; [|split; [|split]]].
    + to_fmap. rewrite <- list_fmap_compose.
      rewrite strip_join; [done|].
      apply Forall_forall. intros s Hs.
      apply list_elem_of_fmap in Hs as (p & -> & Hp).
      rewrite Htop in Hp. apply subseteq_take in Hp.
      rewrite HLperm in Hp. apply Hscored in Hp as [Hp _].
      rewrite Forall_forall in Hclean. apply Hclean.
      apply list_elem_of_lookup. exists p.1. simpl.
      by apply list_lookup_lookup_total_lt.
    + apply StronglySorted_le_lt.
      * rewrite Htop, fmap_take. eapply sublist_NoDup; [|apply sublist_take].
        rewrite HLperm, Hfst. apply NoDup_seq.
      * eapply StronglySorted_fmap; [|apply (sorted_by_nat_sorted fst)]. done.
    + intros i Hi. apply list_elem_of_fmap in Hi as (p & -> & Hp).
      rewrite Htop in Hp. apply subseteq_take in Hp.
      rewrite HLperm in Hp. by apply Hscored in Hp as [Hp _].
    + rewrite length_fmap, Htop, length_take, HLlen. done.
    + intros i j Hij Hsc Hj.
      apply list_elem_of_fmap in Hj as (q & -> & Hq).
      rewrite Htop in Hq.
      assert (Hq' : q ∈ scored) by (rewrite <- HLperm; by eapply subseteq_take).
      apply Hscored in Hq' as [_ Hq2].
      set (p := (i, sentence_score janome (normalized_freq janome t) (sents !!! i))).
      assert (Hp : p ∈ L).
      { rewrite HLperm. apply Hscored. simpl. split; [lia | done]. }
      rewrite <- (take_drop m L) in Hp, HLsorted.
      apply elem_of_app in Hp as [Hp|Hp].
      * apply list_elem_of_fmap. exists p. split; [done|]. by rewrite Htop.
      * pose proof (StronglySorted_app_1_elem_of _ _ _ _ _ HLsorted Hq Hp) as Hr.
        unfold ranks_before in Hr. simpl in Hr. rewrite Hq2 in Hr.
        destruct Hr as [Hr|[_ Hr]]; [lra | lia].
Qed.

End SummarizeFacts.

(** ** Line boundaries in sentences and summaries *)

Section BreakFacts.

Lemma sent_split_from_no_break s : ∀ st cur,
  Forall no_break cur →
  Forall (λ c, c ≠ LF → no_break c) s →
  Forall (Forall no_break) (sent_split_from st cur s).
Proof.
  induction s as [|c s IH]; intros st cur Hcur Hs.
  - simpl. constructor; [|done]. by apply Forall_reverse.
  - apply Forall_cons in Hs as [Hc Hs].
    assert (Hrev : Forall no_break (reverse cur)) by by apply Forall_reverse.
    assert (Hlf : (c =? LF)%N = false → no_break c).
    { intros E. apply Hc. by apply N.eqb_neq. }
    assert (Hsp : isspace c = false → no_break c).
    { intros E. apply Hc. intros ->. done. }
    destruct st as [after_end| |]; simpl.
    + destruct (after_end && isspace c).
      { constructor; [done|]. by apply IH. }
      destruct (c =? LF)%N eqn:E.
      { constructor; [done|]. by apply IH. }
      apply IH; [|done]. constructor; auto.
    + destruct (isspace c) eqn:E; apply IH; auto.
    + destruct (c =? LF)%N eqn:E; apply IH; auto.
Qed.

Lemma strip_subseteq s : strip s ⊆ s.
Proof.
  unfold strip. intros x Hx.
  destruct (rstrip_prefix (lstrip s)) as [k Hk].
  destruct (lstrip_suffix s) as [k' Hk'].
  rewrite Hk', Hk. apply elem_of_app. right. apply elem_of_app. by left.
Qed.

Lemma strip_no_break s : Forall no_break s → Forall no_break (strip s).
Proof.
  rewrite !Forall_forall. intros H x Hx. by apply H, strip_subseteq.
Qed.

Lemma raw_fragments_no_break t :
  only_lf_breaks t → Forall (Forall no_break) (raw_fragments t).
Proof.
  intros Ht. unfold raw_fragments. to_fmap. apply Forall_fmap.
  assert (H : Forall (Forall no_break) (sent_split t)).
  { apply sent_split_from_no_break; [done|].
    apply Forall_forall. intros c Hc Hne. unfold no_break.
    destruct (is_linebreak c) eqn:E; [|done]. by destruct Hne; apply Ht. }
  rewrite Forall_forall in H |- *. intros s Hs.
  apply list_elem_of_In, filter_In in Hs as [Hs _].
  apply strip_no_break, H. by apply list_elem_of_In.
Qed.

Lemma no_break_merge buf s :
  buf ≠ [] → Forall no_break buf → Forall no_break s →
  Forall no_break (strip (buf ++ py " " ++ s)).
Proof.
  intros _ Hb Hs. apply strip_no_break. apply Forall_app. split; [done|].
  apply Forall_app. split; [|done]. by repeat constructor.
Qed.

Lemma split_sentences_no_break t :
  only_lf_breaks t → Forall (Forall no_break) (split_sentences t).
Proof.
  intros Ht. apply (merge_fragments_inv _ no_break_merge).
  by apply raw_fragments_no_break.
Qed.

Lemma breaks_app s1 s2 : breaks (s1 ++ s2) = breaks s1 + breaks s2.
Proof. unfold breaks. by rewrite List.filter_app, length_app. Qed.

Lemma breaks_no_break s : Forall no_break s → breaks s = 0.
Proof.
  unfold breaks. induction 1 as [|c s Hc _ IH]; simpl; [done|]. by rewrite Hc.
Qed.

Lemma breaks_join (ss : list text) :
  Forall (Forall no_break) ss → breaks (join [LF] ss) = length ss - 1.
Proof.
  induction ss as [|p [|q ps] IH]; intros Hss; [done| |].
  - simpl. inversion Hss; subst. by apply breaks_no_break.
  - rewrite join_cons, !breaks_app. inversion Hss as [|? ? Hp Hss']; subst.
    rewrite (breaks_no_break p Hp), (IH Hss'). simpl. lia.
Qed.

Lemma splitlines_from_length n : ∀ s cur,
  length s ≤ n → length (splitlines_from cur s) ≤ breaks s + 1.
Proof.
  induction n as [|n IH]; intros s cur Hn.
  - destruct s; [|simpl in Hn; lia]. simpl. destruct cur; simpl; lia.
  - destruct s as [|c rest]; [simpl; destruct cur; simpl; lia|].
    simpl in Hn. unfold breaks. simpl.
    destruct (is_linebreak c) eqn:Ec; simpl.
    + destruct (c =? CR)%N.
      * destruct rest as [|d rest']; [simpl; lia|].
        destruct (d =? LF)%N eqn:Ed.
        -- apply N.eqb_eq in Ed as ->. simpl in *.
           pose proof (IH rest' [] ltac:(lia)). unfold breaks in *. lia.
        -- pose proof (IH (d :: rest') [] ltac:(simpl in *; lia)).
           unfold breaks in *. lia.
      * pose proof (IH rest [] ltac:(lia)). unfold breaks in *. lia.
    + pose proof (IH rest (c :: cur) ltac:(lia)). unfold breaks in *. lia.
Qed.

Lemma splitlines_join_length (ss : list text) :
  Forall (Forall no_break) ss → length (splitlines (join [LF] ss)) ≤ length ss.
Proof.
  intros Hss. destruct ss as [|p ps]; [done|].
  unfold splitlines.
  pose proof (splitlines_from_length _ (join [LF] (p :: ps)) [] (le_n _)) as H.
  rewrite breaks_join in H by done. simpl in *. lia.
Qed.

End BreakFacts.

(** ** Claims on the summarizer *)

(** [tokenize] consults the segmenter on Japanese text only. *)
Lemma tokenize_latin (janome1 janome2 : text → list text) t :
  is_probably_japanese t = false → tokenize janome1 t = tokenize janome2 t.
Proof. intros H. unfold tokenize. by rewrite H. Qed.

(** C5, as the code has it.  When the line feed is the only line boundary
    the text holds, the summary for a count [k > 0] has at most [k] lines
    and at most as many lines as the text has sentences. *)
Theorem summarize_line_bound (janome : text → list text) (t : text) (k : Z) :
  (0 < k)%Z →
  only_lf_breaks t →
  length (splitlines (summarize janome t k)) ≤ Z.to_nat k
  ∧ length (splitlines (summarize janome t k)) ≤ length (split_sentences t).
Proof.
  intros Hk Ht.
  destruct (summarize_selection janome t k) as (idx & -> & _ & Hidx & Hlen & _).
  assert (Hss : Forall (Forall no_break) ((λ i, split_sentences t !!! i) <$> idx)).
  { apply Forall_fmap, Forall_forall. intros i Hi. simpl.
    pose proof (split_sentences_no_break t Ht) as H.
    rewrite Forall_forall in H. apply H, list_elem_of_lookup. exists i.
    apply list_lookup_lookup_total_lt. by apply Hidx. }
  pose proof (splitlines_join_length _ Hss) as H.
  rewrite length_fmap, Hlen in H. unfold slice_len in H.
  assert ((k <? 0)%Z = false) as E by lia. rewrite E in H. lia.
Qed.

Lemma summarize_line_bound_witness :
  length (splitlines (summarize no_segmenter (py "It is." ++ [LF] ++ py "We are.") 1))
    ≤ Z.to_nat 1
  ∧ length (splitlines (summarize no_segmenter (py "It is." ++ [LF] ++ py "We are.") 1))
    ≤ length (split_sentences (py "It is." ++ [LF] ++ py "We are.")).
Proof.
  apply (summarize_line_bound no_segmenter (py "It is." ++ [LF] ++ py "We are.") 1).
  - lia.
  - intros c Hc Hb. vm_compute in Hc.
    repeat (apply elem_of_cons in Hc as [->|Hc]; [first [done | discriminate Hb]|]).
    by apply elem_of_nil in Hc.
Defined.

(** C5, as stated, fails: a form feed inside a sentence is a line boundary
    for [splitlines] but no sentence boundary for [split_sentences].  The
    text [a\x0cb] is one sentence; its summary for [k = 1] has two lines. *)
Lemma summarize_line_bound_counterexample :
  length (split_sentences (py "a" ++ [12%N] ++ py "b")) = 1
  ∧ summarize no_segmenter (py "a" ++ [12%N] ++ py "b") 1 = py "a" ++ [12%N] ++ py "b"
  ∧ splitlines (summarize no_segmenter (py "a" ++ [12%N] ++ py "b") 1) = [py "a"; py "b"].
Proof. vm_compute. done. Qed.

Section FloatingFacts.
Variable A : Floating.Arith.
Variable P : Floating.num A → Prop.
Hypothesis order : strict_weak_on (Floating.ltb A) P.

Lemma insert_ranked_by x l :
  P x.2 → Forall (λ y, P y.2) l →
  Forall (λ y, x.1 < y.1) l →
  StronglySorted (ranks_before_by A) l →
  StronglySorted (ranks_before_by A)
    (insert_sorted (λ y x, Floating.ltb A x.2 y.2) x l).
Proof.
  destruct order as [Hasym Hneg]. intros HPx.
  induction l as [|y l IH]; simpl; intros HPl Hx Hl.
  - repeat constructor.
  - apply Forall_cons in Hx as [Hxy Hx].
    apply Forall_cons in HPl as [HPy HPl].
    apply StronglySorted_cons in Hl as [Hy Hl].
    destruct (Floating.ltb A x.2 y.2) eqn:E.
    + apply StronglySorted_cons. split; [|by apply IH].
      apply Forall_forall. intros z Hz.
      rewrite insert_sorted_perm in Hz. apply elem_of_cons in Hz as [->|Hz].
      * by left.
      * rewrite Forall_forall in Hy. by apply Hy.
    + apply StronglySorted_cons. split; [|by apply StronglySorted_cons].
      constructor; [by right|].
      rewrite Forall_forall in Hy, Hx, HPl |- *. intros z Hz.
      specialize (Hy z Hz). specialize (Hx z Hz). specialize (HPl z Hz).
      right. split; [|done].
      destruct Hy as [Hzy|[Hyz _]]; [|by apply (Hneg _ y.2)].
      destruct (Floating.ltb A x.2 z.2) eqn:Exz; [|done].
      (* z < y and x < z, while not x < y *)
      assert (Floating.ltb A y.2 z.2 = false) as Hyz by by apply Hasym.
      by rewrite (Hneg _ _ _ HPx HPy HPl E Hyz) in Exz.
Qed.

Lemma sorted_reverse_ranked (l : list (nat * Floating.num A)) :
  Forall (λ y, P y.2) l →
  StronglySorted (λ x y, x.1 < y.1) l →
  StronglySorted (ranks_before_by A) (Floating.sorted_reverse A snd l).
Proof.
  unfold Floating.sorted_reverse.
  induction l as [|x l IH]; simpl; intros HP Hl; [constructor|].
  apply StronglySorted_cons in Hl as [Hx Hl].
  apply Forall_cons in HP as [HPx HP].
  apply insert_ranked_by; [done| | |by apply IH].
  - rewrite Forall_forall in HP |- *. intros y Hy. apply HP.
    by rewrite stable_sort_perm in Hy.
  - rewrite Forall_forall in Hx |- *. intros y Hy. apply Hx.
    by rewrite stable_sort_perm in Hy.
Qed.

End FloatingFacts.

Section FloatingSelection.
Variable A : Floating.Arith.
Variable janome : text → list text.
Variable t : text.
Hypothesis order : strict_weak_on (Floating.ltb A) (is_score A janome t).

(** What [summarize] returns over the arithmetic [A]: the sentences at
    some indices [idx], joined by line feeds.  The indices increase, there
    are as many as the slice leaves, and a sentence that is chosen brings
    with it every earlier sentence whose score is not below its own. *)
Lemma summarize_float_selection k :
  ∃ idx : list nat,
    Floating.summarize A janome t k
    = join [LF] ((λ i, split_sentences t !!! i) <$> idx)
    ∧ StronglySorted lt idx
    ∧ (∀ i, i ∈ idx → i < length (split_sentences t))
    ∧ length idx = min (slice_len k (length (split_sentences t)))
                       (length (split_sentences t))
    ∧ (∀ i j, i < j < length (split_sentences t) →
              Floating.ltb A (float_score A janome t i) (float_score A janome t j)
              = false →
              j ∈ idx → i ∈ idx)
    ∧ (count_tokens (tokenize janome t) ≠ ∅ →
       ∀ i j, i < length (split_sentences t) →
              Floating.ltb A (float_score A janome t j) (float_score A janome t i)
              = true →
              j ∈ idx → i ∈ idx).
Proof.
  destruct order as [Hasym _]. revert Hasym.
  unfold is_score, Floating.summarize, float_score. intros Hasym.
  pose proof (split_sentences_clean t) as Hclean.
  destruct (split_sentences t) as [|s0 ss] eqn:Es.
  { exists []. split; [done|]. split; [apply SSorted_nil|].
    split; [intros i Hi; by apply elem_of_nil in Hi|].
    split; [simpl; lia|]. split; [intros i j Hij; simpl in Hij; lia|].
    intros _ i j Hi. simpl in Hi. lia. }
  rewrite <- Es in *. set (sents := split_sentences t) in *.
  set (n := length sents). set (m := slice_len k n).
  destruct (decide (count_tokens (tokenize janome t) = ∅)) as [Hempty|Hfreq].
  - (* fallback: head *)
    exists (seq 0 (min m n)).
    rewrite Es; cbv beta iota zeta; rewrite <- Es; fold sents.
    rewrite slice_to_take, take_lookups. fold n m.
    split; [done|]. split; [apply seq_sorted|].
    split; [intros i Hi; apply elem_of_seq in Hi; lia|].
    split; [rewrite length_seq; lia|].
    split; [|done].
    intros i j Hij _ Hj. apply elem_of_seq in Hj. apply elem_of_seq. lia.
  - rewrite Es; cbv beta iota zeta; rewrite <- Es; fold sents.
    set (f := λ (i : nat) (s : text),
                (i, Floating.sentence_score A janome
                      (Floating.normalized_freq A janome t) s)).
    set (scored := imap f sents).
    set (L := Floating.sorted_reverse A snd scored).
    set (top := sorted_by_nat fst (slice_to k L)).
    assert (Hfst : fst <$> scored = seq 0 n).
    { unfold scored. rewrite fmap_imap.
      rewrite (imap_ext (λ n, fst ∘ f n) (λ (j : nat) (_ : text), j) sents) by done.
      rewrite (imap_seq_0 sents (λ j, j)). apply list_fmap_id. }
    assert (HLperm : L ≡ₚ scored) by apply stable_sort_perm.
    assert (HLlen : length L = n).
    { rewrite (Permutation_length HLperm). unfold scored. by rewrite length_imap. }
    assert (HT : slice_to k L = take m L).
    { rewrite slice_to_take. by rewrite HLlen. }
    assert (Htop : top ≡ₚ take m L).
    { unfold top. rewrite HT. apply stable_sort_perm. }
    assert (Hscored : ∀ p, p ∈ scored ↔ p.1 < n ∧ p.2 =
              Floating.sentence_score A janome
                (Floating.normalized_freq A janome t) (sents !!! p.1)).
    { intros [i x]. unfold scored. rewrite elem_of_lookup_imap. simpl. split.
      - intros (i' & s & [= -> ->] & Hs). split; [by eapply lookup_lt_Some|].
        by rewrite (list_lookup_total_correct _ _ _ Hs).
      - intros [Hi ->]. exists i, (sents !!! i). split; [done|].
        by apply list_lookup_lookup_total_lt. }
    assert (HLsorted : StronglySorted (ranks_before_by A) L).
    { apply (sorted_reverse_ranked A (is_score A janome t) order).
      - apply Forall_forall. intros p Hp. apply Hscored in Hp as [Hp1 Hp2].
        exists p.1. split; [done|]. exact Hp2.
      - apply (StronglySorted_fmap_inv fst lt). rewrite Hfst. apply seq_sorted. }
    exists (fst <$> top).
    split; [|split; [|split; [|split; [|split]]]].
    + to_fmap. rewrite <- list_fmap_compose.
      rewrite strip_join; [done|].
      apply Forall_forall. intros s Hs.
      apply list_elem_of_fmap in Hs as (p & -> & Hp).
      rewrite Htop in Hp. apply subseteq_take in Hp.
      rewrite HLperm in Hp. apply Hscored in Hp as [Hp _].
      rewrite Forall_forall in Hclean. apply Hclean.
      apply list_elem_of_lookup. exists p.1. simpl.
      by apply list_lookup_lookup_total_lt.
    + apply StronglySorted_le_lt.
      * rewrite Htop, fmap_take. eapply sublist_NoDup; [|apply sublist_take].
        rewrite HLperm, Hfst. apply NoDup_seq.
      * eapply StronglySorted_fmap; [|apply (sorted_by_nat_sorted fst)]. done.
    + intros i Hi. apply list_elem_of_fmap in Hi as (p & -> & Hp).
      rewrite Htop in Hp. apply subseteq_take in Hp.
      rewrite HLperm in Hp. by apply Hscored in Hp as [Hp _].
    + rewrite length_fmap, Htop, length_take, HLlen. done.
    + intros i j Hij Hsc Hj.
      apply list_elem_of_fmap in Hj as (q & -> & Hq).
      rewrite Htop in Hq.
      assert (Hq' : q ∈ scored) by (rewrite <- HLperm; by eapply subseteq_take).
      apply Hscored in Hq' as [_ Hq2].
      set (p := (i, Floating.sentence_score A janome
                      (Floating.normalized_freq A janome t) (sents !!! i))).
      assert (Hp : p ∈ L).
      { rewrite HLperm. apply Hscored. simpl. split; [lia | done]. }
      rewrite <- (take_drop m L) in Hp, HLsorted.
      apply elem_of_app in Hp as [Hp|Hp].
      * apply list_elem_of_fmap. exists p. split; [done|]. by rewrite Htop.
      * pose proof (StronglySorted_app_1_elem_of _ _ _ _ _ HLsorted Hq Hp) as Hr.
        unfold ranks_before_by in Hr. simpl in Hr. rewrite Hq2 in Hr.
        destruct Hr as [Hr|[_ Hr]]; [congruence | lia].
    + intros _ i j Hi Hsc Hj.
      apply list_elem_of_fmap in Hj as (q & -> & Hq).
      rewrite Htop in Hq.
      assert (Hq' : q ∈ scored) by (rewrite <- HLperm; by eapply subseteq_take).
      apply Hscored in Hq' as [Hq1 Hq2].
      set (p := (i, Floating.sentence_score A janome
                      (Floating.normalized_freq A janome t) (sents !!! i))).
      assert (Hp : p ∈ L).
      { rewrite HLperm. apply Hscored. simpl. split; [done | done]. }
      rewrite <- (take_drop m L) in Hp, HLsorted.
      apply elem_of_app in Hp as [Hp|Hp].
      * apply list_elem_of_fmap. exists p. split; [done|]. by rewrite Htop.
      * exfalso.
        pose proof (StronglySorted_app_1_elem_of _ _ _ _ _ HLsorted Hq Hp) as Hr.
        unfold ranks_before_by in Hr. simpl in Hr. rewrite Hq2 in Hr.
        destruct Hr as [Hr|[Hr _]]; [|congruence].
        rewrite (Hasym _ _) in Hr; [done| | |exact Hsc].
        -- exists q.1. split; [exact Hq1 | done].
        -- exists i. split; [exact Hi | done].
Qed.

End FloatingSelection.

(** [summarize] over the real numbers is [summarize] as embedded above. *)
Lemma summarize_real (janome : text → list text) (t : text) (k : Z) :
  Floating.summarize Floating.real janome t k = summarize janome t k.
Proof.
  assert (Hsum : ∀ l a, foldl Rplus a l = (a + Rsum l)%R).
  { induction l as [|x l IH]; intros a; simpl; [lra|]. rewrite IH. lra. }
  assert (Hscore : ∀ freq s,
    Floating.sentence_score Floating.real janome freq s = sentence_score janome freq s).
  { intros freq s. unfold Floating.sentence_score, sentence_score.
    destruct (tokenize janome s) as [|x toks]; [done|].
    unfold Floating.sum. cbn [Floating.add Floating.zero Floating.real Floating.div
      Floating.one Floating.log]. by rewrite Hsum, Rplus_0_l. }
  unfold Floating.summarize, summarize.
  destruct (split_sentences t) as [|s0 ss]; [done|].
  destruct (decide _) as [|_]; [done|].
  f_equal. f_equal. f_equal. f_equal. f_equal.
  change (Floating.sorted_reverse Floating.real (B:=nat * R) snd)
    with (sorted_by_float_reverse (A:=nat * R) snd).
  f_equal. apply imap_ext. intros i s _. simpl. f_equal. apply Hscore.
Qed.




(** ** Vectors of weights *)

Section VectorFacts.
Local Open Scope R_scope.

Lemma Rsum_zero (l : list R) : Forall (λ x, x = 0) l → Rsum l = 0.
Proof. induction 1 as [|x l -> _ IH]; simpl; [done|]. rewrite IH. lra. Qed.

Lemma Rsum_nonneg (l : list R) : Forall (λ x, 0 <= x) l → 0 <= Rsum l.
Proof. induction 1 as [|x l Hx _ IH]; simpl; lra. Qed.

Lemma dot_comm (u v : list R) : dot u v = dot v u.
Proof.
  unfold dot. revert v. induction u as [|x u IH]; intros [|y v]; simpl; try done.
  rewrite IH. lra.
Qed.

Lemma dot_nonneg (u v : list R) :
  Forall (λ x, 0 <= x) u → Forall (λ x, 0 <= x) v → 0 <= dot u v.
Proof.
  unfold dot. intros Hu. revert v. induction Hu as [|x u Hx _ IH]; intros v Hv.
  - simpl. lra.
  - destruct Hv as [|y v Hy Hv]; simpl; [lra|]. specialize (IH v Hv). nra.
Qed.

Lemma dot_self_nonneg (u : list R) : 0 <= dot u u.
Proof. unfold dot. induction u as [|x u IH]; simpl; [lra | nra]. Qed.

(** Twice a product is at most the sum of the squares. *)
Lemma dot_le_squares (u v : list R) : 2 * dot u v <= dot u u + dot v v.
Proof.
  revert v. induction u as [|x u IH]; intros v.
  - unfold dot at 1 2. simpl. pose proof (dot_self_nonneg v). lra.
  - destruct v as [|y v].
    + unfold dot at 1 3. simpl. pose proof (dot_self_nonneg (x :: u)). lra.
    + specialize (IH v). unfold dot in *. simpl.
      pose proof (Rle_0_sqr (x - y)) as Hsq. unfold Rsqr in Hsq.
      set (a := Rsum (zip_with Rmult u v)) in *.
      set (b := Rsum (zip_with Rmult u u)) in *.
      set (c := Rsum (zip_with Rmult v v)) in *. nra.
Qed.

Lemma dot_fmap {A} (f g : A → R) (l : list A) :
  dot (f <$> l) (g <$> l) = Rsum ((λ t, f t * g t) <$> l).
Proof. unfold dot. induction l as [|t l IH]; csimpl; [done|]. by rewrite IH. Qed.

Lemma dot_scale (u : list R) (d : R) :
  d ≠ 0 → dot ((λ x, x / d) <$> u) ((λ x, x / d) <$> u) = dot u u / (d * d).
Proof.
  intros Hd. unfold dot. induction u as [|x u IH]; csimpl; [lra|].
  rewrite IH. field. done.
Qed.

Lemma l2_normalize_eq row : l2_normalize row = (λ x, x / l2_divisor row) <$> row.
Proof. done. Qed.

Lemma l2_divisor_pos row : 0 < l2_divisor row.
Proof.
  unfold l2_divisor. destruct (decide _) as [|Hne]; [lra|].
  pose proof (sqrt_pos (dot row row)). lra.
Qed.

(** A normalised row has norm 1, or is the zero row it was. *)
Lemma dot_l2_normalize row :
  dot (l2_normalize row) (l2_normalize row) = if decide (dot row row = 0) then 0 else 1.
Proof.
  rewrite l2_normalize_eq, dot_scale by (pose proof (l2_divisor_pos row); lra).
  unfold l2_divisor. pose proof (dot_self_nonneg row) as Hnn.
  destruct (decide (dot row row = 0)) as [E|E].
  - rewrite E, sqrt_0. rewrite decide_True by done. lra.
  - assert (Hs : sqrt (dot row row) ≠ 0).
    { intros H. apply sqrt_eq_0 in H; [done | lra]. }
    rewrite decide_False by done. rewrite sqrt_sqrt by done. by field.
Qed.

Lemma l2_normalize_idem row : l2_normalize (l2_normalize row) = l2_normalize row.
Proof.
  rewrite (l2_normalize_eq (l2_normalize row)).
  assert (l2_divisor (l2_normalize row) = 1) as ->.
  { unfold l2_divisor. rewrite dot_l2_normalize.
    destruct (decide (dot row row = 0)).
    - rewrite sqrt_0. by rewrite decide_True.
    - rewrite sqrt_1. by destruct (decide (1 = 0)). }
  rewrite <- (list_fmap_id (l2_normalize row)) at 2.
  apply list_fmap_ext. intros _ x _. simpl. lra.
Qed.

Lemma l2_normalize_nonneg row :
  Forall (λ x, 0 <= x) row → Forall (λ x, 0 <= x) (l2_normalize row).
Proof.
  intros H. rewrite l2_normalize_eq. apply Forall_fmap.
  eapply Forall_impl; [exact H|]. intros x Hx. simpl.
  pose proof (l2_divisor_pos row) as Hd. unfold Rdiv.
  apply Rmult_le_pos; [done|]. by apply Rlt_le, Rinv_0_lt_compat.
Qed.

End VectorFacts.

(** ** The fitted vocabulary and the weights *)

Section TfidfFacts.
Variable tokenizer : text → list text.
Variables min_df max_df_num max_df_den : nat.

Lemma filter_elem {A} (f : A → bool) (l : list A) x :
  x ∈ List.filter f l ↔ x ∈ l ∧ f x = true.
Proof. rewrite !list_elem_of_In. apply filter_In. Qed.

Lemma filter_all_false {A} (f : A → bool) (l : list A) :
  (∀ x, x ∈ l → f x = false) → List.filter f l = [].
Proof.
  intros H. destruct (List.filter f l) as [|x k] eqn:E; [done|].
  assert (Hx : x ∈ List.filter f l) by (rewrite E; apply list_elem_of_here).
  apply filter_elem in Hx as [Hx1 Hx2]. rewrite (H x Hx1) in Hx2. done.
Qed.

Lemma filter_sublist {A} (f : A → bool) (l : list A) :
  List.filter f l `sublist_of` l.
Proof.
  induction l as [|x l IH]; simpl; [done|].
  destruct (f x); [by apply sublist_skip | by apply sublist_cons].
Qed.

Lemma full_vocabulary_elem docs t :
  t ∈ full_vocabulary tokenizer docs ↔ ∃ doc, doc ∈ docs ∧ t ∈ analyze tokenizer doc.
Proof.
  unfold full_vocabulary. rewrite stable_sort_elem, elem_of_remove_dups.
  rewrite list_elem_of_In, in_concat. split.
  - intros (f & Hf & Ht). apply in_map_iff in Hf as (doc & <- & Hdoc).
    exists doc. by rewrite !list_elem_of_In.
  - intros (doc & Hdoc & Ht). exists (analyze tokenizer doc).
    split; [|by apply list_elem_of_In]. apply in_map. by apply list_elem_of_In.
Qed.

Lemma full_vocabulary_NoDup docs : NoDup (full_vocabulary tokenizer docs).
Proof.
  unfold full_vocabulary. rewrite stable_sort_perm. apply NoDup_remove_dups.
Qed.

Lemma fit_vocabulary_eq docs :
  fit_vocabulary tokenizer min_df max_df_num max_df_den docs =
  match full_vocabulary tokenizer docs with
  | [] => inl EmptyVocabulary
  | _ =>
      if max_df_num * length docs <? min_df * max_df_den then inl MaxDfBelowMinDf
      else match List.filter (keeps tokenizer min_df max_df_num max_df_den docs) (full_vocabulary tokenizer docs) with
           | [] => inl NoTermsRemain
           | kept => inr kept
           end
  end.
Proof.
  unfold fit_vocabulary, full_vocabulary, keeps.
  destruct (stable_sort _ _); [done|]. destruct (_ <? _); [done|].
  by destruct (List.filter _ _).
Qed.

Lemma fit_vocabulary_inr docs kept :
  fit_vocabulary tokenizer min_df max_df_num max_df_den docs = inr kept →
  kept = List.filter (keeps tokenizer min_df max_df_num max_df_den docs) (full_vocabulary tokenizer docs) ∧ kept ≠ [] ∧ NoDup kept.
Proof.
  rewrite fit_vocabulary_eq. destruct (full_vocabulary tokenizer docs) eqn:Ev; [done|].
  destruct (_ <? _); [done|].
  destruct (List.filter _ _) eqn:Ef; [done|]. intros [= <-].
  split; [done|]. split; [done|]. rewrite <- Ef.
  eapply sublist_NoDup; [|apply filter_sublist]. rewrite <- Ev.
  apply full_vocabulary_NoDup.
Qed.

Lemma count_term_absent t feats : t ∉ feats → count_term t feats = 0.
Proof.
  intros H. unfold count_term. rewrite filter_all_false; [done|].
  intros u Hu. apply bool_decide_eq_false. by intros ->.
Qed.

Lemma count_term_present t feats : t ∈ feats → 0 < count_term t feats.
Proof.
  intros H. unfold count_term.
  destruct (List.filter _ feats) as [|x k] eqn:E; [|simpl; lia].
  assert (Ht : t ∈ List.filter (λ u, bool_decide (u = t)) feats).
  { apply filter_elem. split; [done|]. by apply bool_decide_eq_true. }
  rewrite E in Ht. by apply elem_of_nil in Ht.
Qed.

Lemma filter_length_le {A} (f : A → bool) (l : list A) :
  length (List.filter f l) ≤ length l.
Proof. induction l as [|x l IH]; simpl; [done|]. destruct (f x); simpl; lia. Qed.

Lemma doc_freq_le all_feats t : doc_freq all_feats t ≤ length all_feats.
Proof. apply filter_length_le. Qed.

Lemma idf_ge_1 n df : df ≤ n → (1 <= idf n df)%R.
Proof.
  intros H. unfold idf.
  assert (0 < INR (1 + df))%R by (apply lt_0_INR; lia).
  assert (INR (1 + df) <= INR (1 + n))%R by (apply le_INR; lia).
  assert (1 <= INR (1 + n) / INR (1 + df))%R.
  { apply (Rmult_le_reg_r (INR (1 + df))); [done|]. field_simplify; lra. }
  destruct (Req_dec (INR (1 + n) / INR (1 + df)) 1) as [->|Hne].
  - rewrite ln_1. lra.
  - pose proof (ln_increasing 1 (INR (1 + n) / INR (1 + df))) as Hln.
    rewrite ln_1 in Hln. lra.
Qed.

Lemma raw_weight_nonneg all_feats feats t : (0 <= raw_weight all_feats feats t)%R.
Proof.
  unfold raw_weight. pose proof (idf_ge_1 _ _ (doc_freq_le all_feats t)).
  pose proof (pos_INR (count_term t feats)). nra.
Qed.

Lemma raw_weight_absent all_feats feats t :
  t ∉ feats → raw_weight all_feats feats t = 0%R.
Proof. intros H. unfold raw_weight. rewrite count_term_absent by done. simpl. lra. Qed.

Lemma raw_weight_present all_feats feats t :
  t ∈ feats → (0 < raw_weight all_feats feats t)%R.
Proof.
  intros H. unfold raw_weight. pose proof (idf_ge_1 _ _ (doc_freq_le all_feats t)).
  assert (0 < INR (count_term t feats))%R by by apply lt_0_INR, count_term_present.
  nra.
Qed.

Lemma tfidf_row_eq all_feats vocabulary feats :
  tfidf_row all_feats vocabulary feats
  = weight all_feats vocabulary feats <$> vocabulary.
Proof.
  unfold tfidf_row. to_fmap. rewrite l2_normalize_eq.
  by rewrite <- list_fmap_compose.
Qed.

Lemma tfidf_row_normalized all_feats vocabulary feats :
  l2_normalize (tfidf_row all_feats vocabulary feats)
  = tfidf_row all_feats vocabulary feats.
Proof. unfold tfidf_row. apply l2_normalize_idem. Qed.

Lemma weight_nonneg all_feats vocabulary feats t :
  (0 <= weight all_feats vocabulary feats t)%R.
Proof.
  unfold weight. pose proof (raw_weight_nonneg all_feats feats t).
  pose proof (l2_divisor_pos (raw_weight all_feats feats <$> vocabulary)).
  unfold Rdiv. apply Rmult_le_pos; [done|]. by apply Rlt_le, Rinv_0_lt_compat.
Qed.

Lemma weight_absent all_feats vocabulary feats t :
  t ∉ feats → weight all_feats vocabulary feats t = 0%R.
Proof.
  intros H. unfold weight. rewrite raw_weight_absent by done.
  unfold Rdiv. apply Rmult_0_l.
Qed.

Lemma weight_present all_feats vocabulary feats t :
  t ∈ feats → (0 < weight all_feats vocabulary feats t)%R.
Proof.
  intros H. unfold weight. pose proof (raw_weight_present all_feats feats t H).
  pose proof (l2_divisor_pos (raw_weight all_feats feats <$> vocabulary)).
  unfold Rdiv. apply Rmult_lt_0_compat; [done|]. by apply Rinv_0_lt_compat.
Qed.

End TfidfFacts.

(** ** Comparing two texts *)

Section CompareFacts.
Variable janome : text → list text.

Lemma fmap_lookup_total_R {A} `{!Inhabited A} (g : A → R) (l : list A) i :
  (g <$> l) !!! i = if decide (i < length l) then g (l !!! i) else 0%R.
Proof.
  rewrite list_lookup_total_alt, list_lookup_fmap.
  destruct (decide (i < length l)) as [Hi|Hi].
  - by rewrite (list_lookup_lookup_total_lt l i Hi).
  - rewrite (lookup_ge_None_2 l i) by lia. done.
Qed.

Lemma ranked_terms_elem names (g : text → R) k term w :
  (term, w) ∈ ranked_terms names (g <$> names) k →
  term ∈ names ∧ w = g term ∧ (0 < g term)%R.
Proof.
  unfold ranked_terms. to_fmap. intros H.
  apply list_elem_of_fmap in H as (i & [= -> ->] & Hi).
  apply filter_elem in Hi as [_ Hi]. apply bool_decide_eq_true in Hi.
  rewrite fmap_lookup_total_R in Hi |- *.
  destruct (decide (i < length names)) as [Hlt|]; [|lra].
  split; [|done]. apply list_elem_of_lookup. exists i.
  by apply list_lookup_lookup_total_lt.
Qed.

Lemma ranked_terms_nil names (g : text → R) k :
  (∀ t, t ∈ names → (g t <= 0)%R) → ranked_terms names (g <$> names) k = [].
Proof.
  intros H. destruct (ranked_terms names (g <$> names) k) as [|[term w] l] eqn:E; [done|].
  assert (Hin : (term, w) ∈ ranked_terms names (g <$> names) k).
  { rewrite E. apply list_elem_of_here. }
  apply ranked_terms_elem in Hin as (Ht & _ & Hpos). specialize (H term Ht). lra.
Qed.

Lemma zip_with_fmap_same {A B} (h : B → B → B) (f g : A → B) (l : list A) :
  zip_with h (f <$> l) (g <$> l) = (λ t, h (f t) (g t)) <$> l.
Proof. induction l as [|x l IH]; csimpl; [done|]. by rewrite IH. Qed.

(** What [compare_texts] computes, with the indexing of the two rows done. *)
Lemma compare_texts_eq t1 t2 k :
  compare_texts janome t1 t2 k =
  match fit_vocabulary (tokenize janome) 1 95 100 [t1; t2] with
  | inl e => inl e
  | inr names =>
      let all_feats := [analyze (tokenize janome) t1; analyze (tokenize janome) t2] in
      let w1 := weight all_feats names (analyze (tokenize janome) t1) in
      let w2 := weight all_feats names (analyze (tokenize janome) t2) in
      inr {| similarity := Rsum ((λ t, w1 t * w2 t)%R <$> names);
             common_terms := ranked_terms names ((λ t, Rmin (w1 t) (w2 t)) <$> names) k;
             doc1_unique_terms :=
               ranked_terms names ((λ t, Rmax (w1 t - w2 t) 0) <$> names) k;
             doc2_unique_terms :=
               ranked_terms names ((λ t, Rmax (w2 t - w1 t) 0) <$> names) k |}
  end.
Proof.
  unfold compare_texts, vectorize, fit_transform.
  destruct (fit_vocabulary _ _ _ _ _) as [e|names]; [done|].
  cbv zeta. unfold minimum, maximum_diff_0.
  set (all_feats := map (analyze (tokenize janome)) [t1; t2]).
  set (v1 := tfidf_row all_feats names (analyze (tokenize janome) t1)).
  set (v2 := tfidf_row all_feats names (analyze (tokenize janome) t2)).
  change (map (tfidf_row all_feats names) all_feats) with [v1; v2].
  change ([v1; v2] !!! 0) with v1. change ([v1; v2] !!! 1) with v2.
  change ((cosine_similarity [v1] [v2] !!! 0) !!! 0)
    with (dot (l2_normalize v1) (l2_normalize v2)).
  unfold v1, v2.
  rewrite !tfidf_row_normalized, !tfidf_row_eq, dot_fmap, !zip_with_fmap_same.
  done.
Qed.

(** With two documents, pruning at 0.95 keeps the terms of one document
    only: a term of both has document frequency 2 > 1.9. *)
Lemma kept_in_one_text t1 t2 names t :
  fit_vocabulary (tokenize janome) 1 95 100 [t1; t2] = inr names →
  t ∈ names →
  ((t ∈ analyze (tokenize janome) t1) ∧ (t ∉ analyze (tokenize janome) t2))
  ∨ ((t ∉ analyze (tokenize janome) t1) ∧ (t ∈ analyze (tokenize janome) t2)).
Proof.
  intros Hfit Ht. apply fit_vocabulary_inr in Hfit as (-> & _ & _).
  apply filter_elem in Ht as [_ Hk]. unfold keeps in Hk.
  apply andb_prop in Hk as [H1 H2].
  apply Nat.leb_le in H1. apply Nat.leb_le in H2.
  unfold doc_freq in H1, H2. cbn [map List.filter] in H1, H2.
  destruct (bool_decide (t ∈ analyze (tokenize janome) t1)) eqn:E1;
    destruct (bool_decide (t ∈ analyze (tokenize janome) t2)) eqn:E2;
    simpl in H1, H2; try lia.
  - left. apply bool_decide_eq_true in E1. apply bool_decide_eq_false in E2. done.
  - right. apply bool_decide_eq_false in E1. apply bool_decide_eq_true in E2. done.
Qed.

(** Every comparison that returns: similarity 0, no common term, and the
    terms of each unique list are terms of that text alone. *)
Lemma compare_texts_inr t1 t2 k r :
  compare_texts janome t1 t2 k = inr r →
  similarity r = 0%R
  ∧ common_terms r = []
  ∧ (∀ term w, (term, w) ∈ doc1_unique_terms r →
       (term ∈ analyze (tokenize janome) t1) ∧ (term ∉ analyze (tokenize janome) t2))
  ∧ (∀ term w, (term, w) ∈ doc2_unique_terms r →
       (term ∉ analyze (tokenize janome) t1) ∧ (term ∈ analyze (tokenize janome) t2)).
Proof.
  rewrite compare_texts_eq.
  destruct (fit_vocabulary _ _ _ _ _) as [e|names] eqn:Hfit; [done|].
  cbv zeta. intros [= <-]. cbn [similarity common_terms doc1_unique_terms doc2_unique_terms].
  set (all_feats := [analyze (tokenize janome) t1; analyze (tokenize janome) t2]).
  set (w1 := weight all_feats names (analyze (tokenize janome) t1)).
  set (w2 := weight all_feats names (analyze (tokenize janome) t2)).
  assert (Hone : ∀ t, t ∈ names →
            (w2 t = 0 ∧ 0 < w1 t ∧ (t ∈ analyze (tokenize janome) t1)
                      ∧ (t ∉ analyze (tokenize janome) t2))%R
            ∨ (w1 t = 0 ∧ 0 < w2 t ∧ (t ∉ analyze (tokenize janome) t1)
                        ∧ (t ∈ analyze (tokenize janome) t2))%R).
  { intros t Ht. destruct (kept_in_one_text t1 t2 names t Hfit Ht) as [[Hin Hout]|[Hout Hin]].
    - left. unfold w1, w2. rewrite weight_absent by done.
      split; [done|]. split; [by apply weight_present | done].
    - right. unfold w1, w2. rewrite weight_absent by done.
      split; [done|]. split; [by apply weight_present | done]. }
  split; [|split; [|split]].
  - apply Rsum_zero, Forall_fmap, Forall_forall. intros t Ht. simpl.
    destruct (Hone t Ht) as [(-> & _)|(-> & _)]; lra.
  - apply ranked_terms_nil. intros t Ht.
    destruct (Hone t Ht) as [(-> & H & _)|(-> & H & _)].
    + rewrite Rmin_right; lra.
    + rewrite Rmin_left; lra.
  - intros term w H. apply ranked_terms_elem in H as (Ht & _ & Hpos).
    destruct (Hone term Ht) as [(_ & _ & ? & ?)|(E1 & H2 & _)]; [done|].
    rewrite E1 in Hpos. rewrite Rmax_right in Hpos; lra.
  - intros term w H. apply ranked_terms_elem in H as (Ht & _ & Hpos).
    destruct (Hone term Ht) as [(E2 & H1 & _)|(_ & _ & ? & ?)]; [|done].
    rewrite E2 in Hpos. rewrite Rmax_right in Hpos; lra.
Qed.

End CompareFacts.

(** ** Claims on the comparison *)

Section CompareClaims.
Variable janome : text → list text.

Lemma full_vocabulary_pair_nil t1 t2 :
  full_vocabulary (tokenize janome) [t1; t2] = [] ↔
  tokenize janome t1 = [] ∧ tokenize janome t2 = [].
Proof.
  split.
  - intros E. split.
    + destruct (tokenize janome t1) as [|x l] eqn:E1; [done|].
      assert (H : x ∈ full_vocabulary (tokenize janome) [t1; t2]).
      { apply full_vocabulary_elem. exists t1. split; [apply list_elem_of_here|].
        unfold analyze. rewrite E1. apply list_elem_of_here. }
      rewrite E in H. by apply elem_of_nil in H.
    + destruct (tokenize janome t2) as [|x l] eqn:E2; [done|].
      assert (H : x ∈ full_vocabulary (tokenize janome) [t1; t2]).
      { apply full_vocabulary_elem. exists t2.
        split; [apply list_elem_of_further, list_elem_of_here|].
        unfold analyze. rewrite E2. apply list_elem_of_here. }
      rewrite E in H. by apply elem_of_nil in H.
  - intros [E1 E2]. unfold full_vocabulary, analyze. simpl. by rewrite E1, E2.
Qed.

(** The similarity of a comparison that returns is within bounds (it is 0). *)
Lemma compare_similarity_bounds t1 t2 k r :
  compare_texts janome t1 t2 k = inr r → (0 <= similarity r <= 1)%R.
Proof. intros H. apply compare_texts_inr in H as (-> & _). lra. Qed.

(** C1, at every text: comparing a text with itself raises.  Each of its
    terms occurs in both documents, so pruning at [max_df=0.95] removes the
    whole vocabulary. *)
Theorem compare_texts_self_raises (t : text) (k : Z) :
  compare_texts janome t t k =
  inl (match tokenize janome t with [] => EmptyVocabulary | _ => NoTermsRemain end).
Proof.
  rewrite compare_texts_eq, fit_vocabulary_eq.
  destruct (full_vocabulary (tokenize janome) [t; t]) as [|x l] eqn:Ev.
  - apply full_vocabulary_pair_nil in Ev as [-> _]. done.
  - assert (Hne : tokenize janome t ≠ []).
    { intros E. assert (full_vocabulary (tokenize janome) [t; t] = []) as E'
        by by apply full_vocabulary_pair_nil. by rewrite E' in Ev. }
    change (95 * length [t; t] <? 1 * 100) with false. cbv iota.
    rewrite filter_all_false; [by destruct (tokenize janome t)|].
    intros u Hu. rewrite <- Ev in Hu.
    apply full_vocabulary_elem in Hu as (doc & Hdoc & Hu).
    assert (doc = t) as ->.
    { apply elem_of_cons in Hdoc as [->|Hdoc]; [done|].
      apply elem_of_cons in Hdoc as [->|Hdoc]; [done|]. by apply elem_of_nil in Hdoc. }
    unfold keeps, doc_freq. cbn [map List.filter].
    rewrite (bool_decide_eq_true_2 _ Hu). done.
Qed.

(** C2, the scenario on the code: the comparison returns similarity 0 and
    no common term; ["sat"], ["mat"] and ["sat mat"] occur in both texts
    and are pruned before any weight is computed. *)
Theorem compare_cat_dog :
  ∃ r, compare_texts janome (py "the cat sat on the mat") (py "the dog sat on the mat") 15
       = inr r
       ∧ similarity r = 0%R
       ∧ common_terms r = []
       ∧ (∀ term, term ∈ (doc1_unique_terms r).*1 → term ∈ [py "cat"; py "cat sat"])
       ∧ (∀ term, term ∈ (doc2_unique_terms r).*1 → term ∈ [py "dog"; py "dog sat"]).
Proof.
  assert (E : fit_vocabulary (tokenize janome) 1 95 100
                [py "the cat sat on the mat"; py "the dog sat on the mat"]
              = inr [py "cat"; py "cat sat"; py "dog"; py "dog sat"])
    by (vm_compute; reflexivity).
  pose proof (compare_texts_eq janome (py "the cat sat on the mat")
                (py "the dog sat on the mat") 15) as H.
  rewrite E in H. cbv zeta in H.
  eexists. split; [exact H|].
  destruct (compare_texts_inr janome _ _ _ _ H) as (Hs & Hc & H1 & H2).
  split; [exact Hs|]. split; [exact Hc|].
  assert (E1 : analyze (tokenize janome) (py "the cat sat on the mat")
               = [py "cat"; py "sat"; py "mat"; py "cat sat"; py "sat mat"])
    by (vm_compute; reflexivity).
  assert (E2 : analyze (tokenize janome) (py "the dog sat on the mat")
               = [py "dog"; py "sat"; py "mat"; py "dog sat"; py "sat mat"])
    by (vm_compute; reflexivity).
  rewrite E1, E2 in H1, H2.
  split; intros term Ht; apply list_elem_of_fmap in Ht as ([term' w] & -> & Ht); simpl.
  - apply H1 in Ht as [Hin Hout]. rewrite list_elem_of_In in Hin, Hout |- *.
    cbn [In] in Hin, Hout |- *. tauto.
  - apply H2 in Ht as [Hout Hin]. rewrite list_elem_of_In in Hin, Hout |- *.
    cbn [In] in Hin, Hout |- *. tauto.
Qed.

End CompareClaims.

(** C4. For every comparison that returns, no term is in two of the three
    lists. *)
Theorem compare_buckets_disjoint (janome : text → list text) (t1 t2 : text) (k : Z)
    (r : CompareResult) :
  compare_texts janome t1 t2 k = inr r →
  ∀ term : text,
    ¬ (term ∈ (common_terms r).*1 ∧ term ∈ (doc1_unique_terms r).*1)
    ∧ ¬ (term ∈ (common_terms r).*1 ∧ term ∈ (doc2_unique_terms r).*1)
    ∧ ¬ (term ∈ (doc1_unique_terms r).*1 ∧ term ∈ (doc2_unique_terms r).*1).
Proof.
  intros H term. apply compare_texts_inr in H as (_ & Hc & H1 & H2).
  rewrite Hc. split; [|split].
  - intros [Habs _]. by apply elem_of_nil in Habs.
  - intros [Habs _]. by apply elem_of_nil in Habs.
  - intros [Hu1 Hu2].
    apply list_elem_of_fmap in Hu1 as ([term1 w1] & -> & Hu1).
    apply list_elem_of_fmap in Hu2 as ([term2 w2] & E & Hu2). simpl in E. subst term2.
    apply H1 in Hu1 as [Hin _]. apply H2 in Hu2 as [Hout _]. done.
Qed.

Lemma compare_buckets_disjoint_witness :
  ∃ r, compare_texts no_segmenter (py "the cat sat on the mat")
         (py "the dog sat on the mat") 15 = inr r
       ∧ ∀ term : text,
           ¬ (term ∈ (common_terms r).*1 ∧ term ∈ (doc1_unique_terms r).*1)
           ∧ ¬ (term ∈ (common_terms r).*1 ∧ term ∈ (doc2_unique_terms r).*1)
           ∧ ¬ (term ∈ (doc1_unique_terms r).*1 ∧ term ∈ (doc2_unique_terms r).*1).
Proof.
  assert (E : fit_vocabulary (tokenize no_segmenter) 1 95 100
                [py "the cat sat on the mat"; py "the dog sat on the mat"]
              = inr [py "cat"; py "cat sat"; py "dog"; py "dog sat"])
    by (vm_compute; reflexivity).
  pose proof (compare_texts_eq no_segmenter (py "the cat sat on the mat")
                (py "the dog sat on the mat") 15) as H.
  rewrite E in H. cbv zeta in H.
  eexists. split; [exact H|].
  exact (compare_buckets_disjoint no_segmenter _ _ _ _ H).
Defined.

(** C3, as the code has it.  When one of the two texts tokenizes to
    nothing, the comparison raises if the other does too (the vocabulary is
    empty), and otherwise returns similarity 0, no common term and no
    unique term for the text without tokens. *)
Theorem compare_texts_without_tokens (janome : text → list text) (t1 t2 : text) (k : Z) :
  tokenize janome t1 = [] →
  (tokenize janome t2 = [] →
     compare_texts janome t1 t2 k = inl EmptyVocabulary)
  ∧ (tokenize janome t2 ≠ [] →
     (∃ r, compare_texts janome t1 t2 k = inr r
           ∧ similarity r = 0%R ∧ common_terms r = [] ∧ doc1_unique_terms r = [])
     ∧ (∃ r, compare_texts janome t2 t1 k = inr r
             ∧ similarity r = 0%R ∧ common_terms r = [] ∧ doc2_unique_terms r = [])).
Proof.
  intros E1. split.
  - intros E2. rewrite compare_texts_eq, fit_vocabulary_eq.
    by rewrite (proj2 (full_vocabulary_pair_nil janome t1 t2) (conj E1 E2)).
  - intros E2.
    assert (Hf1 : analyze (tokenize janome) t1 = []) by (unfold analyze; by rewrite E1).
    destruct (tokenize janome t2) as [|x l] eqn:Et2; [done|].
    assert (Hx : x ∈ analyze (tokenize janome) t2).
    { unfold analyze. rewrite Et2. apply list_elem_of_here. }
    assert (Hsucc : ∀ u1 u2, (u1 = t1 ∧ u2 = t2) ∨ (u1 = t2 ∧ u2 = t1) →
              ∃ r, compare_texts janome u1 u2 k = inr r).
    { intros u1 u2 Hu. rewrite compare_texts_eq, fit_vocabulary_eq.
      assert (Hfull : x ∈ full_vocabulary (tokenize janome) [u1; u2]).
      { apply full_vocabulary_elem. exists t2. split; [|done].
        destruct Hu as [[-> ->]|[-> ->]];
          [apply list_elem_of_further, list_elem_of_here | apply list_elem_of_here]. }
      destruct (full_vocabulary (tokenize janome) [u1; u2]) as [|y v] eqn:Ev.
      { by apply elem_of_nil in Hfull. }
      change (95 * length [u1; u2] <? 1 * 100) with false. cbv iota.
      rewrite <- Ev.
      assert (Hkept : x ∈ List.filter (keeps (tokenize janome) 1 95 100 [u1; u2])
                          (full_vocabulary (tokenize janome) [u1; u2])).
      { apply filter_elem. split; [by rewrite Ev|].
        unfold keeps, doc_freq. cbn [map List.filter].
        destruct Hu as [[-> ->]|[-> ->]]; rewrite Hf1;
          rewrite (bool_decide_eq_true_2 _ Hx);
          rewrite (bool_decide_eq_false_2 (x ∈ [])) by apply not_elem_of_nil;
          done. }
      destruct (List.filter _ _) as [|z kept]; [by apply elem_of_nil in Hkept|].
      cbv zeta. eauto. }
    split.
    + destruct (Hsucc t1 t2) as [r Hr]; [by left|]. exists r.
      destruct (compare_texts_inr janome _ _ _ _ Hr) as (Hs & Hc & H1 & _).
      split; [done|]. split; [done|]. split; [done|].
      destruct (doc1_unique_terms r) as [|[term w] rest]; [done|].
      destruct (H1 term w) as [Hin _]; [apply list_elem_of_here|].
      rewrite Hf1 in Hin. by apply elem_of_nil in Hin.
    + destruct (Hsucc t2 t1) as [r Hr]; [by right|]. exists r.
      destruct (compare_texts_inr janome _ _ _ _ Hr) as (Hs & Hc & _ & H2).
      split; [done|]. split; [done|]. split; [done|].
      destruct (doc2_unique_terms r) as [|[term w] rest]; [done|].
      destruct (H2 term w) as [_ Hin]; [apply list_elem_of_here|].
      rewrite Hf1 in Hin. by apply elem_of_nil in Hin.
Qed.

Lemma compare_texts_without_tokens_witness :
  (∃ r, compare_texts no_segmenter (py "the") (py "hello world") 15 = inr r
        ∧ similarity r = 0%R ∧ common_terms r = [] ∧ doc1_unique_terms r = [])
  ∧ (∃ r, compare_texts no_segmenter (py "hello world") (py "the") 15 = inr r
          ∧ similarity r = 0%R ∧ common_terms r = [] ∧ doc2_unique_terms r = []).
Proof.
  assert (E1 : tokenize no_segmenter (py "the") = []) by (vm_compute; reflexivity).
  assert (E2 : tokenize no_segmenter (py "hello world") ≠ [])
    by (vm_compute; discriminate).
  exact (proj2 (compare_texts_without_tokens no_segmenter (py "the")
                  (py "hello world") 15 E1) E2).
Defined.

(** C3, as stated, fails: two empty texts, or two texts of stop words only,
    make the comparison raise. *)
Lemma compare_texts_never_raises_counterexample :
  compare_texts no_segmenter (py "") (py "") 15 = inl EmptyVocabulary
  ∧ compare_texts no_segmenter (py "the") (py "a") 15 = inl EmptyVocabulary.
Proof. split; vm_compute; reflexivity. Qed.

(** ** The similarity matrix *)

Section PairwiseFacts.
Variable janome : text → list text.

Lemma pairwise_similarity_eq texts :
  pairwise_similarity janome texts =
  match fit_vocabulary (tokenize janome) 1 95 100 texts with
  | inl e => inl e
  | inr names =>
      let all_feats := map (analyze (tokenize janome)) texts in
      let X := map (tfidf_row all_feats names) all_feats in
      inr (cosine_similarity X X)
  end.
Proof.
  unfold pairwise_similarity, vectorize, fit_transform.
  by destruct (fit_vocabulary _ _ _ _ _).
Qed.

Lemma dot_self_eq_0 (l : list R) : dot l l = 0%R → Forall (λ x, x = 0%R) l.
Proof.
  induction l as [|x l IH]; [done|]. unfold dot in *. simpl. intros H.
  pose proof (dot_self_nonneg l) as Hl. unfold dot in Hl.
  assert (x * x = 0)%R as Hx by nra. constructor; [nra|]. apply IH. nra.
Qed.

(** An entry of [cosine_similarity(X)] on the rows of the matrix. *)
Lemma cosine_entry (all_feats : list (list text)) names i j :
  i < length all_feats → j < length all_feats →
  (cosine_similarity (map (tfidf_row all_feats names) all_feats)
                     (map (tfidf_row all_feats names) all_feats) !!! i) !!! j
  = dot (tfidf_row all_feats names (all_feats !!! i))
        (tfidf_row all_feats names (all_feats !!! j)).
Proof.
  intros Hi Hj. unfold cosine_similarity. to_fmap.
  destruct (lookup_lt_is_Some_2 all_feats i Hi) as [fi Hfi].
  destruct (lookup_lt_is_Some_2 all_feats j Hj) as [fj Hfj].
  rewrite (list_lookup_total_correct all_feats i fi Hfi).
  rewrite (list_lookup_total_correct all_feats j fj Hfj).
  set (X := tfidf_row all_feats names <$> all_feats).
  assert (HM : ((λ x, (λ y, dot (l2_normalize x) (l2_normalize y)) <$> X) <$> X) !! i
               = Some ((λ y, dot (l2_normalize (tfidf_row all_feats names fi))
                                 (l2_normalize y)) <$> X)).
  { unfold X at 2. by rewrite !list_lookup_fmap, Hfi. }
  rewrite (list_lookup_total_correct _ _ _ HM).
  apply list_lookup_total_correct. unfold X.
  rewrite !list_lookup_fmap, Hfj. simpl. by rewrite !tfidf_row_normalized.
Qed.

Lemma tfidf_row_self_dot all_feats names feats :
  dot (tfidf_row all_feats names feats) (tfidf_row all_feats names feats)
  = if decide (Forall (λ t, t ∉ feats) names) then 0%R else 1%R.
Proof.
  unfold tfidf_row. to_fmap.
  change (λ t, (INR (count_term t feats) *
                idf (length all_feats) (doc_freq all_feats t))%R)
    with (raw_weight all_feats feats).
  rewrite dot_l2_normalize.
  destruct (decide (Forall _ names)) as [Hall|Hsome].
  - rewrite decide_True; [done|]. rewrite dot_fmap. apply Rsum_zero, Forall_fmap.
    eapply Forall_impl; [exact Hall|]. intros t Ht. simpl.
    rewrite raw_weight_absent by done. lra.
  - rewrite decide_False; [done|]. intros E. apply Hsome.
    apply dot_self_eq_0, Forall_fmap in E.
    eapply Forall_impl; [exact E|]. intros t Ht Hin. simpl in Ht.
    pose proof (raw_weight_present all_feats feats t Hin). lra.
Qed.

Lemma tfidf_row_nonneg all_feats names feats :
  Forall (λ x, (0 <= x)%R) (tfidf_row all_feats names feats).
Proof.
  rewrite tfidf_row_eq. apply Forall_fmap, Forall_forall. intros t _.
  apply weight_nonneg.
Qed.

Lemma tfidf_row_length all_feats names feats :
  length (tfidf_row all_feats names feats) = length names.
Proof. rewrite tfidf_row_eq. by rewrite length_fmap. Qed.

End PairwiseFacts.




(** ** The graph *)

Section GraphFacts.
Import Graphing.

Lemma getitem_square sim i j :
  square sim → i < length sim → j < length sim →
  getitem sim i j = Some ((sim !!! i) !!! j).
Proof.
  intros Hsq Hi Hj. unfold getitem.
  rewrite (list_lookup_lookup_total_lt sim i Hi). simpl.
  apply list_lookup_lookup_total_lt.
  unfold square in Hsq. rewrite Forall_forall in Hsq. rewrite Hsq; [done|].
  apply list_elem_of_lookup. exists i. by apply list_lookup_lookup_total_lt.
Qed.

Lemma upper_triangle_elem n i j : (i, j) ∈ upper_triangle n ↔ i < j < n.
Proof.
  unfold upper_triangle. rewrite list_elem_of_bind. split.
  - intros (i' & H & Hi'). apply list_elem_of_bind in H as (j' & H & Hj').
    apply list_elem_of_singleton in H as [= -> ->].
    apply elem_of_seq in Hi', Hj'. lia.
  - intros Hij. exists i. split; [|apply elem_of_seq; lia].
    apply list_elem_of_bind. exists j. split; [apply list_elem_of_here|].
    apply elem_of_seq. lia.
Qed.

Lemma upper_triangle_NoDup n : NoDup (upper_triangle n).
Proof.
  unfold upper_triangle. apply NoDup_bind; [| |apply NoDup_seq].
  - intros i1 i2 p _ _ H1 H2.
    apply list_elem_of_bind in H1 as (j1 & H1 & _).
    apply list_elem_of_bind in H2 as (j2 & H2 & _).
    apply list_elem_of_singleton in H1, H2. congruence.
  - intros i _. apply NoDup_bind; [| |apply NoDup_seq].
    + intros j1 j2 p _ _ H1 H2. apply list_elem_of_singleton in H1, H2. congruence.
    + intros j _. apply NoDup_singleton.
Qed.

Lemma mapM_total {A B} (f : A → option B) (g : A → B) (l : list A) :
  (∀ x, x ∈ l → f x = Some (g x)) → mapM f l = Some (g <$> l).
Proof.
  intros H. apply mapM_Some_2, Forall2_fmap_r, Forall_Forall2_diag, Forall_forall.
  exact H.
Qed.

Lemma concat_guarded {A B} (P : B → bool) (g : A → B) (l : list A) :
  concat ((λ x, if P (g x) then [g x] else []) <$> l) = List.filter P (g <$> l).
Proof.
  induction l as [|x l IH]; csimpl; [done|]. rewrite IH. by destruct (P (g x)).
Qed.

(** On a square matrix no index is out of range, and [build_edges] is the
    sort of the edges that pass the threshold. *)
Lemma build_edges_square sim threshold :
  square sim →
  build_edges sim threshold =
  Some (sorted_by_float_reverse weight
          (List.filter (λ e, bool_decide (threshold <= weight e)%R)
                       (edge_of sim <$> upper_triangle (length sim)))).
Proof.
  intros Hsq. unfold build_edges.
  rewrite (mapM_total _
             (λ p, if bool_decide (threshold <= weight (edge_of sim p))%R
                   then [edge_of sim p] else [])).
  - cbn [mbind option_bind].
    do 2 f_equal.
    pose (P := λ e : Edge, bool_decide (threshold <= weight e)%R).
    apply (concat_guarded P (edge_of sim)).
  - intros [i j] Hp. apply upper_triangle_elem in Hp.
    rewrite getitem_square by (done || lia). simpl.
    unfold edge_of, bool_decide, decide. simpl. by destruct (Rle_decision _ _).
Qed.

Lemma filter_threshold_length (l : list Edge) (th th' : R) :
  (th <= th')%R →
  length (List.filter (λ e, bool_decide (th' <= weight e)%R) l)
  ≤ length (List.filter (λ e, bool_decide (th <= weight e)%R) l).
Proof.
  intros Hth. induction l as [|e l IH]; simpl; [done|].
  destruct (bool_decide (th' <= weight e)%R) eqn:E'.
  - apply bool_decide_eq_true in E'.
    rewrite (bool_decide_eq_true_2 (th <= weight e)%R) by lra. simpl. lia.
  - destruct (bool_decide (th <= weight e)%R); simpl; lia.
Qed.

End GraphFacts.

(** C7. On an N by N matrix [build_edges] returns exactly the pairs
    [i < j] whose weight is at least the threshold, each once, sorted by
    weight descending; and a higher threshold never returns more edges. *)
Theorem build_edges_upper_triangle (sim : list (list R)) (threshold : R) :
  square sim →
  ∃ edges,
    Graphing.build_edges sim threshold = Some edges
    ∧ (∀ e, e ∈ edges ↔
         Graphing.a e < Graphing.b e < length sim
         ∧ Graphing.getitem sim (Graphing.a e) (Graphing.b e) = Some (Graphing.weight e)
         ∧ (threshold <= Graphing.weight e)%R)
    ∧ NoDup edges
    ∧ StronglySorted (λ e1 e2, (Graphing.weight e2 <= Graphing.weight e1)%R) edges
    ∧ (∀ threshold', (threshold <= threshold')%R →
         ∃ edges', Graphing.build_edges sim threshold' = Some edges'
                   ∧ length edges' ≤ length edges).
Proof.
  intros Hsq. eexists. split; [by apply build_edges_square|].
  split; [|split; [|split]].
  - intros e. unfold sorted_by_float_reverse.
    rewrite stable_sort_elem, filter_elem, list_elem_of_fmap. split.
    + intros [([i j] & -> & Hp) Hth]. apply upper_triangle_elem in Hp.
      apply bool_decide_eq_true in Hth. simpl in *.
      split; [done|]. split; [|done]. apply getitem_square; (done || lia).
    + intros (Hij & Hw & Hth). split; [|by apply bool_decide_eq_true].
      exists (Graphing.a e, Graphing.b e). split; [|by apply upper_triangle_elem].
      rewrite getitem_square in Hw by (done || lia). injection Hw as Hw.
      destruct e as [i j w]. unfold edge_of. simpl in *. by rewrite Hw.
  - unfold sorted_by_float_reverse. rewrite stable_sort_perm.
    eapply sublist_NoDup; [|apply filter_sublist].
    apply NoDup_fmap_2_strong; [|apply upper_triangle_NoDup].
    intros [i j] [i' j'] _ _ E. unfold edge_of in E. simpl in E. congruence.
  - apply sorted_by_float_reverse_sorted.
  - intros th' Hth. eexists. split; [by apply build_edges_square|].
    unfold sorted_by_float_reverse. rewrite !stable_sort_length.
    by apply filter_threshold_length.
Qed.

Lemma build_edges_upper_triangle_witness :
  ∃ edges,
    Graphing.build_edges [[1; 1/2]; [1/2; 1]]%R (1/4)%R = Some edges
    ∧ (∀ e, e ∈ edges ↔
         Graphing.a e < Graphing.b e < 2
         ∧ Graphing.getitem [[1; 1/2]; [1/2; 1]]%R (Graphing.a e) (Graphing.b e)
           = Some (Graphing.weight e)
         ∧ (1/4 <= Graphing.weight e)%R)
    ∧ NoDup edges
    ∧ StronglySorted (λ e1 e2, (Graphing.weight e2 <= Graphing.weight e1)%R) edges
    ∧ (∀ threshold', (1/4 <= threshold')%R →
         ∃ edges', Graphing.build_edges [[1; 1/2]; [1/2; 1]]%R threshold' = Some edges'
                   ∧ length edges' ≤ length edges).
Proof.
  apply (build_edges_upper_triangle [[1; 1/2]; [1/2; 1]]%R (1/4)%R).
  repeat constructor.
Defined.

(** C8, on the code: [render_dot] leaves the label as it is.  The
    replacement string of the source is the quote character itself, so
    replacing is the identity, and the quote in the middle of the label
    reaches the output unescaped and ends the attribute early. *)
Theorem render_dot_keeps_quote (format_2f : R → text) :
  (∀ l, replace QUOTE [QUOTE] l = l)
  ∧ Graphing.render_dot format_2f
      [{| Graphing.id := 0; Graphing.label := py "a" ++ [QUOTE] ++ py "b" |}] []
    = join [LF]
        [py "graph G {"; py "  graph [overlap=false, splines=true];";
         py "  node [shape=box];";
         py "  D0 [label=" ++ [QUOTE] ++ py "a" ++ [QUOTE] ++ py "b" ++ [QUOTE] ++ py "];";
         py "}"].
Proof.
  split; [|vm_compute; reflexivity].
  intros l. unfold replace. induction l as [|c l IH]; simpl; [done|].
  destruct (c =? QUOTE)%N eqn:E; [|by rewrite IH].
  apply N.eqb_eq in E as ->. by rewrite IH.
Qed.

(** ** The scenarios of the specification, run on the model *)

Example tokenize_cat :
  tokenize no_segmenter (py "The cat sat on the mat, don't stop-me a b cd")
  = [py "cat"; py "sat"; py "mat"; py "don't"; py "stop-me"].
Proof. vm_compute. reflexivity. Qed.

Example split_sentences_merge :
  split_sentences (py "Sentence one is long enough to count. Short. Sentence two is also sufficiently long to count.")
  = [py "Sentence one is long enough to count. Short.";
     py "Sentence two is also sufficiently long to count."].
Proof. vm_compute. reflexivity. Qed.

(** A text that splits into sentences but has no token: the first [k]
    sentences come back unchanged. *)
Example summarize_fallback :
  summarize no_segmenter
    (py "This is it and that was it." ++ [LF] ++ py "They were with you for her.") 1
  = py "This is it and that was it.".
Proof. vm_compute. reflexivity. Qed.

(** [build_edges(identity_matrix_3x3, threshold=0.99)]: no edge. *)
Example build_edges_identity :
  Graphing.build_edges [[1; 0; 0]; [0; 1; 0]; [0; 0; 1]]%R (99 / 100)%R = Some [].
Proof.
  rewrite build_edges_square by repeat constructor.
  f_equal. rewrite filter_all_false; [done|].
  intros e He. apply list_elem_of_fmap in He as ([i j] & -> & Hp).
  apply upper_triangle_elem in Hp. apply bool_decide_eq_false.
  unfold edge_of. cbn [Graphing.weight fst snd].
  assert (i = 0 ∧ j = 1 ∨ i = 0 ∧ j = 2 ∨ i = 1 ∧ j = 2) as Hij by (simpl in Hp; lia).
  destruct Hij as [[-> ->]|[[-> ->]|[-> ->]]]; cbn [lookup_total list_lookup_total]; lra.
Qed.

(** * Further properties of the code *)

(** ** More on the sentence splitter *)

Section SplitterFacts.

Lemma merge_step_long out buf s :
  ((buf = [] ∧ out = []) ∨ (clean buf ∧ Forall long (tail (out ++ [buf])))) →
  clean s →
  clean (merge_step (out, buf) s).2
  ∧ Forall long (tail ((merge_step (out, buf) s).1 ++ [(merge_step (out, buf) s).2])).
Proof.
  intros Hinv Hs. unfold merge_step.
  destruct ((length s <? 20)%nat && nonempty buf) eqn:E; cbn [fst snd].
  - apply andb_prop in E as [_ E]. apply nonempty_true in E.
    destruct Hinv as [[-> _]|[Hbuf Hlong]]; [done|].
    split; [by apply clean_merge|].
    rewrite strip_id by (apply (trimmed_app buf _ s); done).
    destruct out as [|o out]; [constructor|]. simpl in *.
    apply Forall_app in Hlong as [Hout Hb]. apply Forall_app. split; [done|].
    constructor; [|done]. inversion Hb; subst. unfold long in *.
    rewrite length_app. lia.
  - split; [done|]. destruct (nonempty buf) eqn:Eb.
    + apply nonempty_true in Eb.
      destruct Hinv as [[-> _]|[Hbuf Hlong]]; [done|].
      rewrite andb_true_r in E. apply Nat.ltb_ge in E.
      assert (tail ((out ++ [buf]) ++ [s]) = tail (out ++ [buf]) ++ [s]) as ->
        by by destruct out.
      apply Forall_app. split; [done|]. by constructor.
    + destruct Hinv as [[-> ->]|[[Hbuf _] _]]; [constructor|].
      by destruct buf.
Qed.

Lemma merge_loop_long raw : ∀ out buf,
  Forall clean raw →
  ((buf = [] ∧ out = []) ∨ (clean buf ∧ Forall long (tail (out ++ [buf])))) →
  let st := foldl merge_step (out, buf) raw in
  (st.2 = [] ∧ st.1 = []) ∨ (clean st.2 ∧ Forall long (tail (st.1 ++ [st.2]))).
Proof.
  induction raw as [|s raw IH]; intros out buf Hraw Hinv; cbn [foldl]; [done|].
  inversion Hraw as [|? ? Hs Hraw']; subst.
  destruct (merge_step_long out buf s Hinv Hs) as [H1 H2].
  destruct (merge_step (out, buf) s) as [out' buf']. cbn [fst snd] in *.
  apply IH; [done|]. by right.
Qed.

(** X1. Only the first sentence can be shorter than 20 characters. *)
Theorem split_sentences_rest_long (t : text) :
  Forall long (tail (split_sentences t)).
Proof.
  unfold split_sentences, merge_fragments.
  pose proof (merge_loop_long (raw_fragments t) [] [] (raw_fragments_clean t)
                (or_introl (conj eq_refl eq_refl))) as H.
  destruct (foldl merge_step ([], []) (raw_fragments t)) as [out buf].
  cbn [fst snd] in H. destruct H as [[-> ->]|[[Hne _] H]]; [constructor|].
  destruct buf; [done|]. exact H.
Qed.

(** The splitting drops white space only. *)
Lemma visible_app s1 s2 : visible (s1 ++ s2) = visible s1 ++ visible s2.
Proof. apply List.filter_app. Qed.

Lemma visible_reverse s : visible (reverse s) = reverse (visible s).
Proof.
  induction s as [|c s IH]; [done|].
  rewrite reverse_cons, visible_app, IH. simpl.
  destruct (isspace c); simpl; [by rewrite app_nil_r | by rewrite reverse_cons].
Qed.

Lemma visible_lstrip s : visible (lstrip s) = visible s.
Proof.
  induction s as [|c s IH]; [done|]. simpl.
  destruct (isspace c) eqn:E; simpl; [done | by rewrite E].
Qed.

Lemma visible_strip s : visible (strip s) = visible s.
Proof.
  unfold strip, rstrip.
  rewrite visible_reverse, visible_lstrip, visible_reverse, reverse_involutive.
  apply visible_lstrip.
Qed.

Lemma visible_nil_strip s : strip s = [] → visible s = [].
Proof. intros E. by rewrite <- visible_strip, E. Qed.

Lemma visible_sent_split_from s : ∀ st cur,
  scan_ok st cur →
  visible (concat (sent_split_from st cur s)) = visible (reverse cur ++ s).
Proof.
  induction s as [|c s IH]; intros st cur Hok.
  - simpl. by rewrite !app_nil_r.
  - assert (Hsp : isspace c = true → visible (reverse cur ++ c :: s)
                                    = visible (reverse cur ++ s)).
    { intros E. rewrite !visible_app. simpl. by rewrite E. }
    assert (Hlf : (c =? LF)%N = true → isspace c = true).
    { intros E. apply N.eqb_eq in E as ->. done. }
    assert (Hcons : ∀ st', visible (concat (sent_split_from (InText st') (c :: cur) s))
                           = visible (reverse cur ++ c :: s)).
    { intros st'. rewrite IH by done. by rewrite reverse_cons, <- app_assoc. }
    assert (Hnew : ∀ st', scan_ok st' [] →
              visible (reverse cur ++ concat (sent_split_from st' [] s))
              = visible (reverse cur ++ s)).
    { intros st' H. by rewrite visible_app, IH, <- visible_app. }
    destruct st as [after_end| |]; simpl in Hok |- *.
    + destruct (after_end && isspace c) eqn:E1.
      { apply andb_prop in E1 as [_ E1]. rewrite Hsp by done. by apply Hnew. }
      destruct (c =? LF)%N eqn:E2.
      { rewrite Hsp by auto. by apply Hnew. }
      apply Hcons.
    + subst cur. destruct (isspace c) eqn:E; [|apply (Hcons _)].
      rewrite IH by done. simpl. by rewrite E.
    + subst cur. destruct (c =? LF)%N eqn:E; [|apply (Hcons _)].
      rewrite IH by done. simpl. by rewrite (Hlf eq_refl).
Qed.

Lemma visible_raw_pieces (pieces : list text) :
  visible (concat (map strip
     (List.filter (λ s, nonempty s && nonempty (strip s)) pieces)))
  = visible (concat pieces).
Proof.
  induction pieces as [|p pieces IH]; [done|]. simpl.
  destruct (nonempty p && nonempty (strip p)) eqn:E; simpl.
  - by rewrite !visible_app, visible_strip, IH.
  - rewrite visible_app, IH.
    assert (visible p = []) as ->; [|done].
    destruct p as [|c p]; [done|]. simpl in E.
    destruct (strip (c :: p)) eqn:Es; [|done]. by apply visible_nil_strip.
Qed.

Lemma visible_merge_step out buf s :
  visible (concat (merge_step (out, buf) s).1 ++ (merge_step (out, buf) s).2)
  = visible (concat out ++ buf) ++ visible s.
Proof.
  unfold merge_step.
  destruct ((length s <? 20)%nat && nonempty buf); cbn [fst snd].
  - rewrite !visible_app, visible_strip, !visible_app.
    change (visible (py " ")) with (@nil N). by rewrite app_nil_l, app_assoc.
  - destruct buf as [|c buf]; simpl.
    + by rewrite app_nil_r, visible_app.
    + rewrite concat_app. change (concat [c :: buf]) with ((c :: buf) ++ []).
      rewrite app_nil_r. by rewrite !visible_app.
Qed.

Lemma visible_merge_loop raw : ∀ out buf,
  let st := foldl merge_step (out, buf) raw in
  visible (concat st.1 ++ st.2) = visible (concat out ++ buf) ++ visible (concat raw).
Proof.
  induction raw as [|s raw IH]; intros out buf; cbn [foldl].
  - simpl. by rewrite app_nil_r.
  - pose proof (visible_merge_step out buf s) as H.
    destruct (merge_step (out, buf) s) as [out' buf']. cbn [fst snd] in H.
    cbv zeta in IH |- *. rewrite IH, H.
    change (concat (s :: raw)) with (s ++ concat raw).
    by rewrite (visible_app s), app_assoc.
Qed.

(** X2. Splitting into sentences loses white space only: the other
    characters of the sentences, read in order, are those of the text. *)
Theorem split_sentences_keeps_visible (t : text) :
  visible (concat (split_sentences t)) = visible t.
Proof.
  unfold split_sentences, merge_fragments.
  pose proof (visible_merge_loop (raw_fragments t) [] []) as H. cbv zeta in H.
  destruct (foldl merge_step ([], []) (raw_fragments t)) as [out buf].
  cbn [fst snd] in H.
  assert (visible (concat (if nonempty buf then out ++ [buf] else out))
          = visible (concat out ++ buf)) as ->.
  { destruct buf; simpl; [by rewrite app_nil_r|].
    rewrite concat_app. simpl. by rewrite app_nil_r. }
  rewrite H. simpl. unfold raw_fragments.
  rewrite visible_raw_pieces. unfold sent_split.
  by rewrite visible_sent_split_from.
Qed.

Lemma sent_split_from_chars (P : N → Prop) s : ∀ st cur,
  Forall P cur →
  Forall (λ c, c ≠ LF → P c) s →
  Forall (Forall P) (sent_split_from st cur s).
Proof.
  induction s as [|c s IH]; intros st cur Hcur Hs.
  - simpl. constructor; [|done]. by apply Forall_reverse.
  - apply Forall_cons in Hs as [Hc Hs].
    assert (Hrev : Forall P (reverse cur)) by by apply Forall_reverse.
    assert (Hlf : (c =? LF)%N = false → P c).
    { intros E. apply Hc. by apply N.eqb_neq. }
    assert (Hsp : isspace c = false → P c).
    { intros E. apply Hc. intros ->. done. }
    destruct st as [after_end| |]; simpl.
    + destruct (after_end && isspace c).
      { constructor; [done|]. by apply IH. }
      destruct (c =? LF)%N eqn:E.
      { constructor; [done|]. by apply IH. }
      apply IH; [|done]. constructor; auto.
    + destruct (isspace c) eqn:E; apply IH; auto.
    + destruct (c =? LF)%N eqn:E; apply IH; auto.
Qed.

(** X3. No sentence holds a line feed, and every character of a sentence
    is a character of the text or the space put between merged
    fragments. *)
Theorem split_sentences_chars (t : text) (s : text) (c : N) :
  s ∈ split_sentences t → c ∈ s → c ≠ LF ∧ (c ∈ t ∨ c = SPACE).
Proof.
  intros Hs Hc.
  set (P := λ c : N, c ≠ LF ∧ (c ∈ t ∨ c = SPACE)).
  assert (H : Forall (Forall P) (split_sentences t)).
  { apply (merge_fragments_inv (Forall P)).
    - intros buf s' _ Hb Hs'. rewrite Forall_forall. intros x Hx.
      apply strip_subseteq in Hx. rewrite !elem_of_app in Hx.
      rewrite Forall_forall in Hb, Hs'.
      destruct Hx as [Hx|[Hx|Hx]]; [by apply Hb| |by apply Hs'].
      apply list_elem_of_singleton in Hx as ->. split; [done | by right].
    - unfold raw_fragments. to_fmap. apply Forall_fmap.
      assert (H : Forall (Forall P) (sent_split t)).
      { apply sent_split_from_chars; [done|].
        apply Forall_forall. intros x Hx Hne. split; [done | by left]. }
      rewrite Forall_forall in H |- *. intros p Hp.
      apply filter_elem in Hp as [Hp _]. simpl.
      rewrite Forall_forall. intros x Hx. apply strip_subseteq in Hx.
      specialize (H p Hp). rewrite Forall_forall in H. by apply H. }
  rewrite Forall_forall in H. specialize (H s Hs).
  rewrite Forall_forall in H. by apply H.
Qed.

Lemma split_sentences_chars_witness :
  SPACE ≠ LF ∧ (SPACE ∈ py "Hi. Yo" ∨ SPACE = SPACE).
Proof.
  apply (split_sentences_chars (py "Hi. Yo") (py "Hi. Yo") SPACE);
    apply list_elem_of_In; vm_compute; tauto.
Defined.

End SplitterFacts.

(** ** The tokenizer *)

Section TokenFacts.

Lemma lower_char_word c : is_word_char c = true → is_lower_word_char (lower_char c) = true.
Proof.
  unfold is_word_char, is_alpha, is_lower_word_char, is_lower_alpha, lower_char.
  intros H. destruct ((65 <=? c) && (c <=? 90))%N eqn:E.
  - apply andb_prop in E as [E1 E2]. apply N.leb_le in E1, E2.
    assert ((97 <=? c + 32)%N = true) as -> by (apply N.leb_le; lia).
    assert ((c + 32 <=? 122)%N = true) as -> by (apply N.leb_le; lia). done.
  - simpl in H. exact H.
Qed.

Lemma lower_char_alpha c : is_alpha c = true → is_lower_alpha (lower_char c) = true.
Proof.
  unfold is_alpha, is_lower_alpha, lower_char.
  intros H. destruct ((65 <=? c) && (c <=? 90))%N eqn:E.
  - apply andb_prop in E as [E1 E2]. apply N.leb_le in E1, E2.
    assert ((97 <=? c + 32)%N = true) as -> by (apply N.leb_le; lia).
    assert ((c + 32 <=? 122)%N = true) as -> by (apply N.leb_le; lia). done.
  - simpl in H. exact H.
Qed.

Lemma close_word_wordlike cur m :
  candidate cur → m ∈ close_word cur → wordlike m.
Proof.
  unfold close_word. intros Hc Hm.
  destruct (2 <=? length cur) eqn:E; [|by apply elem_of_nil in Hm].
  apply Nat.leb_le in E. apply list_elem_of_singleton in Hm as ->.
  destruct Hc as [->|[Hw (a & Ha & Hal)]]; [simpl in E; lia|].
  split; [by rewrite length_reverse|]. split.
  - intros c Hin. apply Hw. by apply elem_of_reverse.
  - exists a. by rewrite head_reverse.
Qed.

Lemma word_matches_from_wordlike s : ∀ cur m,
  candidate cur → m ∈ word_matches_from cur s → wordlike m.
Proof.
  induction s as [|c s IH]; intros cur m Hc Hm.
  - by apply (close_word_wordlike cur).
  - simpl in Hm. destruct cur as [|x cur].
    + destruct (is_alpha c) eqn:E; [|by apply (IH [] m); [left|]].
      apply (IH [c] m); [|done]. right. split.
      * intros y Hy. apply list_elem_of_singleton in Hy as ->.
        unfold is_word_char. by rewrite E.
      * by exists c.
    + destruct (is_word_char c) eqn:E.
      * apply (IH (c :: x :: cur) m); [|done].
        destruct Hc as [?|[Hw (a & Ha & Hal)]]; [done|]. right. split.
        -- intros y Hy. apply elem_of_cons in Hy as [->|Hy]; [done | by apply Hw].
        -- exists a. split; [|done]. by rewrite last_cons, Ha.
      * apply elem_of_app in Hm as [Hm|Hm].
        -- by apply (close_word_wordlike (x :: cur)).
        -- by apply (IH [] m); [left|].
Qed.

End TokenFacts.

(** X4. What a token is.  On text read as Japanese: a segment janome
    returned, not white space only, no stop word, of two characters or
    more.  On any other text: no stop word, of three characters or more,
    made of lower-case ASCII letters, digits, hyphens and apostrophes, and
    starting with a letter. *)
Theorem tokenize_tokens (janome : text → list text) (t : text) (tok : text) :
  tok ∈ tokenize janome t →
  if is_probably_japanese t then
    tok ∈ janome t ∧ (tok ∉ JA_STOP) ∧ 2 ≤ length tok ∧ strip tok ≠ []
  else
    (tok ∉ EN_STOP) ∧ 3 ≤ length tok
    ∧ (∀ c, c ∈ tok → is_lower_word_char c = true)
    ∧ (∃ a, head tok = Some a ∧ is_lower_alpha a = true).
Proof.
  unfold tokenize. destruct (is_probably_japanese t); intros H.
  - apply filter_elem in H as [H Hf]. apply filter_elem in H as [H Hs].
    apply andb_prop in Hf as [Hstop Hlen].
    apply negb_true_iff, bool_decide_eq_false in Hstop. apply Nat.ltb_lt in Hlen.
    apply nonempty_true in Hs. split; [done|]. split; [done|]. split; [lia | done].
  - apply filter_elem in H as [H Hf]. apply andb_prop in Hf as [Hstop Hlen].
    apply negb_true_iff, bool_decide_eq_false in Hstop. apply Nat.ltb_lt in Hlen.
    split; [done|]. split; [lia|].
    apply list_elem_of_In, in_map_iff in H as (m & <- & Hm).
    apply list_elem_of_In in Hm.
    apply (word_matches_from_wordlike t [] m) in Hm as (_ & Hw & (a & Ha & Hal));
      [|by left].
    split.
    + intros c Hc. unfold lower in Hc. apply list_elem_of_In, in_map_iff in Hc as (x & <- & Hx).
      apply lower_char_word, Hw. by apply list_elem_of_In.
    + exists (lower_char a). split; [|by apply lower_char_alpha].
      unfold lower. destruct m; [done|]. simpl in *. by injection Ha as ->.
Qed.

Lemma tokenize_tokens_witness :
  (py "cat" ∉ EN_STOP) ∧ 3 ≤ length (py "cat")
  ∧ (∀ c, c ∈ py "cat" → is_lower_word_char c = true)
  ∧ (∃ a, head (py "cat") = Some a ∧ is_lower_alpha a = true).
Proof.
  apply (tokenize_tokens no_segmenter (py "The cat sat.") (py "cat")).
  vm_compute. apply list_elem_of_here.
Defined.

(** ** The number of sentences of a summary *)

Section CountFacts.

Lemma sorted_length_bound (l : list nat) : ∀ b c,
  StronglySorted lt l → (∀ x, x ∈ l → b ≤ x < c) → length l ≤ c - b.
Proof.
  induction l as [|x l IH]; intros b c Hs Hr; [simpl; lia|].
  apply StronglySorted_cons in Hs as [Hx Hs].
  assert (b ≤ x < c) by (apply Hr, list_elem_of_here).
  specialize (IH (S x) c Hs). simpl.
  assert (length l ≤ c - S x); [|lia].
  apply IH. intros y Hy. rewrite Forall_forall in Hx. specialize (Hx y Hy).
  specialize (Hr y (list_elem_of_further _ _ _ Hy)). lia.
Qed.

(** Increasing numbers that fill their range are the range. *)
Lemma sorted_range_seq (l : list nat) : ∀ a,
  StronglySorted lt l → (∀ x, x ∈ l → a ≤ x < a + length l) →
  l = seq a (length l).
Proof.
  induction l as [|x l IH]; intros a Hs Hr; [done|].
  pose proof Hs as Hs'. apply StronglySorted_cons in Hs as [Hx Hs].
  assert (a ≤ x < a + S (length l)) as Hxr by (apply Hr, list_elem_of_here).
  assert (Htail : ∀ y, y ∈ l → S x ≤ y < a + S (length l)).
  { intros y Hy. rewrite Forall_forall in Hx. specialize (Hx y Hy).
    specialize (Hr y (list_elem_of_further _ _ _ Hy)). simpl in Hr. lia. }
  pose proof (sorted_length_bound l (S x) (a + S (length l)) Hs Htail) as Hb.
  assert (x = a) as -> by lia. simpl. f_equal.
  apply IH; [done|]. intros y Hy. specialize (Htail y Hy). lia.
Qed.

Lemma all_lookups (l : list text) : (λ i, l !!! i) <$> seq 0 (length l) = l.
Proof.
  pose proof (take_lookups l (length l)) as H.
  rewrite Nat.min_id, take_ge in H by done. symmetry. exact H.
Qed.

End CountFacts.

(** X5. A count of at least the number of sentences returns every
    sentence, in the order of the text, joined by line feeds. *)
Theorem summarize_all_sentences (janome : text → list text) (t : text) (k : Z) :
  (Z.of_nat (length (split_sentences t)) ≤ k)%Z →
  summarize janome t k = join [LF] (split_sentences t).
Proof.
  intros Hk.
  destruct (summarize_selection janome t k) as (idx & -> & Hs & Hr & Hlen & _).
  assert (Hn : length idx = length (split_sentences t)).
  { rewrite Hlen. unfold slice_len. destruct (k <? 0)%Z eqn:E; lia. }
  rewrite (sorted_range_seq idx 0 Hs).
  - by rewrite Hn, all_lookups.
  - intros x Hx. specialize (Hr x Hx). lia.
Qed.

Lemma summarize_all_sentences_witness :
  summarize no_segmenter (py "It is." ++ [LF] ++ py "We are.") 7
  = join [LF] (split_sentences (py "It is." ++ [LF] ++ py "We are.")).
Proof.
  apply (summarize_all_sentences no_segmenter). vm_compute. discriminate.
Defined.

(** X6. How many sentences a summary has, [n] being the number of
    sentences of the text: none for a count of 0 and for a negative count
    [-m] with [m >= n]; [n - m] for a negative count [-m] with [m < n],
    which drops the [m] sentences that rank last. *)
Theorem summarize_nonpositive_count (janome : text → list text) (t : text) (k : Z) :
  (k ≤ 0)%Z →
  ((k = 0 ∨ k ≤ - Z.of_nat (length (split_sentences t)))%Z →
     summarize janome t k = [])
  ∧ ∃ idx : list nat,
      summarize janome t k = join [LF] ((λ i, split_sentences t !!! i) <$> idx)
      ∧ StronglySorted lt idx
      ∧ (∀ i, i ∈ idx → i < length (split_sentences t))
      ∧ Z.of_nat (length idx)
        = (if (k =? 0)%Z then 0
           else Z.max 0 (Z.of_nat (length (split_sentences t)) + k))%Z.
Proof.
  intros Hk.
  destruct (summarize_selection janome t k) as (idx & Hsum & Hs & Hr & Hlen & _).
  assert (Hcount : Z.of_nat (length idx)
            = (if (k =? 0)%Z then 0
               else Z.max 0 (Z.of_nat (length (split_sentences t)) + k))%Z).
  { rewrite Hlen. unfold slice_len.
    destruct (k =? 0)%Z eqn:E0; destruct (k <? 0)%Z eqn:E; lia. }
  split; [|by exists idx].
  intros Hz. rewrite Hsum.
  assert (length idx = 0) as Hnil.
  { destruct (k =? 0)%Z eqn:E0; lia. }
  by destruct idx.
Qed.

Lemma summarize_nonpositive_count_witness :
  summarize no_segmenter (py "It is." ++ [LF] ++ py "We are.") 0 = [].
Proof.
  apply (proj1 (summarize_nonpositive_count no_segmenter
                  (py "It is." ++ [LF] ++ py "We are.") 0 ltac:(lia))).
  by left.
Defined.

(** ** More on the comparison *)

Section RankingFacts.

Lemma sorted_by_float_sorted {A} (key : A → R) l :
  StronglySorted (λ u v, (key u <= key v)%R) (sorted_by_float key l).
Proof.
  unfold sorted_by_float.
  eapply StronglySorted_impl; [|apply stable_sort_sorted].
  - intros u v H. simpl in H. apply bool_decide_eq_false in H. lra.
  - intros x y z H1 H2. apply bool_decide_eq_false in H1, H2.
    apply bool_decide_eq_false. lra.
  - intros x y H. apply bool_decide_eq_true in H. apply bool_decide_eq_false. lra.
Qed.

Lemma StronglySorted_Forall_impl {A} (R1 R2 : relation A) (P : A → Prop) l :
  (∀ x y, P x → P y → R1 x y → R2 x y) →
  Forall P l → StronglySorted R1 l → StronglySorted R2 l.
Proof.
  intros H HP. induction 1 as [|x l Hl IH Hx]; [constructor|].
  apply Forall_cons in HP as [Hpx HP]. constructor; [by apply IH|].
  rewrite Forall_forall in Hx, HP |- *. intros y Hy. apply H; auto.
Qed.

Lemma StronglySorted_rev {A} (R : relation A) l :
  StronglySorted R l → StronglySorted (flip R) (reverse l).
Proof.
  induction 1 as [|x l Hl IH Hx]; [constructor|].
  rewrite reverse_cons. apply StronglySorted_app_2; [|done|repeat constructor].
  intros y z Hy Hz. apply list_elem_of_singleton in Hz as ->.
  rewrite elem_of_reverse in Hy. rewrite Forall_forall in Hx. unfold flip.
  by apply Hx.
Qed.

Lemma StronglySorted_filter {A} (R : relation A) (f : A → bool) l :
  StronglySorted R l → StronglySorted R (List.filter f l).
Proof.
  induction 1 as [|x l Hl IH Hx]; simpl; [constructor|].
  destruct (f x); [|done]. constructor; [done|].
  rewrite Forall_forall in Hx |- *. intros y Hy. apply Hx.
  by apply filter_elem in Hy as [Hy _].
Qed.

Lemma enumerate_elem (v : list R) i x :
  (i, x) ∈ enumerate v → x = v !!! i.
Proof.
  unfold enumerate. intros H. apply elem_of_lookup_imap in H as (j & y & [= -> ->] & Hy).
  symmetry. by apply list_lookup_total_correct.
Qed.

(** [argsort] lists the indices by ascending value. *)
Lemma argsort_sorted (v : list R) :
  StronglySorted (λ i j, (v !!! i <= v !!! j)%R) (argsort v).
Proof.
  unfold argsort. to_fmap.
  apply (StronglySorted_fmap fst (λ u w, (v !!! u.1 <= v !!! w.1)%R)); [done|].
  apply (StronglySorted_Forall_impl (λ u w, (u.2 <= w.2)%R) _
           (λ u, u.2 = v !!! u.1)).
  - intros x y Hx Hy. by rewrite Hx, Hy.
  - apply Forall_forall. intros [i x] Hin. simpl.
    unfold sorted_by_float in Hin. rewrite stable_sort_elem in Hin.
    by apply enumerate_elem.
  - apply sorted_by_float_sorted.
Qed.

Lemma ranked_terms_ranked names (v : list R) (k : Z) :
  (0 ≤ k)%Z → ranked k (ranked_terms names v k).
Proof.
  intros Hk. unfold ranked, ranked_terms. to_fmap. split; [|split].
  - rewrite length_fmap.
    etrans; [apply filter_length_le|].
    rewrite slice_to_take, length_take. unfold slice_len.
    assert ((k <? 0)%Z = false) as -> by lia. lia.
  - apply Forall_fmap, Forall_forall. intros i Hi.
    apply filter_elem in Hi as [_ Hi]. by apply bool_decide_eq_true in Hi.
  - apply (StronglySorted_fmap _ (λ i j, (v !!! j <= v !!! i)%R)); [done|].
    apply StronglySorted_filter. rewrite slice_to_take.
    pose proof (StronglySorted_rev _ _ (argsort_sorted v)) as H.
    rewrite <- (take_drop (slice_len k (length (reverse (argsort v))))
                  (reverse (argsort v))) in H.
    by apply StronglySorted_app_1_l in H.
Qed.

End RankingFacts.

(** X7. A comparison returns exactly when some term (a token or a pair of
    neighbouring tokens) occurs in one of the two texts and not in the
    other; otherwise it raises. *)
Theorem compare_texts_returns_iff (janome : text → list text) (t1 t2 : text) (k : Z) :
  (∃ r, compare_texts janome t1 t2 k = inr r)
  ↔ ∃ term,
      ((term ∈ analyze (tokenize janome) t1) ∧ (term ∉ analyze (tokenize janome) t2))
      ∨ ((term ∉ analyze (tokenize janome) t1) ∧ (term ∈ analyze (tokenize janome) t2)).
Proof.
  rewrite compare_texts_eq. split.
  - intros [r Hr].
    destruct (fit_vocabulary _ _ _ _ _) as [e|names] eqn:Hfit; [done|].
    destruct (fit_vocabulary_inr _ _ _ _ _ _ Hfit) as (_ & Hne & _).
    destruct names as [|term names]; [done|]. exists term.
    apply (kept_in_one_text janome t1 t2 _ term Hfit), list_elem_of_here.
  - intros (term & Hterm). rewrite fit_vocabulary_eq.
    assert (Hfull : term ∈ full_vocabulary (tokenize janome) [t1; t2]).
    { apply full_vocabulary_elem. destruct Hterm as [[H _]|[_ H]].
      - exists t1. split; [apply list_elem_of_here | done].
      - exists t2. split; [apply list_elem_of_further, list_elem_of_here | done]. }
    destruct (full_vocabulary (tokenize janome) [t1; t2]) as [|y v] eqn:Ev.
    { by apply elem_of_nil in Hfull. }
    change (95 * length [t1; t2] <? 1 * 100) with false. cbv iota. rewrite <- Ev.
    assert (Hkept : term ∈ List.filter (keeps (tokenize janome) 1 95 100 [t1; t2])
                             (full_vocabulary (tokenize janome) [t1; t2])).
    { apply filter_elem. split; [by rewrite Ev|].
      unfold keeps, doc_freq. cbn [map List.filter].
      destruct Hterm as [[Hin Hout]|[Hout Hin]];
        rewrite (bool_decide_eq_true_2 _ Hin), (bool_decide_eq_false_2 _ Hout); done. }
    destruct (List.filter _ _) as [|z kept]; [by apply elem_of_nil in Hkept|].
    cbv zeta. eauto.
Qed.

(** X8. For a count [top_terms >= 0], each of the three lists of a
    comparison has at most [top_terms] entries, holds positive weights
    only, and is in descending order of weight. *)
Theorem compare_buckets_ranked (janome : text → list text) (t1 t2 : text) (k : Z)
    (r : CompareResult) :
  compare_texts janome t1 t2 k = inr r →
  (0 ≤ k)%Z →
  ranked k (common_terms r) ∧ ranked k (doc1_unique_terms r)
  ∧ ranked k (doc2_unique_terms r).
Proof.
  unfold compare_texts. destruct (vectorize janome [t1; t2]) as [e|[names X]]; [done|].
  intros [= <-] Hk. cbn [common_terms doc1_unique_terms doc2_unique_terms].
  repeat split; try (by apply ranked_terms_ranked).
Qed.

Lemma compare_buckets_ranked_witness :
  ∃ r, compare_texts no_segmenter (py "the cat sat on the mat")
         (py "the dog sat on the mat") 1 = inr r
       ∧ ranked 1 (common_terms r) ∧ ranked 1 (doc1_unique_terms r)
       ∧ ranked 1 (doc2_unique_terms r).
Proof.
  assert (E : fit_vocabulary (tokenize no_segmenter) 1 95 100
                [py "the cat sat on the mat"; py "the dog sat on the mat"]
              = inr [py "cat"; py "cat sat"; py "dog"; py "dog sat"])
    by (vm_compute; reflexivity).
  pose proof (compare_texts_eq no_segmenter (py "the cat sat on the mat")
                (py "the dog sat on the mat") 1) as H.
  rewrite E in H. cbv zeta in H.
  eexists. split; [exact H|].
  apply (compare_buckets_ranked no_segmenter _ _ _ _ H). lia.
Defined.

(** ** More on the similarity matrix *)

Section MatrixFacts.
Variable janome : text → list text.

Lemma vectorize_eq texts :
  vectorize janome texts =
  match fit_vocabulary (tokenize janome) 1 95 100 texts with
  | inl e => inl e
  | inr names =>
      inr (names, map (tfidf_row (map (analyze (tokenize janome)) texts) names)
                      (map (analyze (tokenize janome)) texts))
  end.
Proof. done. Qed.

Lemma filter_all_true {A} (f : A → bool) (l : list A) :
  (∀ x, x ∈ l → f x = true) → List.filter f l = l.
Proof.
  induction l as [|x l IH]; intros H; [done|]. simpl.
  rewrite (H x) by apply list_elem_of_here. f_equal. apply IH.
  intros y Hy. apply H. by apply list_elem_of_further.
Qed.

Lemma Rsum_nonneg_zero (l : list R) :
  Forall (λ x, (0 <= x)%R) l → Rsum l = 0%R → Forall (λ x, x = 0%R) l.
Proof.
  induction 1 as [|x l Hx Hl IH]; [done|]. simpl. intros H.
  pose proof (Rsum_nonneg l Hl). constructor; [lra|]. apply IH. lra.
Qed.

(** An entry of the matrix is the sum, over the vocabulary, of the
    products of the two weights. *)
Lemma pairwise_entry texts names M i j :
  fit_vocabulary (tokenize janome) 1 95 100 texts = inr names →
  pairwise_similarity janome texts = inr M →
  i < length texts → j < length texts →
  (M !!! i) !!! j
  = Rsum ((λ t, (weight (map (analyze (tokenize janome)) texts) names
                        (analyze (tokenize janome) (texts !!! i)) t
                 * weight (map (analyze (tokenize janome)) texts) names
                          (analyze (tokenize janome) (texts !!! j)) t)%R) <$> names).
Proof.
  intros Hfit HM Hi Hj. rewrite pairwise_similarity_eq, Hfit in HM.
  cbv zeta in HM. injection HM as <-.
  set (all_feats := map (analyze (tokenize janome)) texts).
  assert (Hlen : length all_feats = length texts) by apply length_map.
  assert (Hrow : ∀ i, i < length texts →
            all_feats !!! i = analyze (tokenize janome) (texts !!! i)).
  { intros i' Hi'. unfold all_feats. to_fmap. apply list_lookup_total_correct.
    by rewrite list_lookup_fmap, (list_lookup_lookup_total_lt texts i' Hi'). }
  rewrite cosine_entry by lia. rewrite !tfidf_row_eq, dot_fmap, !Hrow by done.
  done.
Qed.

Lemma pairwise_shape texts M :
  pairwise_similarity janome texts = inr M →
  length M = length texts ∧ square M.
Proof.
  rewrite pairwise_similarity_eq.
  destruct (fit_vocabulary _ _ _ _ _) as [e|names]; [done|].
  cbv zeta. intros [= <-]. unfold cosine_similarity, square.
  split; [by rewrite !length_map|].
  to_fmap. apply Forall_fmap, Forall_forall. intros x _. simpl.
  by rewrite !length_fmap.
Qed.

End MatrixFacts.

(** X9. The matrix needs two texts: with none, and with one text without
    tokens, the vocabulary is empty; with one text that has tokens,
    [max_df] (0.95 of one document) is below [min_df]. Either way
    [pairwise_similarity] raises. *)
Theorem pairwise_similarity_needs_two (janome : text → list text) :
  pairwise_similarity janome [] = inl EmptyVocabulary
  ∧ ∀ t, pairwise_similarity janome [t]
         = inl (match tokenize janome t with
                | [] => EmptyVocabulary
                | _ => MaxDfBelowMinDf
                end).
Proof.
  split; [done|]. intros t.
  rewrite pairwise_similarity_eq, fit_vocabulary_eq.
  destruct (full_vocabulary (tokenize janome) [t]) as [|x l] eqn:Ev.
  - destruct (tokenize janome t) as [|y toks] eqn:Et; [done|].
    assert (H : y ∈ full_vocabulary (tokenize janome) [t]).
    { apply full_vocabulary_elem. exists t. split; [apply list_elem_of_here|].
      unfold analyze. rewrite Et. apply list_elem_of_here. }
    rewrite Ev in H. by apply elem_of_nil in H.
  - change (95 * length [t] <? 1 * 100) with true. cbv iota.
    destruct (tokenize janome t) as [|y toks] eqn:Et; [|done].
    assert (H : x ∈ full_vocabulary (tokenize janome) [t]).
    { rewrite Ev. apply list_elem_of_here. }
    apply full_vocabulary_elem in H as (doc & Hdoc & Hx).
    apply list_elem_of_singleton in Hdoc as ->.
    unfold analyze in Hx. rewrite Et in Hx. by apply elem_of_nil in Hx.
Qed.

(** X10. A term of the fitted vocabulary occurs in at least one text and
    in at most 95 of 100 texts; so a term that occurs in every text is
    never in the vocabulary, however many texts there are. *)
Theorem vocabulary_excludes_shared (janome : text → list text) (texts : list text)
    (names : list text) (X : list (list R)) (term : text) :
  vectorize janome texts = inr (names, X) →
  term ∈ names →
  1 ≤ doc_freq (map (analyze (tokenize janome)) texts) term
  ∧ 100 * doc_freq (map (analyze (tokenize janome)) texts) term ≤ 95 * length texts
  ∧ (∃ doc, doc ∈ texts ∧ term ∈ analyze (tokenize janome) doc)
  ∧ (∃ doc, doc ∈ texts ∧ term ∉ analyze (tokenize janome) doc).
Proof.
  rewrite vectorize_eq.
  destruct (fit_vocabulary _ _ _ _ _) as [e|names'] eqn:Hfit; [done|].
  intros [= <- _] Hterm.
  apply fit_vocabulary_inr in Hfit as (-> & _ & _).
  apply filter_elem in Hterm as [Hfull Hk]. unfold keeps in Hk.
  apply andb_prop in Hk as [H1 H2]. apply Nat.leb_le in H1, H2.
  split; [done|]. split; [lia|]. split; [by apply full_vocabulary_elem|].
  apply full_vocabulary_elem in Hfull as (doc0 & Hdoc0 & _).
  destruct (decide (Forall (λ doc, term ∈ analyze (tokenize janome) doc) texts))
    as [Hall|Hsome].
  - exfalso.
    assert (doc_freq (map (analyze (tokenize janome)) texts) term = length texts).
    { unfold doc_freq. rewrite filter_all_true; [apply length_map|].
      intros f Hf. apply list_elem_of_In, in_map_iff in Hf as (doc & <- & Hdoc).
      apply bool_decide_eq_true. rewrite Forall_forall in Hall.
      by apply Hall, list_elem_of_In. }
    destruct texts; [by apply elem_of_nil in Hdoc0 | simpl in *; lia].
  - apply not_Forall_Exists in Hsome; [|apply _].
    apply Exists_exists in Hsome as (doc & Hdoc & Hnot). by exists doc.
Qed.

Lemma vocabulary_excludes_shared_witness :
  ∃ doc, doc ∈ [py "cat"; py "dog"; py "cat dog"]
         ∧ (py "cat" ∉ analyze (tokenize no_segmenter) doc).
Proof.
  assert (E : fit_vocabulary (tokenize no_segmenter) 1 95 100
                [py "cat"; py "dog"; py "cat dog"]
              = inr [py "cat"; py "cat dog"; py "dog"])
    by (vm_compute; reflexivity).
  pose proof (vectorize_eq no_segmenter [py "cat"; py "dog"; py "cat dog"]) as H.
  rewrite E in H.
  apply (vocabulary_excludes_shared no_segmenter _ _ _ (py "cat") H).
  apply list_elem_of_here.
Defined.

(** X11. Two texts have similarity 0 exactly when they share no term of
    the fitted vocabulary. *)
Theorem pairwise_entry_zero_iff (janome : text → list text) (texts : list text)
    (names : list text) (X M : list (list R)) (i j : nat) :
  vectorize janome texts = inr (names, X) →
  pairwise_similarity janome texts = inr M →
  i < length texts → j < length texts →
  (M !!! i) !!! j = 0%R
  ↔ ∀ term, term ∈ names →
      term ∈ analyze (tokenize janome) (texts !!! i) →
      term ∉ analyze (tokenize janome) (texts !!! j).
Proof.
  rewrite vectorize_eq.
  destruct (fit_vocabulary _ _ _ _ _) as [e|names'] eqn:Hfit; [done|].
  intros [= <- _] HM Hi Hj.
  rewrite (pairwise_entry janome texts names' M i j Hfit HM Hi Hj).
  set (all_feats := map (analyze (tokenize janome)) texts).
  split.
  - intros H term Hterm Hin Hin'.
    apply Rsum_nonneg_zero in H.
    + rewrite Forall_fmap, Forall_forall in H. specialize (H term Hterm). simpl in H.
      pose proof (weight_present all_feats names' _ term Hin).
      pose proof (weight_present all_feats names' _ term Hin'). nra.
    + apply Forall_fmap, Forall_forall. intros t _. simpl.
      apply Rmult_le_pos; apply weight_nonneg.
  - intros H. apply Rsum_zero, Forall_fmap, Forall_forall. intros t Ht. simpl.
    destruct (decide (t ∈ analyze (tokenize janome) (texts !!! i))) as [Hin|Hout].
    + rewrite (weight_absent _ _ (analyze (tokenize janome) (texts !!! j)))
        by by apply H. lra.
    + rewrite (weight_absent _ _ (analyze (tokenize janome) (texts !!! i))) by done.
      lra.
Qed.

Lemma pairwise_entry_zero_iff_witness :
  ∃ M, pairwise_similarity no_segmenter [py "cat"; py "dog"; py "cat dog"] = inr M
       ∧ ((M !!! 0) !!! 1 = 0%R
          ↔ ∀ term, term ∈ [py "cat"; py "cat dog"; py "dog"] →
              term ∈ analyze (tokenize no_segmenter)
                       ([py "cat"; py "dog"; py "cat dog"] !!! 0) →
              term ∉ analyze (tokenize no_segmenter)
                       ([py "cat"; py "dog"; py "cat dog"] !!! 1)).
Proof.
  assert (E : fit_vocabulary (tokenize no_segmenter) 1 95 100
                [py "cat"; py "dog"; py "cat dog"]
              = inr [py "cat"; py "cat dog"; py "dog"])
    by (vm_compute; reflexivity).
  pose proof (vectorize_eq no_segmenter [py "cat"; py "dog"; py "cat dog"]) as Hv.
  pose proof (pairwise_similarity_eq no_segmenter [py "cat"; py "dog"; py "cat dog"]) as H.
  rewrite E in Hv, H. cbv zeta in H.
  eexists. split; [exact H|].
  apply (pairwise_entry_zero_iff no_segmenter _ _ _ _ 0 1 Hv H); simpl; lia.
Defined.

(** ** From texts to graph edges *)

Section GraphOfTexts.
Variable janome : text → list text.

Lemma pairwise_entry_nonneg texts M i j :
  pairwise_similarity janome texts = inr M →
  i < length texts → j < length texts →
  (0 <= (M !!! i) !!! j)%R.
Proof.
  rewrite pairwise_similarity_eq.
  destruct (fit_vocabulary _ _ _ _ _) as [e|names]; [done|].
  cbv zeta. intros [= <-] Hi Hj.
  set (all_feats := map (analyze (tokenize janome)) texts).
  assert (Hlen : length all_feats = length texts) by apply length_map.
  rewrite !cosine_entry by lia.
  apply dot_nonneg; apply tfidf_row_nonneg.
Qed.

Lemma pairwise_entry_pos texts names M i j :
  fit_vocabulary (tokenize janome) 1 95 100 texts = inr names →
  pairwise_similarity janome texts = inr M →
  i < length texts → j < length texts →
  (0 < (M !!! i) !!! j)%R →
  ∃ term, term ∈ names
          ∧ term ∈ analyze (tokenize janome) (texts !!! i)
          ∧ term ∈ analyze (tokenize janome) (texts !!! j).
Proof.
  intros Hfit HM Hi Hj Hpos.
  destruct (decide (Exists (λ t, t ∈ analyze (tokenize janome) (texts !!! i)
                                 ∧ t ∈ analyze (tokenize janome) (texts !!! j))
                           names)) as [Hex|Hno].
  { apply Exists_exists in Hex as (t & Ht & H1 & H2). by exists t. }
  exfalso. rewrite (pairwise_entry janome texts names M i j Hfit HM Hi Hj) in Hpos.
  rewrite Rsum_zero in Hpos; [lra|].
  apply Forall_fmap, Forall_forall. intros t Ht. simpl.
  set (all_feats := map (analyze (tokenize janome)) texts).
  destruct (decide (t ∈ analyze (tokenize janome) (texts !!! i))) as [Hin|Hout].
  - rewrite (weight_absent _ _ (analyze (tokenize janome) (texts !!! j))); [lra|].
    intros Hin'. apply Hno, Exists_exists. by exists t.
  - rewrite (weight_absent _ _ (analyze (tokenize janome) (texts !!! i))) by done.
    lra.
Qed.

End GraphOfTexts.

(** X12. The graph command feeds the similarity matrix to [build_edges]:
    whenever the matrix exists the edges exist too (no index is out of
    range), there is an edge for exactly the pairs [i < j] of texts whose
    similarity reaches the threshold, no weight is negative, and with a
    positive threshold an edge joins two texts that share a term of the
    fitted vocabulary.  (No upper bound on the weights is stated: the
    exact values are at most 1, their floats can exceed it.) *)
Theorem build_edges_of_pairwise_similarity (janome : text → list text)
    (texts : list text) (names : list text) (X M : list (list R)) (threshold : R) :
  vectorize janome texts = inr (names, X) →
  pairwise_similarity janome texts = inr M →
  ∃ edges,
    Graphing.build_edges M threshold = Some edges
    ∧ (∀ e, e ∈ edges ↔
         Graphing.a e < Graphing.b e < length texts
         ∧ Graphing.weight e = (M !!! Graphing.a e) !!! Graphing.b e
         ∧ (threshold <= Graphing.weight e)%R)
    ∧ (∀ e, e ∈ edges → (0 <= Graphing.weight e)%R)
    ∧ ((0 < threshold)%R → ∀ e, e ∈ edges →
         ∃ term, term ∈ names
                 ∧ term ∈ analyze (tokenize janome) (texts !!! Graphing.a e)
                 ∧ term ∈ analyze (tokenize janome) (texts !!! Graphing.b e)).
Proof.
  rewrite vectorize_eq.
  destruct (fit_vocabulary _ _ _ _ _) as [e|names'] eqn:Hfit; [done|].
  intros [= <- _] HM.
  destruct (pairwise_shape janome texts M HM) as [Hlen Hsq].
  eexists. split; [by apply build_edges_square|].
  assert (Hmem : ∀ e,
    e ∈ sorted_by_float_reverse Graphing.weight
          (List.filter (λ e, bool_decide (threshold <= Graphing.weight e)%R)
                       (edge_of M <$> Graphing.upper_triangle (length M)))
    ↔ Graphing.a e < Graphing.b e < length texts
      ∧ Graphing.weight e = (M !!! Graphing.a e) !!! Graphing.b e
      ∧ (threshold <= Graphing.weight e)%R).
  { intros e. unfold sorted_by_float_reverse.
    rewrite stable_sort_elem, filter_elem, list_elem_of_fmap, <- Hlen. split.
    - intros [([i j] & -> & Hp) Hth]. apply upper_triangle_elem in Hp.
      apply bool_decide_eq_true in Hth. by simpl in *.
    - intros (Hij & Hw & Hth). split; [|by apply bool_decide_eq_true].
      exists (Graphing.a e, Graphing.b e). split; [|by apply upper_triangle_elem].
      destruct e as [i j w]. unfold edge_of. simpl in *. by rewrite Hw. }
  assert (Hbound : ∀ e,
    e ∈ sorted_by_float_reverse Graphing.weight
          (List.filter (λ e, bool_decide (threshold <= Graphing.weight e)%R)
                       (edge_of M <$> Graphing.upper_triangle (length M)))
    → (0 <= Graphing.weight e)%R).
  { intros e He. apply Hmem in He as (Hij & -> & _).
    apply (pairwise_entry_nonneg janome texts); (done || lia). }
  split; [exact Hmem|]. split; [exact Hbound|].
  intros Hth e He. apply Hmem in He as (Hij & Hw & Hle).
  apply (pairwise_entry_pos janome texts names' M); try (done || lia).
  rewrite <- Hw. lra.
Qed.

Lemma build_edges_of_pairwise_similarity_witness :
  ∃ edges : list Graphing.Edge,
    (∀ e, e ∈ edges → (0 <= Graphing.weight e)%R)
           ∧ (∀ e, e ∈ edges ↔
                Graphing.a e < Graphing.b e < 3
                ∧ (∃ M, pairwise_similarity no_segmenter
                          [py "cat"; py "dog"; py "cat dog"] = inr M
                        ∧ Graphing.weight e = (M !!! Graphing.a e) !!! Graphing.b e)
                ∧ (1 / 10 <= Graphing.weight e)%R).
Proof.
  assert (E : fit_vocabulary (tokenize no_segmenter) 1 95 100
                [py "cat"; py "dog"; py "cat dog"]
              = inr [py "cat"; py "cat dog"; py "dog"])
    by (vm_compute; reflexivity).
  pose proof (vectorize_eq no_segmenter [py "cat"; py "dog"; py "cat dog"]) as Hv.
  pose proof (pairwise_similarity_eq no_segmenter [py "cat"; py "dog"; py "cat dog"]) as H.
  rewrite E in Hv, H. cbv zeta in H.
  destruct (build_edges_of_pairwise_similarity no_segmenter _ _ _ _ (1 / 10)%R Hv H)
    as (edges & _ & Hmem & Hbound & _).
  exists edges. split; [exact Hbound|]. intros e. rewrite Hmem. simpl length.
  split.
  - intros (? & ? & ?). split; [done|]. split; [|done]. eexists. split; [exact H|done].
  - intros (? & (M' & HM' & ?) & ?). split; [done|]. split; [|done].
    rewrite H in HM'. by injection HM' as <-.
Defined.

(** ** Normalising white space *)

Section NormalizeFacts.

Lemma visible_replace s : visible (replace CR [LF] s) = visible s.
Proof.
  induction s as [|c s IH]; [done|]. unfold replace in *. simpl.
  destruct (c =? CR)%N eqn:E.
  - apply N.eqb_eq in E as ->. simpl. exact IH.
  - rewrite visible_app, IH. simpl. by destruct (isspace c).
Qed.

Lemma text_length_ind (P : text → Prop) :
  (∀ s, (∀ s', length s' < length s → P s') → P s) → ∀ s, P s.
Proof.
  intros H s. remember (length s) as n eqn:En.
  revert s En. induction n as [n IH] using lt_wf_ind.
  intros s ->. apply H. intros s' Hs'. by apply (IH (length s')).
Qed.

Lemma visible_replace_pair s : visible (replace_pair CR LF [LF] s) = visible s.
Proof.
  induction s as [s IH] using text_length_ind.
  destruct s as [|c rest]; [done|]. simpl.
  destruct (c =? CR)%N eqn:Ec.
  - apply N.eqb_eq in Ec as ->.
    destruct rest as [|d rest']; [done|].
    destruct (d =? LF)%N eqn:Ed.
    + apply N.eqb_eq in Ed as ->. simpl. apply IH. simpl. lia.
    + change (visible (CR :: ?x)) with (visible x).
      apply IH. simpl. lia.
  - unfold visible in *. simpl. by rewrite IH by (simpl; lia).
Qed.

Lemma visible_sub_blank_lines s : ∀ run, visible (sub_blank_lines run s) = visible s.
Proof.
  induction s as [|c s IH]; intros run; [done|]. simpl.
  destruct (c =? LF)%N eqn:Ec.
  - apply N.eqb_eq in Ec as ->.
    destruct (run <? 2); simpl; apply IH.
  - unfold visible in *. simpl. rewrite IH. done.
Qed.

Lemma visible_join (ls : list text) : visible (join [LF] ls) = visible (concat ls).
Proof.
  induction ls as [|p [|q ps] IH]; [done| |].
  - simpl. by rewrite app_nil_r.
  - rewrite join_cons. cbn [concat]. rewrite !visible_app, IH.
    cbn [concat]. by rewrite visible_app.
Qed.

Lemma visible_split_from s : ∀ cur,
  visible (concat (map strip (split_from LF cur s))) = visible (reverse cur ++ s).
Proof.
  induction s as [|c s IH]; intros cur.
  - simpl. by rewrite !app_nil_r, visible_strip.
  - simpl. destruct (c =? LF)%N eqn:Ec.
    + apply N.eqb_eq in Ec as ->. cbn [map concat].
      rewrite !visible_app, visible_strip, IH. done.
    + rewrite IH, reverse_cons, <- app_assoc. done.
Qed.

End NormalizeFacts.

(** X13. Normalising white space touches white space only: the characters
    that are no white space come out unchanged and in order. *)
Theorem normalize_whitespace_keeps_visible (t : text) :
  visible (normalize_whitespace t) = visible t.
Proof.
  unfold normalize_whitespace.
  rewrite visible_strip, visible_join.
  unfold split. rewrite visible_split_from. simpl.
  by rewrite visible_sub_blank_lines, visible_replace, visible_replace_pair.
Qed.

Section SplitJoinFacts.

Lemma split_from_cur sep s : ∀ cur,
  split_from sep cur s =
  match split_from sep [] s with
  | l0 :: rest => (reverse cur ++ l0) :: rest
  | [] => [reverse cur]
  end.
Proof.
  induction s as [|c s IH]; intros cur.
  - simpl. by rewrite app_nil_r.
  - simpl. destruct (c =? sep)%N; [by rewrite app_nil_r|].
    rewrite (IH (c :: cur)), (IH [c]).
    destruct (split_from sep [] s) as [|l0 rest];
      by rewrite reverse_cons, <- ?app_assoc.
Qed.

Lemma split_nonempty sep s : split sep s ≠ [].
Proof.
  unfold split. rewrite split_from_cur.
  destruct (split_from sep [] s); intros ?; discriminate.
Qed.

Lemma split_cons sep c s :
  split sep (c :: s) =
  if (c =? sep)%N then [] :: split sep s
  else match split sep s with
       | l0 :: rest => (c :: l0) :: rest
       | [] => [[c]]
       end.
Proof.
  unfold split. simpl. destruct (c =? sep)%N; [done|].
  rewrite split_from_cur. by destruct (split_from sep [] s).
Qed.

Lemma split_sepfree sep s : Forall (λ l, sep ∉ l) (split sep s).
Proof.
  induction s as [|c s IH].
  - repeat constructor. apply not_elem_of_nil.
  - rewrite split_cons. destruct (c =? sep)%N eqn:E.
    + constructor; [apply not_elem_of_nil | done].
    + apply N.eqb_neq in E.
      destruct (split sep s) as [|l0 rest].
      * repeat constructor. intros H. apply list_elem_of_singleton in H. congruence.
      * inversion IH as [|? ? H0 Hrest]; subst. constructor; [|done].
        intros H. apply elem_of_cons in H as [H|H]; [congruence | done].
Qed.

Lemma join_split sep s : join [sep] (split sep s) = s.
Proof.
  induction s as [|c s IH]; [done|].
  rewrite split_cons. pose proof (split_nonempty sep s) as Hne.
  destruct (c =? sep)%N eqn:E.
  - apply N.eqb_eq in E as ->.
    destruct (split sep s) as [|l0 rest]; [done|].
    rewrite join_cons, IH. done.
  - destruct (split sep s) as [|l0 [|l1 rest]]; [done| |].
    + simpl in *. by rewrite IH.
    + rewrite join_cons. rewrite join_cons in IH. by rewrite <- IH.
Qed.

Lemma split_app_sep sep (p s : text) :
  sep ∉ p → split sep (p ++ sep :: s) = p :: split sep s.
Proof.
  induction p as [|c p IH]; intros Hp.
  - simpl. rewrite split_cons. by rewrite N.eqb_refl.
  - rewrite not_elem_of_cons in Hp. destruct Hp as [Hc Hp].
    simpl. rewrite split_cons.
    destruct (c =? sep)%N eqn:E; [apply N.eqb_eq in E; congruence|].
    by rewrite IH.
Qed.

Lemma split_sepfree_one sep (p : text) : sep ∉ p → split sep p = [p].
Proof.
  induction p as [|c p IH]; intros Hp; [done|].
  rewrite not_elem_of_cons in Hp. destruct Hp as [Hc Hp].
  rewrite split_cons.
  destruct (c =? sep)%N eqn:E; [apply N.eqb_eq in E; congruence|].
  by rewrite IH.
Qed.

Lemma split_join sep (ls : list text) :
  ls ≠ [] → Forall (λ l, sep ∉ l) ls → split sep (join [sep] ls) = ls.
Proof.
  induction ls as [|p [|q ps] IH]; intros Hne Hls; [done| |].
  - inversion Hls; subst. simpl. by apply split_sepfree_one.
  - inversion Hls as [|? ? Hp Hls']; subst.
    rewrite join_cons.
    change (p ++ [sep] ++ join [sep] (q :: ps))
      with (p ++ sep :: join [sep] (q :: ps)).
    rewrite split_app_sep by done. by rewrite IH.
Qed.

Lemma join_snoc sep (ls : list text) (l : text) :
  ls ≠ [] → join sep (ls ++ [l]) = join sep ls ++ sep ++ l.
Proof.
  induction ls as [|p [|q ps] IH]; intros Hne; [done|done|].
  change ((p :: q :: ps) ++ [l]) with (p :: q :: (ps ++ [l])).
  rewrite !join_cons. change (q :: ps ++ [l]) with ((q :: ps) ++ [l]).
  rewrite IH by done. by rewrite <- !app_assoc.
Qed.

Lemma reverse_join (ls : list text) :
  reverse (join [LF] ls) = join [LF] (reverse (map reverse ls)).
Proof.
  induction ls as [|p [|q ps] IH]; [done|done|].
  rewrite join_cons, !reverse_app, IH.
  change (map reverse (p :: q :: ps)) with (reverse p :: map reverse (q :: ps)).
  rewrite (reverse_cons (map reverse (q :: ps))).
  rewrite join_snoc; [by rewrite <- app_assoc|].
  simpl. rewrite reverse_cons. by destruct (reverse (map reverse ps)).
Qed.

Lemma split_reverse s :
  split LF (reverse s) = reverse (map reverse (split LF s)).
Proof.
  rewrite <- (join_split LF s) at 1. rewrite reverse_join.
  apply split_join.
  - pose proof (split_nonempty LF s). destruct (split LF s) as [|l0 rest]; [done|].
    simpl. rewrite reverse_cons. by destruct (reverse (map reverse rest)).
  - apply Forall_reverse. to_fmap. apply Forall_fmap.
    eapply Forall_impl; [apply split_sepfree|].
    intros l Hl. simpl. by rewrite elem_of_reverse.
Qed.

Lemma trimmed_reverse (l : text) : trimmed l → trimmed (reverse l).
Proof.
  intros [H1 H2]. split; intros c.
  - rewrite head_reverse. apply H2.
  - rewrite last_reverse. apply H1.
Qed.

Lemma lstrip_lines s :
  Forall trimmed (split LF s) → Forall trimmed (split LF (lstrip s)).
Proof.
  induction s as [|c s IH]; [done|]. intros H. simpl.
  destruct (isspace c) eqn:Ec; [|done].
  rewrite split_cons in H. destruct (c =? LF)%N.
  - inversion H; subst. by apply IH.
  - exfalso. destruct (split LF s) as [|l0 rest]; inversion H as [|? ? [Hh _] _]; subst.
    + specialize (Hh c eq_refl). congruence.
    + specialize (Hh c eq_refl). congruence.
Qed.

Lemma strip_lines s :
  Forall trimmed (split LF s) → Forall trimmed (split LF (strip s)).
Proof.
  intros H. apply lstrip_lines in H.
  unfold strip, rstrip. set (u := lstrip s) in *.
  rewrite split_reverse. apply Forall_reverse. to_fmap. apply Forall_fmap.
  assert (H' : Forall trimmed (split LF (reverse u))).
  { rewrite split_reverse. apply Forall_reverse. to_fmap. apply Forall_fmap.
    eapply Forall_impl; [exact H|]. intros l. apply trimmed_reverse. }
  apply lstrip_lines in H'.
  eapply Forall_impl; [exact H'|]. intros l. apply trimmed_reverse.
Qed.

Lemma join_elem_piece sep (ls : list text) l c :
  l ∈ ls → c ∈ l → c ∈ join sep ls.
Proof.
  induction ls as [|p [|q ps] IH]; intros Hl Hc.
  - by apply elem_of_nil in Hl.
  - apply list_elem_of_singleton in Hl as ->. done.
  - rewrite join_cons, !elem_of_app.
    apply elem_of_cons in Hl as [->|Hl]; [by left|].
    right. right. by apply IH.
Qed.

Lemma join_elem (ls : list text) c :
  c ∈ join [LF] ls → c = LF ∨ ∃ l, l ∈ ls ∧ c ∈ l.
Proof.
  induction ls as [|p [|q ps] IH]; intros Hc.
  - by apply elem_of_nil in Hc.
  - right. exists p. split; [apply list_elem_of_here | done].
  - rewrite join_cons, !elem_of_app in Hc. destruct Hc as [Hc|[Hc|Hc]].
    + right. exists p. split; [apply list_elem_of_here | done].
    + left. by apply list_elem_of_singleton in Hc.
    + destruct (IH Hc) as [->|(l & Hl & Hcl)]; [by left|].
      right. exists l. split; [by apply list_elem_of_further | done].
Qed.

Lemma split_elem sep s l c : l ∈ split sep s → c ∈ l → c ∈ s.
Proof.
  intros Hl Hc. rewrite <- (join_split sep s). by apply (join_elem_piece _ _ l).
Qed.

End SplitJoinFacts.

Section NormalizeShape.

Lemma replace_pair_elem s c :
  c ∈ replace_pair CR LF [LF] s → c ∈ s ∨ c = LF.
Proof.
  induction s as [s IH] using text_length_ind.
  destruct s as [|x rest]; [by left|]. simpl.
  destruct (x =? CR)%N.
  - destruct rest as [|d rest']; [by left|].
    destruct (d =? LF)%N.
    + rewrite elem_of_cons. intros [H|H].
      * by right.
      * destruct (IH rest' ltac:(simpl; lia) H) as [?|?]; [left|by right].
        by do 2 apply list_elem_of_further.
    + rewrite elem_of_cons. intros [->|H]; [left; apply list_elem_of_here|].
      destruct (IH (d :: rest') ltac:(simpl; lia) H) as [?|?]; [left|by right].
      by apply list_elem_of_further.
  - rewrite elem_of_cons. intros [->|H]; [left; apply list_elem_of_here|].
    destruct (IH rest ltac:(simpl; lia) H) as [?|?]; [left|by right].
    by apply list_elem_of_further.
Qed.

Lemma replace_elem s c :
  c ∈ replace CR [LF] s → c ≠ CR ∧ (c ∈ s ∨ c = LF).
Proof.
  unfold replace. intros H. apply list_elem_of_In, in_flat_map in H as (x & Hx & Hc).
  apply list_elem_of_In in Hx. destruct (x =? CR)%N eqn:E.
  - destruct Hc as [<-|[]]. split; [done | by right].
  - destruct Hc as [<-|[]]. apply N.eqb_neq in E. split; [done | by left].
Qed.

Lemma sub_blank_lines_elem s c : ∀ run, c ∈ sub_blank_lines run s → c ∈ s.
Proof.
  induction s as [|x s IH]; intros run; [done|]. simpl.
  destruct (x =? LF)%N; [destruct (run <? 2)|].
  - rewrite !elem_of_cons. intros [->|H]; [by left | right; by eapply IH].
  - intros H. apply list_elem_of_further. by eapply IH.
  - rewrite !elem_of_cons. intros [->|H]; [by left | right; by eapply IH].
Qed.

Lemma replace_pair_length s : length (replace_pair CR LF [LF] s) ≤ length s.
Proof.
  induction s as [s IH] using text_length_ind.
  destruct s as [|x rest]; [done|]. simpl.
  destruct (x =? CR)%N.
  - destruct rest as [|d rest']; [done|].
    destruct (d =? LF)%N; simpl.
    + pose proof (IH rest' ltac:(simpl; lia)). lia.
    + pose proof (IH (d :: rest') ltac:(simpl; lia)). simpl in *. lia.
  - pose proof (IH rest ltac:(simpl; lia)). simpl. lia.
Qed.

Lemma replace_length s : length (replace CR [LF] s) = length s.
Proof.
  unfold replace. induction s as [|x s IH]; [done|]. simpl.
  rewrite length_app, IH. by destruct (x =? CR)%N.
Qed.

Lemma sub_blank_lines_length s : ∀ run, length (sub_blank_lines run s) ≤ length s.
Proof.
  induction s as [|x s IH]; intros run; [done|]. simpl.
  destruct (x =? LF)%N; [destruct (run <? 2)|]; simpl.
  - pose proof (IH (S run)). lia.
  - pose proof (IH (S run)). lia.
  - pose proof (IH 0). lia.
Qed.

Lemma strip_length s : length (strip s) ≤ length s.
Proof.
  unfold strip.
  pose proof (prefix_length _ _ (rstrip_prefix (lstrip s))).
  pose proof (suffix_length _ _ (lstrip_suffix s)). lia.
Qed.

Lemma join_strip_length (ls : list text) :
  length (join [LF] (map strip ls)) ≤ length (join [LF] ls).
Proof.
  induction ls as [|p [|q ps] IH]; [done| |].
  - apply strip_length.
  - change (map strip (p :: q :: ps)) with (strip p :: strip q :: map strip ps).
    rewrite !join_cons, !length_app. pose proof (strip_length p).
    change (strip q :: map strip ps) with (map strip (q :: ps)). lia.
Qed.

Lemma normalize_whitespace_elem t c :
  c ∈ normalize_whitespace t → c ≠ CR ∧ (c ∈ t ∨ c = LF).
Proof.
  unfold normalize_whitespace.
  set (t' := sub_blank_lines 0 (replace CR [LF] (replace_pair CR LF [LF] t))).
  intros Hc. apply strip_subseteq, join_elem in Hc.
  assert (Hfrom : c ∈ t' → c ≠ CR ∧ (c ∈ t ∨ c = LF)).
  { intros H. apply sub_blank_lines_elem, replace_elem in H as [Hcr [H| ->]].
    - split; [done|]. by apply replace_pair_elem.
    - split; [done | by right]. }
  destruct Hc as [->|(l & Hl & Hcl)]; [split; [done | by right]|].
  apply Hfrom. apply list_elem_of_In, in_map_iff in Hl as (l' & <- & Hl').
  apply list_elem_of_In in Hl'.
  eapply split_elem; [exact Hl' | by apply strip_subseteq].
Qed.

End NormalizeShape.

(** X14. The text [normalize_whitespace] returns is trimmed (so the test
    [not text.strip()] of the ingestion asks whether it is empty), each of
    its lines is trimmed, it holds no carriage return, every character of
    it is a character of the input or a line feed, and it is no longer
    than the input. *)
Theorem normalize_whitespace_shape (t : text) :
  strip (normalize_whitespace t) = normalize_whitespace t
  ∧ Forall trimmed (split LF (normalize_whitespace t))
  ∧ (∀ c, c ∈ normalize_whitespace t → c ≠ CR ∧ (c ∈ t ∨ c = LF))
  ∧ length (normalize_whitespace t) ≤ length t.
Proof.
  unfold normalize_whitespace.
  set (t' := sub_blank_lines 0 (replace CR [LF] (replace_pair CR LF [LF] t))).
  assert (Hfree : Forall (λ l, LF ∉ l) (map strip (split LF t'))).
  { to_fmap. apply Forall_fmap.
    eapply Forall_impl; [apply (split_sepfree LF)|].
    intros l Hl Hin. simpl in *. by apply Hl, strip_subseteq. }
  assert (Hne : map strip (split LF t') ≠ []).
  { pose proof (split_nonempty LF t'). by destruct (split LF t'). }
  split; [|split; [|split]].
  - apply strip_id, strip_trimmed.
  - apply strip_lines. rewrite split_join by done.
    to_fmap. apply Forall_fmap, Forall_forall. intros l _. apply strip_trimmed.
  - apply normalize_whitespace_elem.
  - etrans; [apply strip_length|]. etrans; [apply join_strip_length|].
    rewrite join_split. unfold t'.
    etrans; [apply sub_blank_lines_length|]. rewrite replace_length.
    apply replace_pair_length.
Qed.

(** ** Guessing a title *)

Section TitleFacts.
Variable isalnum : N → bool.

Lemma piece_of_refl s : piece_of s s.
Proof. exists [], []. by rewrite app_nil_r. Qed.

Lemma piece_of_trans a b c : piece_of a b → piece_of b c → piece_of a c.
Proof.
  intros (p1 & q1 & ->) (p2 & q2 & ->). exists (p2 ++ p1), (q1 ++ q2).
  by rewrite <- !app_assoc.
Qed.

Lemma piece_of_cons c part s : piece_of part s → piece_of part (c :: s).
Proof. intros (p & q & ->). by exists (c :: p), q. Qed.

Lemma strip_piece s : piece_of (strip s) s.
Proof.
  unfold strip.
  destruct (rstrip_prefix (lstrip s)) as [post Hpost].
  destruct (lstrip_suffix s) as [pre Hpre].
  exists pre, post. by rewrite <- Hpost.
Qed.

Lemma splitlines_from_piece s : ∀ cur l,
  l ∈ splitlines_from cur s → piece_of l (reverse cur ++ s).
Proof.
  induction s as [s IH] using text_length_ind. intros cur l.
  destruct s as [|c rest].
  - simpl. destruct cur as [|x cur]; [intros H; by apply elem_of_nil in H|].
    intros H. apply list_elem_of_singleton in H as ->.
    rewrite app_nil_r. apply piece_of_refl.
  - assert (Hskip : ∀ tl, length tl < length (c :: rest) →
              (∃ mid, c :: rest = mid ++ tl) →
              l ∈ splitlines_from [] tl → piece_of l (reverse cur ++ c :: rest)).
    { intros tl Hlen (mid & ->) Hl. apply (IH tl Hlen []) in Hl.
      destruct Hl as (p & q & Hpq). simpl in Hpq. rewrite Hpq.
      exists (reverse cur ++ mid ++ p), q. by rewrite <- !app_assoc. }
    simpl. destruct (is_linebreak c) eqn:Ec.
    + rewrite elem_of_cons. intros [->|Hl].
      { exists [], (c :: rest). done. }
      destruct (c =? CR)%N.
      * destruct rest as [|d rest']; [by apply elem_of_nil in Hl|].
        destruct (d =? LF)%N.
        -- apply (Hskip rest'); [simpl; lia | by exists [c; d] | done].
        -- apply (Hskip (d :: rest')); [simpl; lia | by exists [c] | done].
      * apply (Hskip rest); [simpl; lia | by exists [c] | done].
    + intros Hl. apply (IH rest ltac:(simpl; lia)) in Hl.
      by rewrite reverse_cons, <- app_assoc in Hl.
Qed.

Lemma splitlines_from_no_break s : ∀ cur,
  Forall no_break cur → Forall (Forall no_break) (splitlines_from cur s).
Proof.
  induction s as [s IH] using text_length_ind. intros cur Hcur.
  destruct s as [|c rest].
  - simpl. destruct cur; [done|]. repeat constructor. by apply Forall_reverse.
  - simpl. destruct (is_linebreak c) eqn:Ec.
    + constructor; [by apply Forall_reverse|].
      destruct (c =? CR)%N.
      * destruct rest as [|d rest']; [done|].
        destruct (d =? LF)%N; apply IH; simpl; (lia || done).
      * apply IH; simpl; (lia || done).
    + apply IH; [simpl; lia|]. by constructor.
Qed.

Lemma first_title_spec (lines : list text) :
  match first_title isalnum lines with
  | None => Forall (λ l, ¬ title_candidate isalnum (strip l)) lines
  | Some s =>
      ∃ before line after,
        lines = before ++ line :: after
        ∧ s = strip line
        ∧ title_candidate isalnum s
        ∧ Forall (λ l, ¬ title_candidate isalnum (strip l)) before
  end.
Proof.
  induction lines as [|line rest IH]; [simpl; constructor|]. simpl.
  assert (Hskip : ¬ title_candidate isalnum (strip line) →
    match first_title isalnum rest with
    | None => Forall (λ l, ¬ title_candidate isalnum (strip l)) (line :: rest)
    | Some s =>
        ∃ before line0 after,
          line :: rest = before ++ line0 :: after
          ∧ s = strip line0
          ∧ title_candidate isalnum s
          ∧ Forall (λ l, ¬ title_candidate isalnum (strip l)) before
    end).
  { intros Hno. destruct (first_title isalnum rest) as [s|].
    - destruct IH as (before & line0 & after & -> & -> & Hc & Hb).
      exists (line :: before), line0, after.
      split; [done|]. split; [done|]. split; [done|]. by constructor.
    - by constructor. }
  destruct (strip line) as [|x s'] eqn:Es.
  { apply Hskip. by intros [? _]. }
  destruct (140 <? length (x :: s')) eqn:E1.
  { apply Hskip. apply Nat.ltb_lt in E1. intros (_ & ? & _). lia. }
  destruct (length (List.filter isalnum (x :: s')) <? 3) eqn:E2.
  { apply Hskip. apply Nat.ltb_lt in E2. intros (_ & _ & ?). lia. }
  apply Nat.ltb_ge in E1, E2.
  exists [], line, rest. rewrite Es.
  split; [done|]. split; [done|]. split; [|constructor].
  split; [done|]. split; [exact E1 | exact E2].
Qed.

End TitleFacts.

(** X15. The title [guess_title] gives is either the stem of the path,
    when no line of the text qualifies, or the first line that, stripped,
    is not empty, has at most 140 characters and at least three
    alphanumeric ones; such a title is trimmed, holds no line boundary and
    is a contiguous piece of the text. *)
Theorem guess_title_result (isalnum : N → bool) (stem t : text) :
  (guess_title isalnum stem t = stem
   ∧ ∀ line, line ∈ splitlines t → ¬ title_candidate isalnum (strip line))
  ∨ (∃ before line after,
       splitlines t = before ++ line :: after
       ∧ guess_title isalnum stem t = strip line
       ∧ Forall (λ l, ¬ title_candidate isalnum (strip l)) before
       ∧ title_candidate isalnum (strip line)
       ∧ trimmed (strip line)
       ∧ Forall no_break (strip line)
       ∧ piece_of (strip line) t).
Proof.
  unfold guess_title. pose proof (first_title_spec isalnum (splitlines t)) as H.
  destruct (first_title isalnum (splitlines t)) as [s|].
  - right. destruct H as (before & line & after & E & -> & Hc & Hb).
    exists before, line, after.
    split; [done|]. split; [done|]. split; [done|]. split; [done|].
    split; [|split].
    + apply strip_trimmed.
    + apply strip_no_break.
      pose proof (splitlines_from_no_break t [] ltac:(constructor)) as Hnb.
      fold (splitlines t) in Hnb. rewrite E, Forall_app in Hnb.
      destruct Hnb as [_ Hnb]. by inversion Hnb.
    + eapply piece_of_trans; [apply strip_piece|].
      apply (splitlines_from_piece t [] line). fold (splitlines t).
      rewrite E. apply elem_of_app. right. apply list_elem_of_here.
  - left. split; [done|]. by apply Forall_forall.
Qed.

(** ** The text of an HTML page *)

Section HtmlFacts.

Lemma splitlines_from_app (p : text) : ∀ cur s,
  Forall no_break p →
  splitlines_from cur (p ++ s) = splitlines_from (reverse p ++ cur) s.
Proof.
  induction p as [|c p IH]; intros cur s Hp; [done|].
  inversion Hp as [|? ? Hc Hp']; subst. simpl. unfold no_break in Hc. rewrite Hc.
  rewrite IH by done. by rewrite reverse_cons, <- app_assoc.
Qed.

Lemma splitlines_join (ls : list text) :
  Forall (λ l, l ≠ [] ∧ Forall no_break l) ls → splitlines (join [LF] ls) = ls.
Proof.
  unfold splitlines.
  induction ls as [|p [|q ps] IH]; intros Hls; [done| |].
  - inversion Hls as [|? ? [Hne Hp] _]; subst. simpl.
    rewrite <- (app_nil_r p) at 1. rewrite splitlines_from_app by done.
    simpl. rewrite app_nil_r.
    destruct (reverse p) eqn:E; [|by rewrite <- E, reverse_involutive].
    apply (f_equal reverse) in E. rewrite reverse_involutive in E. by subst.
  - inversion Hls as [|? ? [Hne Hp] Hls']; subst.
    rewrite join_cons, splitlines_from_app by done. rewrite app_nil_r.
    change ([LF] ++ ?x) with (LF :: x). cbn [splitlines_from].
    change (is_linebreak LF) with true. change (LF =? CR)%N with false. cbv iota.
    by rewrite reverse_involutive, IH.
Qed.

Lemma no_break_not (l : text) c :
  is_linebreak c = true → Forall no_break l → c ∉ l.
Proof.
  intros Hc Hl Hin. rewrite Forall_forall in Hl.
  specialize (Hl c Hin). unfold no_break in Hl. congruence.
Qed.

Lemma html_lines_shape t :
  Forall (λ l, clean l ∧ Forall no_break l) (html_lines t).
Proof.
  unfold html_lines. apply Forall_forall. intros l Hl.
  apply filter_elem in Hl as [Hl Hne]. apply nonempty_true in Hne.
  apply list_elem_of_In, in_map_iff in Hl as (l' & <- & Hl').
  apply list_elem_of_In in Hl'.
  split; [split; [done | apply strip_trimmed]|].
  apply strip_no_break.
  pose proof (splitlines_from_no_break t [] ltac:(constructor)) as H.
  rewrite Forall_forall in H. by apply H.
Qed.

Lemma html_text_eq t : Extractors.html_text t = join [LF] (html_lines t).
Proof.
  unfold Extractors.html_text. fold (html_lines t). apply strip_join.
  eapply Forall_impl; [apply html_lines_shape|]. by intros l [? _].
Qed.

Lemma replace_pair_absent (s new : text) o1 o2 :
  o1 ∉ s → replace_pair o1 o2 new s = s.
Proof.
  induction s as [|c s IH]; intros H; [done|].
  rewrite not_elem_of_cons in H. destruct H as [Hc Hs]. simpl.
  destruct (c =? o1)%N eqn:E; [apply N.eqb_eq in E; congruence|].
  by rewrite IH.
Qed.

Lemma replace_absent (s new : text) old : old ∉ s → replace old new s = s.
Proof.
  unfold replace. induction s as [|c s IH]; intros H; [done|].
  rewrite not_elem_of_cons in H. destruct H as [Hc Hs]. simpl.
  destruct (c =? old)%N eqn:E; [apply N.eqb_eq in E; congruence|].
  by rewrite IH.
Qed.

Lemma sub_blank_lines_app (p s : text) : ∀ run,
  p ≠ [] → LF ∉ p →
  sub_blank_lines run (p ++ s) = p ++ sub_blank_lines 0 s.
Proof.
  induction p as [|c p IH]; intros run Hne Hp; [done|].
  rewrite not_elem_of_cons in Hp. destruct Hp as [Hc Hp]. simpl.
  destruct (c =? LF)%N eqn:E; [apply N.eqb_eq in E; congruence|].
  f_equal. destruct p as [|d p']; [done|]. by apply IH.
Qed.

Lemma sub_blank_lines_join (ls : list text) run :
  Forall (λ l, l ≠ [] ∧ LF ∉ l) ls →
  sub_blank_lines run (join [LF] ls) = join [LF] ls.
Proof.
  revert run. induction ls as [|p [|q ps] IH]; intros run Hls; [done| |].
  - inversion Hls as [|? ? [Hne Hp] _]; subst. simpl.
    rewrite <- (app_nil_r p). by rewrite sub_blank_lines_app.
  - inversion Hls as [|? ? [Hne Hp] Hls']; subst.
    rewrite join_cons, sub_blank_lines_app by done.
    change ([LF] ++ ?x) with (LF :: x). cbn [sub_blank_lines].
    change (LF =? LF)%N with true. change (0 <? 2) with true. cbv iota.
    by rewrite IH.
Qed.

End HtmlFacts.

(** X16. The text [extract_html] returns is the kept lines joined by line
    feeds (its last [strip] removes nothing); splitting it into lines
    again gives the kept lines back, each of them not empty and trimmed,
    so the text has no blank line; and extracting from it once more
    changes nothing. *)
Theorem html_text_lines (t : text) :
  Extractors.html_text t = join [LF] (html_lines t)
  ∧ splitlines (Extractors.html_text t) = html_lines t
  ∧ Forall clean (splitlines (Extractors.html_text t))
  ∧ Extractors.html_text (Extractors.html_text t) = Extractors.html_text t.
Proof.
  pose proof (html_lines_shape t) as Hshape.
  assert (Hsplit : splitlines (Extractors.html_text t) = html_lines t).
  { rewrite html_text_eq. apply splitlines_join.
    eapply Forall_impl; [exact Hshape|]. by intros l [[? _] ?]. }
  assert (Hclean : Forall clean (html_lines t)).
  { eapply Forall_impl; [exact Hshape|]. by intros l [? _]. }
  split; [apply html_text_eq|]. split; [done|]. split; [by rewrite Hsplit|].
  rewrite (html_text_eq (Extractors.html_text t)). unfold html_lines at 1.
  rewrite Hsplit, (html_text_eq t). f_equal.
  assert (E : map strip (html_lines t) = html_lines t).
  { to_fmap. apply list_eq. intros i. rewrite list_lookup_fmap.
    destruct (html_lines t !! i) as [l|] eqn:El; [|done]. simpl. f_equal.
    apply strip_id. rewrite Forall_forall in Hclean.
    by apply Hclean, (list_elem_of_lookup_2 _ i). }
  rewrite E. apply filter_all_true. intros l Hl.
  apply nonempty_true. rewrite Forall_forall in Hclean. by apply Hclean.
Qed.

(** X17. The ingestion normalises what the extractor returns; on the text
    of an HTML page this changes nothing. *)
Theorem normalize_whitespace_html_text (t : text) :
  normalize_whitespace (Extractors.html_text t) = Extractors.html_text t.
Proof.
  pose proof (html_lines_shape t) as Hshape.
  rewrite html_text_eq. destruct (html_lines t) as [|l0 ls] eqn:E; [done|].
  rewrite <- E in *. unfold normalize_whitespace.
  assert (Hfree : ∀ c, is_linebreak c = true → c ≠ LF → c ∉ join [LF] (html_lines t)).
  { intros c Hc Hne Hin. apply join_elem in Hin as [->|(l & Hl & Hin)]; [done|].
    rewrite Forall_forall in Hshape. destruct (Hshape l Hl) as [_ Hnb].
    by apply (no_break_not l c). }
  rewrite replace_pair_absent by by apply Hfree.
  rewrite replace_absent by by apply Hfree.
  assert (Hlf : Forall (λ l, LF ∉ l) (html_lines t)).
  { eapply Forall_impl; [exact Hshape|]. intros l [_ Hnb]. by apply no_break_not. }
  rewrite sub_blank_lines_join.
  - rewrite split_join; [|by rewrite E|done].
    assert (Es : map strip (html_lines t) = html_lines t).
    { to_fmap. apply list_eq. intros i. rewrite list_lookup_fmap.
      destruct (html_lines t !! i) as [l|] eqn:El; [|done]. simpl. f_equal.
      apply strip_id. rewrite Forall_forall in Hshape.
      by apply (Hshape l), (list_elem_of_lookup_2 _ i). }
    rewrite Es. apply strip_join.
    eapply Forall_impl; [exact Hshape|]. by intros l [? _].
  - eapply Forall_impl; [exact Hshape|]. intros l [[? _] Hnb].
    split; [done|]. by apply no_break_not.
Qed.

(** ** The documents table *)

Section DbFacts.
Import Db.

Lemma find_sha_some (l : list Doc) sha row :
  List.find (λ d, bool_decide (sha256 d = sha)) l = Some row →
  row ∈ l ∧ sha256 row = sha.
Proof.
  intros H. apply List.find_some in H as [Hin Hb].
  apply list_elem_of_In in Hin. by apply bool_decide_eq_true in Hb.
Qed.

Lemma find_sha_none (l : list Doc) sha :
  List.find (λ d, bool_decide (sha256 d = sha)) l = None →
  sha ∉ map sha256 l.
Proof.
  intros H Hin. apply list_elem_of_In, in_map_iff in Hin as (d & Hd & Hin).
  pose proof (List.find_none _ _ H d Hin) as Hb. simpl in Hb.
  apply bool_decide_eq_false in Hb. done.
Qed.

Lemma update_row_id i sp ti tx d : id (update_row i sp ti tx d) = id d.
Proof. unfold update_row. by destruct (id d =? i). Qed.

Lemma update_row_sha256 i sp ti tx d : sha256 (update_row i sp ti tx d) = sha256 d.
Proof. unfold update_row. by destruct (id d =? i). Qed.

Lemma map_update_row_id i sp ti tx l :
  map id (map (update_row i sp ti tx) l) = map id l.
Proof.
  rewrite List.map_map. apply List.map_ext. intros d. apply update_row_id.
Qed.

Lemma map_update_row_sha256 i sp ti tx l :
  map sha256 (map (update_row i sp ti tx) l) = map sha256 l.
Proof.
  rewrite List.map_map. apply List.map_ext. intros d. apply update_row_sha256.
Qed.

Lemma StronglySorted_snoc (l : list nat) n :
  StronglySorted lt l → Forall (λ x, x < n) l → StronglySorted lt (l ++ [n]).
Proof.
  induction 1 as [|x l Hl IH Hx]; intros Hn; simpl.
  - repeat constructor.
  - inversion Hn; subst. constructor; [by apply IH|].
    apply Forall_app. split; [done|]. by repeat constructor.
Qed.

Lemma upsert_doc_consistent conn sp ti sha tx created :
  consistent conn → consistent (upsert_doc conn sp ti sha tx created).1.
Proof.
  intros (Hid & Hb & Hsha). unfold upsert_doc.
  destruct (List.find _ _) as [row|] eqn:Ef; simpl.
  - split; [|split]; simpl.
    + by rewrite map_update_row_id.
    + apply Forall_forall. intros d Hd.
      apply list_elem_of_In, in_map_iff in Hd as (d' & <- & Hd').
      rewrite update_row_id. rewrite Forall_forall in Hb.
      by apply Hb, list_elem_of_In.
    + by rewrite map_update_row_sha256.
  - apply find_sha_none in Ef. split; [|split]; simpl.
    + rewrite map_app. simpl. apply StronglySorted_snoc; [done|].
      to_fmap. apply Forall_fmap. eapply Forall_impl; [exact Hb|].
      intros d [? ?]. simpl. lia.
    + apply Forall_app. split.
      * eapply Forall_impl; [exact Hb|]. intros d [? ?]. simpl in *. lia.
      * constructor; [simpl; lia | constructor].
    + rewrite map_app. simpl. apply NoDup_app. split; [done|]. split.
      * intros x Hx Hx'. apply list_elem_of_singleton in Hx'. by subst.
      * apply NoDup_singleton.
Qed.

Lemma get_doc_id conn i d : get_doc conn i = Some d → d ∈ rows conn ∧ id d = i.
Proof.
  unfold get_doc. intros H. apply List.find_some in H as [Hin Hb].
  apply list_elem_of_In in Hin. by apply Nat.eqb_eq in Hb.
Qed.

Lemma find_id_absent (l : list Doc) i :
  i ∉ map id l → List.find (λ d, id d =? i) l = None.
Proof.
  induction l as [|d l IH]; intros H; [done|]. simpl in *.
  rewrite not_elem_of_cons in H. destruct H as [Hd Hl].
  destruct (id d =? i) eqn:E; [apply Nat.eqb_eq in E; congruence|]. by apply IH.
Qed.

(** With one row per id, looking a row up by its id finds it. *)
Lemma find_id_unique (l : list Doc) d :
  NoDup (map id l) → d ∈ l → List.find (λ x, id x =? id d) l = Some d.
Proof.
  induction l as [|x l IH]; intros Hnd Hd; [by apply elem_of_nil in Hd|].
  simpl in *. apply NoDup_cons in Hnd as [Hx Hnd].
  apply elem_of_cons in Hd as [->|Hd]; [by rewrite Nat.eqb_refl|].
  destruct (id x =? id d) eqn:E; [|by apply IH].
  apply Nat.eqb_eq in E. exfalso. apply Hx. rewrite E.
  apply list_elem_of_In, in_map, list_elem_of_In, Hd.
Qed.

Lemma find_id_update (l : list Doc) i j sp ti tx :
  List.find (λ d, id d =? j) (map (update_row i sp ti tx) l)
  = update_row i sp ti tx <$> List.find (λ d, id d =? j) l.
Proof.
  induction l as [|d l IH]; [done|]. simpl.
  rewrite update_row_id. by destruct (id d =? j).
Qed.

Lemma find_id_app (l : list Doc) d j :
  List.find (λ x, id x =? j) (l ++ [d])
  = match List.find (λ x, id x =? j) l with
    | Some r => Some r
    | None => if id d =? j then Some d else None
    end.
Proof.
  induction l as [|x l IH]; [done|]. simpl. by destruct (id x =? j).
Qed.

Lemma StronglySorted_lt_NoDup (l : list nat) : StronglySorted lt l → NoDup l.
Proof.
  induction 1 as [|x l Hl IH Hx]; constructor; [|done].
  intros Hin. rewrite Forall_forall in Hx. specialize (Hx x Hin). lia.
Qed.

Lemma consistent_NoDup_id conn : consistent conn → NoDup (map id (rows conn)).
Proof. intros (H & _ & _). by apply StronglySorted_lt_NoDup. Qed.

Lemma consistent_fresh_id conn :
  consistent conn → S (last_id conn) ∉ map id (rows conn).
Proof.
  intros (_ & Hb & _) Hin.
  apply list_elem_of_In, in_map_iff in Hin as (d & Hd & Hin).
  rewrite Forall_forall in Hb. apply list_elem_of_In in Hin.
  specialize (Hb d Hin). lia.
Qed.

(** X18. The table stays consistent under [upsert_doc]: starting from the
    empty table, ids stay unique and ascending in the order of insertion,
    and no two rows share a [sha256]. *)
Theorem upsert_doc_keeps_consistent (calls : list (text * text * text * text * text)) :
  consistent (foldl upsert_call empty calls).
Proof.
  assert (H : ∀ conn, consistent conn → consistent (foldl upsert_call conn calls)).
  { induction calls as [|[[[[sp ti] sha] tx] created] calls IH]; intros conn Hc; [done|].
    cbn [foldl]. by apply IH, upsert_doc_consistent. }
  apply H. split; [|split]; simpl; constructor.
Qed.

Lemma upsert_doc_lookup (conn : Conn) (sp ti sha tx created : text) :
  consistent conn →
  ∃ conn' i ins stamp,
    upsert_doc conn sp ti sha tx created = (conn', (i, ins))
    ∧ get_doc conn' i = Some (row_of i sp ti sha tx stamp)
    ∧ (if ins then stamp = created ∧ get_doc conn i = None
       else ∃ old, get_doc conn i = Some old ∧ sha256 old = sha
                   ∧ stamp = created_at old)
    ∧ ∀ j, j ≠ i → get_doc conn' j = get_doc conn j.
Proof.
  intros Hc. pose proof (consistent_NoDup_id conn Hc) as Hnd.
  pose proof (consistent_fresh_id conn Hc) as Hfresh.
  unfold upsert_doc.
  destruct (List.find _ _) as [row|] eqn:Ef.
  - apply find_sha_some in Ef as [Hrow Hsha].
    pose proof (find_id_unique _ row Hnd Hrow) as Hfind.
    exists {| rows := map (update_row (id row) sp ti tx) (rows conn);
              last_id := last_id conn |}, (id row), false, (created_at row).
    split; [done|]. split; [|split].
    + unfold get_doc. simpl. rewrite find_id_update, Hfind. simpl.
      unfold update_row, row_of. rewrite Nat.eqb_refl. by rewrite Hsha.
    + exists row. done.
    + intros j Hj. unfold get_doc. simpl. rewrite find_id_update.
      destruct (List.find (λ d, id d =? j) (rows conn)) as [d|] eqn:Ed; [|done].
      simpl. apply List.find_some in Ed as [_ Ed]. apply Nat.eqb_eq in Ed.
      unfold update_row. destruct (id d =? id row) eqn:E; [|done].
      apply Nat.eqb_eq in E. congruence.
  - exists {| rows := rows conn ++ [row_of (S (last_id conn)) sp ti sha tx created];
              last_id := S (last_id conn) |}, (S (last_id conn)), true, created.
    split; [done|]. split; [|split].
    + unfold get_doc. simpl. rewrite find_id_app, find_id_absent by done.
      simpl. by rewrite Nat.eqb_refl.
    + split; [done|]. by apply find_id_absent.
    + intros j Hj. unfold get_doc. cbn [rows]. rewrite find_id_app.
      destruct (List.find (λ x : Doc, id x =? j) (rows conn)); [done|].
      change (id (row_of (S (last_id conn)) sp ti sha tx created))
        with (S (last_id conn)).
      destruct (Nat.eqb_spec (S (last_id conn)) j); [congruence | done].
Qed.

(** X19. After [upsert_doc] the returned id leads to a row with the given
    path, title, hash and text; its time stamp is the given one when the
    row is new and the stored one when the hash was known; every other id
    leads to what it led to before. *)
Theorem upsert_doc_get_doc (conn : Conn) (sp ti sha tx created : text) :
  consistent conn →
  ∃ conn' i ins stamp,
    upsert_doc conn sp ti sha tx created = (conn', (i, ins))
    ∧ get_doc conn' i = Some (row_of i sp ti sha tx stamp)
    ∧ (if ins then stamp = created ∧ get_doc conn i = None
       else ∃ old, get_doc conn i = Some old ∧ sha256 old = sha
                   ∧ stamp = created_at old)
    ∧ ∀ j, j ≠ i → get_doc conn' j = get_doc conn j.
Proof.
  intros Hc. pose proof (consistent_NoDup_id conn Hc) as Hnd.
  pose proof (consistent_fresh_id conn Hc) as Hfresh.
  unfold upsert_doc.
  destruct (List.find _ _) as [row|] eqn:Ef.
  - apply find_sha_some in Ef as [Hrow Hsha].
    pose proof (find_id_unique _ row Hnd Hrow) as Hfind.
    exists {| rows := map (update_row (id row) sp ti tx) (rows conn);
              last_id := last_id conn |}, (id row), false, (created_at row).
    split; [done|]. split; [|split].
    + unfold get_doc. simpl. rewrite find_id_update, Hfind. simpl.
      unfold update_row, row_of. rewrite Nat.eqb_refl. by rewrite Hsha.
    + exists row. done.
    + intros j Hj. unfold get_doc. simpl. rewrite find_id_update.
      destruct (List.find (λ d, id d =? j) (rows conn)) as [d|] eqn:Ed; [|done].
      simpl. apply List.find_some in Ed as [_ Ed]. apply Nat.eqb_eq in Ed.
      unfold update_row. destruct (id d =? id row) eqn:E; [|done].
      apply Nat.eqb_eq in E. congruence.
  - exists {| rows := rows conn ++ [row_of (S (last_id conn)) sp ti sha tx created];
              last_id := S (last_id conn) |}, (S (last_id conn)), true, created.
    split; [done|]. split; [|split].
    + unfold get_doc. simpl. rewrite find_id_app, find_id_absent by done.
      simpl. by rewrite Nat.eqb_refl.
    + split; [done|]. by apply find_id_absent.
    + intros j Hj. unfold get_doc. cbn [rows]. rewrite find_id_app.
      destruct (List.find (λ x : Doc, id x =? j) (rows conn)); [done|].
      change (id (row_of (S (last_id conn)) sp ti sha tx created))
        with (S (last_id conn)).
      destruct (Nat.eqb_spec (S (last_id conn)) j); [congruence | done].
Qed.

Lemma upsert_doc_get_doc_witness :
  ∃ conn' i ins stamp,
    upsert_doc empty (py "/a.txt") (py "A") (py "h1") (py "text") (py "now")
      = (conn', (i, ins))
    ∧ get_doc conn' i
      = Some (row_of i (py "/a.txt") (py "A") (py "h1") (py "text") stamp)
    ∧ (if ins then stamp = py "now" ∧ get_doc empty i = None
       else ∃ old, get_doc empty i = Some old ∧ sha256 old = py "h1"
                   ∧ stamp = created_at old)
    ∧ ∀ j, j ≠ i → get_doc conn' j = get_doc empty j.
Proof.
  apply (upsert_doc_get_doc empty).
  split; [|split]; simpl; constructor.
Defined.

(** X20. [upsert_doc] inserts exactly when the hash is new, and then the
    table grows by one row; with a known hash the number of rows, their
    ids and their hashes stay as they are.  So a second call with the same
    hash never inserts and returns the id of the first. *)
Theorem upsert_doc_twice (conn : Conn) (sp ti tx created sp' ti' tx' created' sha : text) :
  consistent conn →
  ∃ conn1 i ins conn2,
    upsert_doc conn sp ti sha tx created = (conn1, (i, ins))
    ∧ (ins = true ↔ sha ∉ map sha256 (rows conn))
    ∧ length (rows conn1) = length (rows conn) + (if ins then 1 else 0)
    ∧ upsert_doc conn1 sp' ti' sha tx' created' = (conn2, (i, false))
    ∧ map id (rows conn2) = map id (rows conn1)
    ∧ map sha256 (rows conn2) = map sha256 (rows conn1).
Proof.
  intros Hc. pose proof (consistent_NoDup_id conn Hc) as Hnd.
  pose proof (consistent_fresh_id conn Hc) as Hfresh.
  unfold upsert_doc at 1.
  destruct (List.find _ (rows conn)) as [row|] eqn:Ef.
  - pose proof Ef as Ef'. apply find_sha_some in Ef' as [Hrow Hsha].
    set (conn1 := {| rows := map (update_row (id row) sp ti tx) (rows conn);
                     last_id := last_id conn |}).
    assert (Ef1 : List.find (λ d, bool_decide (sha256 d = sha)) (rows conn1)
                  = Some (update_row (id row) sp ti tx row)).
    { unfold conn1. simpl. clear -Ef.
      induction (rows conn) as [|d l IH]; [done|]. simpl in *.
      rewrite update_row_sha256.
      destruct (bool_decide (sha256 d = sha)); [by injection Ef as ->|].
      by apply IH. }
    exists conn1, (id row), false. eexists.
    split; [done|]. split; [|split; [|split; [|split]]].
    + split; [done|]. intros Hno. exfalso. apply Hno. rewrite <- Hsha.
      apply list_elem_of_In, in_map, list_elem_of_In, Hrow.
    + simpl. rewrite length_map. lia.
    + unfold upsert_doc. rewrite Ef1. by rewrite update_row_id.
    + cbn [rows]. by rewrite map_update_row_id.
    + cbn [rows]. by rewrite map_update_row_sha256.
  - set (new := row_of (S (last_id conn)) sp ti sha tx created).
    set (conn1 := {| rows := rows conn ++ [new]; last_id := S (last_id conn) |}).
    assert (Ef1 : List.find (λ d, bool_decide (sha256 d = sha)) (rows conn1)
                  = Some new).
    { unfold conn1. simpl. clear -Ef.
      induction (rows conn) as [|d l IH].
      - simpl. by rewrite bool_decide_eq_true_2.
      - simpl in *. destruct (bool_decide (sha256 d = sha)); [done|]. by apply IH. }
    exists conn1, (S (last_id conn)), true. eexists.
    split; [done|]. split; [|split; [|split; [|split]]].
    + split; [|done]. intros _. by apply find_sha_none.
    + simpl. rewrite length_app. simpl. lia.
    + unfold upsert_doc. rewrite Ef1. done.
    + cbn [rows]. by rewrite map_update_row_id.
    + cbn [rows]. by rewrite map_update_row_sha256.
Qed.

Lemma upsert_doc_twice_witness :
  ∃ conn1 i ins conn2,
    upsert_doc empty (py "/a.txt") (py "A") (py "h1") (py "text") (py "now")
      = (conn1, (i, ins))
    ∧ (ins = true ↔ py "h1" ∉ map sha256 (rows empty))
    ∧ length (rows conn1) = length (rows empty) + (if ins then 1 else 0)
    ∧ upsert_doc conn1 (py "/b.txt") (py "B") (py "h1") (py "other") (py "later")
      = (conn2, (i, false))
    ∧ map id (rows conn2) = map id (rows conn1)
    ∧ map sha256 (rows conn2) = map sha256 (rows conn1).
Proof.
  apply (upsert_doc_twice empty).
  split; [|split]; simpl; constructor.
Defined.

Lemma stable_sort_sorted_id {A} (key : A → nat) (l : list A) :
  StronglySorted lt (map key l) → sorted_by_nat key l = l.
Proof.
  unfold sorted_by_nat. induction l as [|x l IH]; intros H; [done|].
  simpl in H. inversion H as [|? ? Hl Hx]; subst. simpl.
  rewrite IH by done. destruct l as [|y l']; [done|]. simpl.
  inversion Hx; subst. by rewrite (proj2 (Nat.ltb_ge _ _)) by lia.
Qed.

(** X21. [list_docs] (ordered by id) returns the rows in the order they
    were inserted, and each listed row is the one [get_doc] finds under
    its id. *)
Theorem list_docs_insertion_order (conn : Conn) :
  consistent conn →
  list_docs conn = rows conn
  ∧ StronglySorted lt (map id (list_docs conn))
  ∧ ∀ d, d ∈ list_docs conn ↔ get_doc conn (id d) = Some d.
Proof.
  intros Hc. pose proof (consistent_NoDup_id conn Hc) as Hnd.
  destruct Hc as (Hid & _ & _).
  assert (E : list_docs conn = rows conn) by by apply stable_sort_sorted_id.
  rewrite E. split; [done|]. split; [done|]. intros d. split.
  - intros Hd. by apply find_id_unique.
  - intros H. by apply get_doc_id in H as [? _].
Qed.

Lemma list_docs_insertion_order_witness :
  list_docs (upsert_doc empty (py "/a.txt") (py "A") (py "h1") (py "text") (py "now")).1
  = rows (upsert_doc empty (py "/a.txt") (py "A") (py "h1") (py "text") (py "now")).1.
Proof.
  apply list_docs_insertion_order.
  split; [|split]; vm_compute; repeat constructor.
  intros H. inversion H.
Defined.

End DbFacts.

(** ** Search scores *)

Section SearchFacts.
Import Db.

Lemma search_score_bounds bm25 : (0 < search_score bm25 <= 1)%R.
Proof.
  unfold search_score. pose proof (Rmax_r bm25 0).
  assert (Hinv : (/ (1 + Rmax bm25 0) <= / 1)%R)
    by (apply Rinv_le_contravar; lra).
  rewrite Rinv_1 in Hinv.
  assert (0 < / (1 + Rmax bm25 0))%R by (apply Rinv_0_lt_compat; lra).
  unfold Rdiv. lra.
Qed.

Lemma search_score_antitone x y : (x <= y)%R → (search_score y <= search_score x)%R.
Proof.
  intros Hxy. unfold search_score.
  pose proof (Rmax_r x 0). pose proof (Rmax_r y 0).
  assert (Rmax x 0 <= Rmax y 0)%R by (apply Rle_max_compat_r; lra).
  unfold Rdiv. rewrite !Rmult_1_l. apply Rinv_le_contravar; lra.
Qed.

Lemma search_score_nonpositive x : (x <= 0)%R → search_score x = 1%R.
Proof.
  intros Hx. unfold search_score. rewrite Rmax_right by done. field.
Qed.

(** X22. [search_docs] keeps the rows in the order the query returns them
    (best match, lowest bm25, first) and gives each a score in (0, 1];
    the scores never increase down the list, and every row whose bm25 is
    zero or negative gets the score 1 exactly. *)
Theorem search_results_scores (fetched : list (Doc * R)) :
  StronglySorted (λ r1 r2, (r1.2 <= r2.2)%R) fetched →
  map fst (search_results fetched) = map fst fetched
  ∧ Forall (λ r, (0 < r.2 <= 1)%R) (search_results fetched)
  ∧ StronglySorted (λ r1 r2, (r2.2 <= r1.2)%R) (search_results fetched)
  ∧ ∀ i d bm25, fetched !! i = Some (d, bm25) → (bm25 <= 0)%R →
      search_results fetched !! i = Some (d, 1%R).
Proof.
  intros Hs. unfold search_results. split; [|split; [|split]].
  - rewrite List.map_map. by apply List.map_ext.
  - to_fmap. apply Forall_fmap, Forall_forall. intros r _. apply search_score_bounds.
  - induction Hs as [|r l Hl IH Hr]; simpl; constructor; [done|].
    to_fmap. apply Forall_fmap. eapply Forall_impl; [exact Hr|].
    intros r' Hle. simpl. by apply search_score_antitone.
  - intros i d bm25 Hi Hle. to_fmap. rewrite list_lookup_fmap, Hi. simpl.
    by rewrite search_score_nonpositive.
Qed.

Lemma search_results_scores_witness :
  Forall (λ r, (0 < r.2 <= 1)%R)
    (search_results [(row_of 1 [] [] [] [] [], (-1)%R); (row_of 2 [] [] [] [] [], 2%R)]).
Proof.
  apply search_results_scores.
  repeat constructor. simpl. lra.
Defined.

End SearchFacts.

(** ** Ingestion *)

Section IngestFacts.
Import Db Ingest.

Lemma lstrip_nil s : visible s = [] → lstrip s = [].
Proof.
  induction s as [|c s IH]; [done|]. unfold visible in *. simpl.
  destruct (isspace c); simpl; [exact IH | done].
Qed.

Lemma strip_nil_visible s : visible s = [] → strip s = [].
Proof. intros H. unfold strip. by rewrite lstrip_nil. Qed.

Lemma normalize_whitespace_nil raw :
  normalize_whitespace raw = [] ↔ visible raw = [].
Proof.
  assert (Hv : visible (normalize_whitespace raw) = visible raw).
  { unfold normalize_whitespace. rewrite visible_strip, visible_join.
    unfold split. rewrite visible_split_from. simpl.
    by rewrite visible_sub_blank_lines, visible_replace, visible_replace_pair. }
  split.
  - intros E. by rewrite <- Hv, E.
  - intros E. rewrite <- Hv in E. apply strip_nil_visible in E.
    unfold normalize_whitespace in *. by rewrite strip_id in E by apply strip_trimmed.
Qed.

Lemma normalize_whitespace_strip raw :
  strip (normalize_whitespace raw) = normalize_whitespace raw.
Proof. unfold normalize_whitespace. apply strip_id, strip_trimmed. Qed.

Lemma supported_extractor ext :
  ext ∈ SUPPORTED_EXTS ↔ is_Some (Extractors.get_extractor ext).
Proof.
  unfold Extractors.get_extractor, Extractors.mapping.
  rewrite <- not_eq_None_Some, <- not_elem_of_list_to_map.
  change (ext ∈ SUPPORTED_EXTS ↔ ¬ (ext ∉ SUPPORTED_EXTS)). split.
  - intros H Hno. by apply Hno.
  - intros H. by destruct (decide (ext ∈ SUPPORTED_EXTS)) as [?|Hno]; [|destruct (H Hno)].
Qed.

(** [ingest_paths] as the loop it is: one file, then the others. *)
Lemma ingest_paths_cons isalnum conn f fs :
  ingest_paths isalnum conn (f :: fs)
  = let '(conn', r) := ingest_file isalnum conn f in
    let '(conn'', rs) := ingest_paths isalnum conn' fs in
    (conn'', r :: rs).
Proof.
  unfold ingest_paths. cbn [foldl fst snd].
  destruct (ingest_file isalnum conn f) as [conn' r]. simpl app.
  assert (H : ∀ fs c acc,
    foldl (λ st f0, let '(c', r0) := ingest_file isalnum st.1 f0 in (c', st.2 ++ [r0]))
          (c, acc) fs
    = let '(c'', rs) :=
        foldl (λ st f0, let '(c', r0) := ingest_file isalnum st.1 f0 in (c', st.2 ++ [r0]))
              (c, []) fs in
      (c'', acc ++ rs)).
  { clear. induction fs as [|f fs IH]; intros c acc.
    - simpl. by rewrite app_nil_r.
    - cbn [foldl fst snd]. destruct (ingest_file isalnum c f) as [c' r0].
      rewrite (IH c' (acc ++ [r0])), (IH c' ([] ++ [r0])).
      destruct (foldl _ (c', []) fs) as [c'' rs]. by rewrite <- app_assoc. }
  rewrite (H fs conn' [r]). by destruct (foldl _ (conn', []) fs).
Qed.

(** What one turn of the loop does. *)
Lemma ingest_file_cases isalnum conn f :
  (∃ why, ingest_file isalnum conn f = (conn, skip f why)
          ∧ (((suffix_lower f ∉ SUPPORTED_EXTS) ∧ why = py "unsupported extension")
             ∨ (suffix_lower f ∈ SUPPORTED_EXTS
                ∧ ((∃ e, hashed f = inl e ∧ why = py "hash failed: " ++ e)
                   ∨ (∃ h e, hashed f = inr h ∧ extracted f = inl e
                             ∧ why = py "extract failed: " ++ e)
                   ∨ (∃ h raw, hashed f = inr h ∧ extracted f = inr raw
                               ∧ visible raw = []
                               ∧ why = py "empty text (maybe scanned PDF?)")))))
  ∨ (∃ h raw,
       suffix_lower f ∈ SUPPORTED_EXTS
       ∧ hashed f = inr h ∧ extracted f = inr raw ∧ visible raw ≠ []
       ∧ ingest_file isalnum conn f
         = let '(conn', (i, ins)) :=
             upsert_doc conn (resolved f)
               (guess_title isalnum (stem f) (normalize_whitespace raw)) h
               (normalize_whitespace raw) (now f) in
           (conn', {| result_path := path f; skipped := false; reason := py "ok";
                      doc_id := Some i; inserted := Some ins |})).
Proof.
  unfold ingest_file.
  destruct (decide (suffix_lower f ∈ SUPPORTED_EXTS)) as [Hs|Hs].
  2: { rewrite bool_decide_eq_false_2 by done. left. eexists. split; [done|]. by left. }
  rewrite bool_decide_eq_true_2 by done. cbn [negb].
  destruct (proj1 (supported_extractor _) Hs) as [x ->].
  destruct (hashed f) as [e|h].
  { left. eexists. split; [done|]. right. split; [done|]. left. by exists e. }
  destruct (extracted f) as [e|raw].
  { left. eexists. split; [done|]. right. split; [done|]. right. left. by exists h, e. }
  rewrite normalize_whitespace_strip.
  destruct (normalize_whitespace raw) as [|c t'] eqn:En.
  - left. eexists. split; [done|]. right. split; [done|]. right. right.
    exists h, raw. split; [done|]. split; [done|]. split; [|done].
    by apply normalize_whitespace_nil.
  - right. exists h, raw. split; [done|]. split; [done|]. split; [done|].
    split; [|by rewrite En].
    intros Hv. apply normalize_whitespace_nil in Hv. congruence.
Qed.

End IngestFacts.

Section IngestOutcome.
Import Db Ingest.

Lemma reason_not_no_extractor (f : File) why :
  why = py "unsupported extension"
  ∨ (∃ e, why = py "hash failed: " ++ e)
  ∨ (∃ e, why = py "extract failed: " ++ e)
  ∨ why = py "empty text (maybe scanned PDF?)"
  ∨ why = py "ok" →
  why ≠ py "no extractor".
Proof.
  intros H E. apply (f_equal head) in E.
  destruct H as [->|[[e ->]|[[e ->]|[->| ->]]]]; vm_compute in E; discriminate.
Qed.

(** X23. One turn of the ingestion loop on a consistent table.  The file
    is skipped exactly when its extension is not supported, or hashing
    fails, or extraction fails, or the extracted text has no visible
    character; a skip leaves the table as it is.  A supported extension
    always has an extractor, so the reason is never the one of the missing
    extractor.  A file that is not skipped gets an id under which the
    table holds its resolved path, guessed title, hash and normalised
    text, and that text is not empty. *)
Theorem ingest_file_outcome (isalnum : N → bool) (conn : Conn) (f : File) :
  consistent conn →
  ∃ conn' r,
    ingest_file isalnum conn f = (conn', r)
    ∧ consistent conn'
    ∧ result_path r = path f
    ∧ reason r ≠ py "no extractor"
    ∧ (skipped r = true ↔
         (suffix_lower f ∉ SUPPORTED_EXTS)
         ∨ (∃ e, hashed f = inl e)
         ∨ (∃ e, extracted f = inl e)
         ∨ (∃ raw, extracted f = inr raw ∧ visible raw = []))
    ∧ (skipped r = true → conn' = conn ∧ doc_id r = None ∧ inserted r = None)
    ∧ (skipped r = false →
         ∃ h raw i ins stamp,
           hashed f = inr h ∧ extracted f = inr raw
           ∧ reason r = py "ok" ∧ doc_id r = Some i ∧ inserted r = Some ins
           ∧ normalize_whitespace raw ≠ []
           ∧ get_doc conn' i
             = Some (row_of i (resolved f)
                       (guess_title isalnum (stem f) (normalize_whitespace raw))
                       h (normalize_whitespace raw) stamp)).
Proof.
  intros Hc.
  destruct (ingest_file_cases isalnum conn f)
    as [(why & -> & Hwhy)|(h & raw & Hs & Hh & He & Hv & ->)].
  - exists conn, (skip f why). split; [done|]. split; [done|]. split; [done|].
    split; [|split; [|split]].
    + apply (reason_not_no_extractor f). simpl.
      destruct Hwhy as [[_ ->]|[_ [(e & _ & ->)|[(h & e & _ & _ & ->)|(h & raw & _ & _ & _ & ->)]]]];
        eauto 6.
    + split; [|done]. intros _.
      destruct Hwhy as [[? _]|[_ [(e & ? & _)|[(h & e & _ & ? & _)|(h & raw & _ & ? & ? & _)]]]];
        eauto 8.
    + done.
    + done.
  - pose proof (upsert_doc_lookup conn (resolved f)
                  (guess_title isalnum (stem f) (normalize_whitespace raw)) h
                  (normalize_whitespace raw) (now f) Hc)
      as (conn' & i & ins & stamp & Eu & Hget & _ & _).
    pose proof (upsert_doc_consistent conn (resolved f)
                  (guess_title isalnum (stem f) (normalize_whitespace raw)) h
                  (normalize_whitespace raw) (now f) Hc) as Hc'.
    rewrite Eu in *. simpl in Hc'.
    eexists _, _. split; [done|]. split; [done|]. split; [done|].
    split; [|split; [|split]]; simpl.
    + by apply (reason_not_no_extractor f); eauto 6.
    + split; [done|]. intros [?|[[e ?]|[[e ?]|(raw' & ? & ?)]]]; congruence.
    + done.
    + intros _. exists h, raw, i, ins, stamp.
      repeat (split; [done|]). split; [|done].
      intros E. by apply normalize_whitespace_nil in E.
Qed.

Lemma ingest_file_outcome_witness :
  ∃ conn' r,
    ingest_file (λ c, (97 <=? c)%N)  empty
      {| path := py "a.txt"; suffix_lower := py ".txt"; stem := py "a";
         resolved := py "/tmp/a.txt"; hashed := inr (py "h1");
         extracted := inr (py "Hello there"); now := py "2024" |} = (conn', r)
    ∧ consistent conn'.
Proof.
  destruct (ingest_file_outcome (λ c, (97 <=? c)%N) empty
    {| path := py "a.txt"; suffix_lower := py ".txt"; stem := py "a";
       resolved := py "/tmp/a.txt"; hashed := inr (py "h1");
       extracted := inr (py "Hello there"); now := py "2024" |})
    as (conn' & r & E & Hc & _).
  - split; [|split]; simpl; constructor.
  - by exists conn', r.
Defined.

End IngestOutcome.

Section IngestPaths.
Import Db Ingest.

Lemma index_fst conn : (index conn).*1 = map sha256 (rows conn).
Proof. unfold index. to_fmap. rewrite <- list_fmap_compose. done. Qed.

Lemma index_snd conn : (index conn).*2 = map id (rows conn).
Proof. unfold index. to_fmap. rewrite <- list_fmap_compose. done. Qed.

Lemma index_update_row conn i sp ti tx :
  index {| rows := map (update_row i sp ti tx) (rows conn); last_id := last_id conn |}
  = index conn.
Proof.
  unfold index. simpl. rewrite List.map_map. apply List.map_ext.
  intros d. by rewrite update_row_id, update_row_sha256.
Qed.

(** What [upsert_doc] does to the hashes and ids. *)
Lemma upsert_doc_index conn sp ti sha tx created :
  ∃ conn' i ins,
    upsert_doc conn sp ti sha tx created = (conn', (i, ins))
    ∧ (sha, i) ∈ index conn'
    ∧ (if ins then index conn' = index conn ++ [(sha, i)]
       else index conn' = index conn).
Proof.
  unfold upsert_doc. destruct (List.find _ _) as [row|] eqn:Ef.
  - apply find_sha_some in Ef as [Hrow Hsha].
    eexists _, _, _. split; [done|]. rewrite index_update_row. split; [|done].
    unfold index. apply list_elem_of_In, in_map_iff. exists row.
    split; [by rewrite Hsha | by apply list_elem_of_In].
  - eexists _, _, _. split; [done|]. unfold index. simpl. rewrite map_app. simpl.
    split; [|done]. apply elem_of_app. right. apply list_elem_of_here.
Qed.

Lemma NoDup_fst_functional {A B} (l : list (A * B)) x y1 y2 :
  NoDup (l.*1) → (x, y1) ∈ l → (x, y2) ∈ l → y1 = y2.
Proof.
  induction l as [|[a b] l IH]; intros Hnd H1 H2; [by apply elem_of_nil in H1|].
  simpl in Hnd. apply NoDup_cons in Hnd as [Ha Hnd].
  assert (Hfst : ∀ y, (a, y) ∈ l → False).
  { intros y Hy. apply Ha. apply list_elem_of_fmap. by exists (a, y). }
  apply elem_of_cons in H1 as [E1|H1]; apply elem_of_cons in H2 as [E2|H2].
  - congruence.
  - injection E1 as -> ->. by destruct (Hfst y2).
  - injection E2 as -> ->. by destruct (Hfst y1).
  - by apply IH.
Qed.

(** A hash the table knows is never inserted again: the call returns the
    id the table has for it and leaves hashes and ids alone. *)
Lemma upsert_doc_known conn sp ti sha tx created i :
  consistent conn → (sha, i) ∈ index conn →
  ∃ conn', upsert_doc conn sp ti sha tx created = (conn', (i, false))
           ∧ index conn' = index conn.
Proof.
  intros (_ & _ & Hnd) Hin. unfold upsert_doc.
  destruct (List.find _ _) as [row|] eqn:Ef.
  - apply find_sha_some in Ef as [Hrow Hsha].
    assert (id row = i) as <-.
    { rewrite <- index_fst in Hnd.
      apply (NoDup_fst_functional (index conn) sha); [done| |done].
      unfold index. apply list_elem_of_In, in_map_iff. exists row.
      split; [by rewrite Hsha | by apply list_elem_of_In]. }
    eexists. split; [done|]. apply index_update_row.
  - apply find_sha_none in Ef. exfalso. apply Ef. rewrite <- index_fst.
    apply list_elem_of_In, in_map_iff. exists (sha, i).
    split; [done | by apply list_elem_of_In].
Qed.

Lemma consistent_index conn conn' :
  consistent conn → index conn' = index conn → last_id conn' = last_id conn →
  consistent conn'.
Proof.
  intros (H1 & H2 & H3) E El. unfold consistent.
  rewrite <- index_fst, <- index_snd, E, index_fst, index_snd.
  split; [done|]. split; [|done].
  apply Forall_forall. intros d Hd.
  assert (Hi : id d ∈ map id (rows conn)).
  { rewrite <- index_snd, <- E, index_snd.
    by apply list_elem_of_In, in_map, list_elem_of_In. }
  apply list_elem_of_In, in_map_iff in Hi as (d' & Hd' & Hin).
  rewrite Forall_forall in H2. apply list_elem_of_In in Hin.
  specialize (H2 d' Hin). rewrite El. lia.
Qed.

(** The hashes and ids one turn of the loop leaves. *)
Lemma ingest_file_index isalnum conn f :
  ∃ conn' r,
    ingest_file isalnum conn f = (conn', r)
    ∧ index conn `prefix_of` index conn'
    ∧ length (index conn')
      = length (index conn) + (if bool_decide (inserted r = Some true) then 1 else 0)
    ∧ match doc_id r with
      | Some i => ∃ h, hashed f = inr h ∧ (h, i) ∈ index conn'
      | None => conn' = conn
      end.
Proof.
  destruct (ingest_file_cases isalnum conn f)
    as [(why & -> & _)|(h & raw & _ & Hh & _ & _ & ->)].
  - exists conn, (skip f why). split; [done|]. split; [done|]. simpl. split; [lia | done].
  - destruct (upsert_doc_index conn (resolved f)
                (guess_title isalnum (stem f) (normalize_whitespace raw)) h
                (normalize_whitespace raw) (now f))
      as (conn' & i & ins & -> & Hin & Hidx).
    eexists _, _. split; [done|]. simpl. destruct ins.
    + rewrite Hidx, length_app. simpl. split; [by apply prefix_app_r|].
      split; [done|]. exists h. split; [done|]. by rewrite <- Hidx.
    + rewrite Hidx. split; [done|]. split; [simpl; lia|]. exists h. split; [done|].
      by rewrite <- Hidx.
Qed.

(** A turn of the loop on a table that knows the hash already. *)
Lemma ingest_file_known isalnum conn0 conn f :
  consistent conn →
  index (ingest_file isalnum conn0 f).1 ⊆ index conn →
  ∃ conn' r,
    ingest_file isalnum conn f = (conn', r)
    ∧ index conn' = index conn
    ∧ consistent conn'
    ∧ doc_id r = doc_id (ingest_file isalnum conn0 f).2
    ∧ reason r = reason (ingest_file isalnum conn0 f).2
    ∧ skipped r = skipped (ingest_file isalnum conn0 f).2
    ∧ inserted r ≠ Some true.
Proof.
  intros Hc Hsub.
  destruct (ingest_file_cases isalnum conn0 f)
    as [(why & E0 & Hwhy)|(h & raw & Hs & Hh & He & Hv & E0)].
  - destruct (ingest_file_cases isalnum conn f)
      as [(why' & E & Hwhy')|(h & raw & Hs & Hh & He & Hv & E)].
    + rewrite E0, E. exists conn, (skip f why'). split; [done|]. split; [done|].
      split; [done|]. simpl. split; [done|]. split; [|done].
      destruct Hwhy as [[? ->]|[? [(e & ? & ->)|[(h & e & ? & ? & ->)|(h & raw & ? & ? & ? & ->)]]]];
      destruct Hwhy' as [[? ->]|[? [(e' & ? & ->)|[(h' & e' & ? & ? & ->)|(h' & raw' & ? & ? & ? & ->)]]]];
        try done; try congruence.
    + exfalso.
      destruct Hwhy as [[? _]|[_ [(e & ? & _)|[(h' & e & _ & ? & _)|(h' & raw' & _ & ? & ? & _)]]]];
        congruence.
  - rewrite E0 in Hsub |- *.
    destruct (upsert_doc_index conn0 (resolved f)
                (guess_title isalnum (stem f) (normalize_whitespace raw)) h
                (normalize_whitespace raw) (now f))
      as (c0' & i & ins & Eu0 & Hin0 & _).
    rewrite Eu0 in Hsub |- *. simpl in Hsub |- *.
    destruct (upsert_doc_known conn (resolved f)
                (guess_title isalnum (stem f) (normalize_whitespace raw)) h
                (normalize_whitespace raw) (now f) i Hc (Hsub _ Hin0))
      as (conn' & Eu & Hidx).
    destruct (ingest_file_cases isalnum conn f)
      as [(why' & E & Hwhy')|(h' & raw' & _ & Hh' & He' & _ & E)].
    + exfalso.
      destruct Hwhy' as [[? _]|[_ [(e & ? & _)|[(h' & e & _ & ? & _)|(h' & raw' & _ & ? & ? & _)]]]];
        congruence.
    + rewrite Hh in Hh'. rewrite He in He'. injection Hh' as <-. injection He' as <-.
      rewrite E, Eu. eexists _, _. split; [done|]. split; [done|]. split.
      { apply (consistent_index conn); [done|done|].
        unfold upsert_doc in Eu. destruct (List.find _ _); by injection Eu as <-. }
      simpl. done.
Qed.

Lemma ingest_paths_index isalnum fs : ∀ conn,
  index conn `prefix_of` index (ingest_paths isalnum conn fs).1.
Proof.
  induction fs as [|f fs IH]; intros conn; [done|].
  rewrite ingest_paths_cons.
  destruct (ingest_file_index isalnum conn f) as (conn' & r & E & Hp & _).
  rewrite E. specialize (IH conn').
  destruct (ingest_paths isalnum conn' fs) as [conn'' rs]. simpl in *.
  by etrans.
Qed.

Lemma ingest_paths_again isalnum fs : ∀ conn0 conn,
  consistent conn →
  index (ingest_paths isalnum conn0 fs).1 ⊆ index conn →
  ∃ conn' rs,
    ingest_paths isalnum conn fs = (conn', rs)
    ∧ index conn' = index conn
    ∧ consistent conn'
    ∧ map doc_id rs = map doc_id (ingest_paths isalnum conn0 fs).2
    ∧ map reason rs = map reason (ingest_paths isalnum conn0 fs).2
    ∧ map skipped rs = map skipped (ingest_paths isalnum conn0 fs).2
    ∧ Forall (λ r, inserted r ≠ Some true) rs.
Proof.
  induction fs as [|f fs IH]; intros conn0 conn Hc Hsub.
  - exists conn, []. repeat (split; [done|]). constructor.
  - rewrite !ingest_paths_cons in *.
    pose proof (ingest_paths_index isalnum fs (ingest_file isalnum conn0 f).1) as Hp.
    destruct (ingest_file isalnum conn0 f) as [c0' r0] eqn:E0.
    destruct (ingest_paths isalnum c0' fs) as [c0'' rs0] eqn:Ers0.
    simpl in Hsub, Hp. rewrite Ers0 in Hp. simpl in Hp.
    assert (Hsub0 : index c0' ⊆ index conn).
    { intros x Hx. apply Hsub. destruct Hp as [k ->]. apply elem_of_app. by left. }
    destruct (ingest_file_known isalnum conn0 conn f Hc) as
      (c1 & r & E & Hidx & Hc1 & Hd & Hr & Hs & Hi).
    { by rewrite E0. }
    rewrite E0 in Hd, Hr, Hs. simpl in Hd, Hr, Hs.
    destruct (IH c0' c1 Hc1) as (c2 & rs & Ers & Hidx2 & Hc2 & Hds & Hrs & Hss & His).
    { rewrite Ers0, Hidx. done. }
    rewrite Ers0 in Hds, Hrs, Hss. simpl in Hds, Hrs, Hss.
    rewrite E, Ers. exists c2, (r :: rs). split; [done|].
    split; [by rewrite Hidx2|]. split; [done|]. simpl.
    rewrite Hd, Hr, Hs, Hds, Hrs, Hss. repeat (split; [done|]). by constructor.
Qed.

End IngestPaths.

Section IngestResults.
Import Db Ingest.

Lemma upsert_doc_holds conn sp ti sha tx created :
  tx ≠ [] → strip tx = tx →
  Forall holds_text (rows conn) →
  Forall holds_text (rows (upsert_doc conn sp ti sha tx created).1).
Proof.
  intros Hne Hs Hall. unfold upsert_doc. destruct (List.find _ _) as [row|]; simpl.
  - to_fmap. apply Forall_fmap. eapply Forall_impl; [exact Hall|].
    intros d Hd. simpl. unfold update_row. by destruct (id d =? id row).
  - apply Forall_app. split; [done|]. by repeat constructor.
Qed.

Lemma index_length conn : length (index conn) = length (rows conn).
Proof. unfold index. apply length_map. Qed.

Lemma find_id_present (l : list Doc) i :
  i ∈ map id l → is_Some (List.find (λ d, id d =? i) l).
Proof.
  induction l as [|d l IH]; intros H; [by apply elem_of_nil in H|]. simpl in *.
  destruct (id d =? i) eqn:E; [by eexists|].
  apply elem_of_cons in H as [->|H]; [by rewrite Nat.eqb_refl in E | by apply IH].
Qed.

(** One turn of the loop, for the table and the result. *)
Lemma ingest_file_step isalnum conn f :
  consistent conn → Forall holds_text (rows conn) →
  ∃ conn' r,
    ingest_file isalnum conn f = (conn', r)
    ∧ consistent conn'
    ∧ Forall holds_text (rows conn')
    ∧ result_path r = path f
    ∧ reason r ≠ py "no extractor"
    ∧ (skipped r = true ↔ doc_id r = None).
Proof.
  intros Hc Hall.
  destruct (ingest_file_cases isalnum conn f)
    as [(why & -> & Hwhy)|(h & raw & Hs & Hh & He & Hv & ->)].
  - exists conn, (skip f why). repeat (split; [done|]). split; [|done].
    apply (reason_not_no_extractor f). simpl.
    destruct Hwhy as [[_ ->]|[_ [(e & _ & ->)|[(h & e & _ & _ & ->)|(h & raw & _ & _ & _ & ->)]]]];
      eauto 6.
  - pose proof (upsert_doc_consistent conn (resolved f)
                  (guess_title isalnum (stem f) (normalize_whitespace raw)) h
                  (normalize_whitespace raw) (now f) Hc) as Hc'.
    pose proof (upsert_doc_holds conn (resolved f)
                  (guess_title isalnum (stem f) (normalize_whitespace raw)) h
                  (normalize_whitespace raw) (now f)) as Hall'.
    destruct (upsert_doc _ _ _ _ _ _) as [conn' [i ins]]. simpl in *.
    eexists _, _. split; [done|]. split; [done|]. split.
    { apply Hall'; [|apply normalize_whitespace_strip|done].
      intros E. by apply normalize_whitespace_nil in E. }
    simpl. split; [done|]. split; [|done].
    apply (reason_not_no_extractor f). eauto 6.
Qed.

Lemma ingest_paths_step isalnum fs : ∀ conn,
  consistent conn → Forall holds_text (rows conn) →
  ∃ conn' rs,
    ingest_paths isalnum conn fs = (conn', rs)
    ∧ consistent conn'
    ∧ Forall holds_text (rows conn')
    ∧ map result_path rs = map path fs
    ∧ Forall (λ r, reason r ≠ py "no extractor" ∧ (skipped r = true ↔ doc_id r = None)) rs
    ∧ length (rows conn')
      = length (rows conn)
        + length (List.filter (λ r, bool_decide (inserted r = Some true)) rs)
    ∧ ∀ r i, r ∈ rs → doc_id r = Some i → i ∈ map id (rows conn').
Proof.
  induction fs as [|f fs IH]; intros conn Hc Hall.
  - exists conn, []. split; [done|]. split; [done|]. split; [done|].
    split; [done|]. split; [constructor|].
    split; [simpl; lia|]. intros r i Hr. by apply elem_of_nil in Hr.
  - rewrite ingest_paths_cons.
    destruct (ingest_file_step isalnum conn f Hc Hall)
      as (c1 & r & E & Hc1 & Hall1 & Hpath & Hreason & Hskip).
    destruct (ingest_file_index isalnum conn f) as (c1' & r' & E' & _ & Hlen & Hid).
    rewrite E in E'. injection E' as <- <-.
    pose proof (ingest_paths_index isalnum fs c1) as Hp.
    destruct (IH c1 Hc1 Hall1) as (c2 & rs & Ers & Hc2 & Hall2 & Hpaths & Hrs & Hlen2 & Hids).
    rewrite E, Ers. rewrite Ers in Hp. simpl in Hp.
    exists c2, (r :: rs). split; [done|]. split; [done|]. split; [done|].
    split; [simpl; by rewrite Hpath, Hpaths|]. split; [by constructor|]. split.
    + rewrite !index_length in Hlen. rewrite Hlen2, Hlen. simpl.
      destruct (bool_decide (inserted r = Some true)); simpl; lia.
    + intros r1 i Hr1 Hi. apply elem_of_cons in Hr1 as [->|Hr1]; [|by eapply Hids].
      rewrite Hi in Hid. destruct Hid as (h & _ & Hin).
      rewrite <- index_snd. destruct Hp as [k ->].
      apply list_elem_of_fmap. exists (h, i). split; [done|].
      apply elem_of_app. by left.
Qed.

(** X24. [ingest_paths] on a consistent table gives one result per file,
    in the order of the files, never with the reason of a missing
    extractor, and skipped exactly when it has no document id.  The table
    stays consistent and grows by one row for each result marked
    inserted; every stored text is not empty and trimmed; and every
    document id of a result is an id [get_doc] finds afterwards. *)
Theorem ingest_paths_results (isalnum : N → bool) (conn : Conn) (files : list File) :
  consistent conn → Forall holds_text (rows conn) →
  ∃ conn' results,
    ingest_paths isalnum conn files = (conn', results)
    ∧ consistent conn'
    ∧ Forall holds_text (rows conn')
    ∧ map result_path results = map path files
    ∧ Forall (λ r, reason r ≠ py "no extractor"
                   ∧ (skipped r = true ↔ doc_id r = None)) results
    ∧ length (rows conn')
      = length (rows conn)
        + length (List.filter (λ r, bool_decide (inserted r = Some true)) results)
    ∧ ∀ r i, r ∈ results → doc_id r = Some i → is_Some (get_doc conn' i).
Proof.
  intros Hc Hall.
  destruct (ingest_paths_step isalnum files conn Hc Hall)
    as (conn' & rs & E & Hc' & Hall' & Hp & Hr & Hlen & Hids).
  exists conn', rs. repeat (split; [done|]).
  intros r i Hr' Hi. apply find_id_present. by eapply Hids.
Qed.

Lemma ingest_paths_results_witness :
  ∃ conn' results,
    ingest_paths (λ c, (97 <=? c)%N) empty
      [{| path := py "a.txt"; suffix_lower := py ".txt"; stem := py "a";
          resolved := py "/tmp/a.txt"; hashed := inr (py "h1");
          extracted := inr (py "Hello there"); now := py "2024" |};
       {| path := py "b.exe"; suffix_lower := py ".exe"; stem := py "b";
          resolved := py "/tmp/b.exe"; hashed := inr (py "h2");
          extracted := inr (py "x"); now := py "2024" |}] = (conn', results)
    ∧ length (rows conn') = 1.
Proof.
  destruct (ingest_paths_results (λ c, (97 <=? c)%N) empty
    [{| path := py "a.txt"; suffix_lower := py ".txt"; stem := py "a";
        resolved := py "/tmp/a.txt"; hashed := inr (py "h1");
        extracted := inr (py "Hello there"); now := py "2024" |};
     {| path := py "b.exe"; suffix_lower := py ".exe"; stem := py "b";
        resolved := py "/tmp/b.exe"; hashed := inr (py "h2");
        extracted := inr (py "x"); now := py "2024" |}])
    as (conn' & rs & E & _).
  - split; [|split]; simpl; constructor.
  - constructor.
  - exists conn', rs. split; [done|].
    vm_compute in E. by injection E as <- <-.
Defined.

Lemma ingest_paths_consistent isalnum fs : ∀ conn,
  consistent conn → consistent (ingest_paths isalnum conn fs).1.
Proof.
  induction fs as [|f fs IH]; intros conn Hc; [done|].
  rewrite ingest_paths_cons.
  assert (Hc1 : consistent (ingest_file isalnum conn f).1).
  { destruct (ingest_file_cases isalnum conn f)
      as [(why & -> & _)|(h & raw & _ & _ & _ & _ & ->)]; [done|].
    pose proof (upsert_doc_consistent conn (resolved f)
                  (guess_title isalnum (stem f) (normalize_whitespace raw)) h
                  (normalize_whitespace raw) (now f) Hc) as Hc'.
    by destruct (upsert_doc _ _ _ _ _ _) as [conn' [i ins]]. }
  destruct (ingest_file isalnum conn f) as [c1 r]. specialize (IH c1 Hc1).
  by destruct (ingest_paths isalnum c1 fs).
Qed.

(** X25. Ingesting the same files a second time adds nothing: every file
    gets the document id and the reason it got the first time, no result
    is marked inserted, and the table keeps its hashes and ids. *)
Theorem ingest_paths_twice (isalnum : N → bool) (conn : Conn) (files : list File) :
  consistent conn →
  ∃ conn1 first conn2 second,
    ingest_paths isalnum conn files = (conn1, first)
    ∧ ingest_paths isalnum conn1 files = (conn2, second)
    ∧ map doc_id second = map doc_id first
    ∧ map reason second = map reason first
    ∧ map skipped second = map skipped first
    ∧ Forall (λ r, inserted r ≠ Some true) second
    ∧ index conn2 = index conn1.
Proof.
  intros Hc.
  pose proof (ingest_paths_consistent isalnum files conn Hc) as Hc1.
  destruct (ingest_paths isalnum conn files) as [conn1 rs1] eqn:E1. simpl in Hc1.
  destruct (ingest_paths_again isalnum files conn conn1 Hc1)
    as (conn2 & rs2 & E2 & Hidx & _ & Hd & Hr & Hs & Hi).
  { by rewrite E1. }
  rewrite E1 in Hd, Hr, Hs. simpl in *.
  exists conn1, rs1, conn2, rs2. by repeat (split; [done|]).
Qed.

Lemma ingest_paths_twice_witness :
  ∃ conn1 first conn2 second,
    ingest_paths (λ c, (97 <=? c)%N) empty
      [{| path := py "a.txt"; suffix_lower := py ".txt"; stem := py "a";
          resolved := py "/tmp/a.txt"; hashed := inr (py "h1");
          extracted := inr (py "Hello there"); now := py "2024" |}]
      = (conn1, first)
    ∧ ingest_paths (λ c, (97 <=? c)%N) conn1
        [{| path := py "a.txt"; suffix_lower := py ".txt"; stem := py "a";
            resolved := py "/tmp/a.txt"; hashed := inr (py "h1");
            extracted := inr (py "Hello there"); now := py "2024" |}]
      = (conn2, second)
    ∧ map doc_id second = map doc_id first
    ∧ map reason second = map reason first
    ∧ map skipped second = map skipped first
    ∧ Forall (λ r, inserted r ≠ Some true) second
    ∧ index conn2 = index conn1.
Proof.
  apply (ingest_paths_twice (λ c, (97 <=? c)%N) empty).
  split; [|split]; simpl; constructor.
Defined.

End IngestResults.

(** ** The lines of a summary *)

(** X26. When the line feed is the only line boundary the text holds,
    splitting the summary into lines gives back the chosen sentences, one
    per line: as many as the slice of the ranking has, in the order of the
    text. *)
Theorem summarize_lines (janome : text → list text) (t : text) (k : Z) :
  only_lf_breaks t →
  ∃ idx : list nat,
    StronglySorted lt idx
    ∧ length idx = min (slice_len k (length (split_sentences t)))
                       (length (split_sentences t))
    ∧ splitlines (summarize janome t k) = (λ i, split_sentences t !!! i) <$> idx.
Proof.
  intros Ht.
  destruct (summarize_selection janome t k) as (idx & -> & Hs & Hidx & Hlen & _).
  exists idx. split; [done|]. split; [done|].
  apply splitlines_join, Forall_fmap, Forall_forall. intros i Hi. simpl.
  assert (Hin : split_sentences t !!! i ∈ split_sentences t).
  { apply list_elem_of_lookup. exists i.
    apply list_lookup_lookup_total_lt. by apply Hidx. }
  split.
  - pose proof (split_sentences_clean t) as H. rewrite Forall_forall in H.
    by destruct (H _ Hin).
  - pose proof (split_sentences_no_break t Ht) as H. rewrite Forall_forall in H.
    by apply H.
Qed.

Lemma summarize_lines_witness :
  ∃ idx : list nat,
    StronglySorted lt idx
    ∧ length idx
      = min (slice_len 1 (length (split_sentences (py "It is." ++ [LF] ++ py "We are."))))
            (length (split_sentences (py "It is." ++ [LF] ++ py "We are.")))
    ∧ splitlines (summarize no_segmenter (py "It is." ++ [LF] ++ py "We are.") 1)
      = (λ i, split_sentences (py "It is." ++ [LF] ++ py "We are.") !!! i) <$> idx.
Proof.
  apply (summarize_lines no_segmenter (py "It is." ++ [LF] ++ py "We are.") 1).
  intros c Hc Hb. vm_compute in Hc.
  repeat (apply elem_of_cons in Hc as [->|Hc]; [first [done | discriminate Hb]|]).
  by apply elem_of_nil in Hc.
Defined.

(** X27. The summarize command works on the stored, normalised text.  When
    the only line boundaries of the extracted text are line feeds and
    carriage returns, the normalised text has line feeds only, and its
    summary for a count [k >= 0] has exactly [k] lines, or as many as the
    text has sentences if these are fewer. *)
Theorem summarize_normalized_lines (janome : text → list text) (raw : text) (k : Z) :
  (∀ c, c ∈ raw → is_linebreak c = true → c = LF ∨ c = CR) →
  (0 <= k)%Z →
  only_lf_breaks (normalize_whitespace raw)
  ∧ length (splitlines (summarize janome (normalize_whitespace raw) k))
    = min (Z.to_nat k) (length (split_sentences (normalize_whitespace raw))).
Proof.
  intros Hraw Hk.
  assert (Ht : only_lf_breaks (normalize_whitespace raw)).
  { intros c Hc Hb. apply normalize_whitespace_elem in Hc as [Hcr [Hc|Hc]]; [|done].
    by destruct (Hraw c Hc Hb). }
  split; [done|].
  destruct (summarize_selection janome (normalize_whitespace raw) k)
    as (idx & -> & Hs & Hidx & Hlen & _).
  rewrite splitlines_join.
  - rewrite length_fmap, Hlen. unfold slice_len.
    assert ((k <? 0)%Z = false) as -> by lia. lia.
  - apply Forall_fmap, Forall_forall. intros i Hi. simpl.
    assert (Hin : split_sentences (normalize_whitespace raw) !!! i
                  ∈ split_sentences (normalize_whitespace raw)).
    { apply list_elem_of_lookup. exists i.
      apply list_lookup_lookup_total_lt. by apply Hidx. }
    split.
    + pose proof (split_sentences_clean (normalize_whitespace raw)) as H.
      rewrite Forall_forall in H. by destruct (H _ Hin).
    + pose proof (split_sentences_no_break _ Ht) as H. rewrite Forall_forall in H.
      by apply H.
Qed.

Lemma summarize_normalized_lines_witness :
  only_lf_breaks (normalize_whitespace (py "It is." ++ [CR; LF] ++ py "We are."))
  ∧ length (splitlines (summarize no_segmenter
              (normalize_whitespace (py "It is." ++ [CR; LF] ++ py "We are.")) 1))
    = min (Z.to_nat 1)
          (length (split_sentences
                     (normalize_whitespace (py "It is." ++ [CR; LF] ++ py "We are.")))).
Proof.
  apply (summarize_normalized_lines no_segmenter
           (py "It is." ++ [CR; LF] ++ py "We are.") 1).
  - intros c Hc Hb. vm_compute in Hc.
    repeat (apply elem_of_cons in Hc as [->|Hc];
            [first [by left | by right | discriminate Hb]|]).
    by apply elem_of_nil in Hc.
  - lia.
Defined.

(** ** Blank lines that survive *)

Section BlankLineFacts.

Lemma space_lines_S n : space_lines (S n) = SPACE :: LF :: space_lines n.
Proof. done. Qed.

Lemma space_lines_elem n c : c ∈ space_lines n → c = SPACE ∨ c = LF.
Proof.
  induction n as [|n IH]; [intros H; by apply elem_of_nil in H|].
  rewrite space_lines_S, !elem_of_cons. intros [?|[?|?]]; auto.
Qed.

Lemma sub_blank_lines_space_lines n (b : text) :
  b ≠ [] → LF ∉ b →
  sub_blank_lines 1 (space_lines n ++ b) = space_lines n ++ b.
Proof.
  intros Hne Hb. induction n as [|n IH].
  - simpl. rewrite <- (app_nil_r b). by rewrite sub_blank_lines_app.
  - rewrite space_lines_S. simpl. by rewrite IH.
Qed.

Lemma split_space_lines n (b : text) :
  LF ∉ b → split LF (space_lines n ++ b) = replicate n [SPACE] ++ [b].
Proof.
  intros Hb. induction n as [|n IH].
  - simpl. by apply split_sepfree_one.
  - rewrite space_lines_S.
    change ((SPACE :: LF :: space_lines n) ++ b)
      with ([SPACE] ++ LF :: (space_lines n ++ b)).
    rewrite split_app_sep, IH; [done|].
    intros H. apply list_elem_of_singleton in H. discriminate H.
Qed.

Lemma join_empty_lines n (b : text) :
  join [LF] (replicate n [] ++ [b]) = replicate n LF ++ b.
Proof.
  induction n as [|n IH]; [done|].
  change (replicate (S n) [] ++ [b]) with ([] :: (replicate n [] ++ [b])).
  destruct (replicate n [] ++ [b]) as [|q ps] eqn:E.
  - by destruct n.
  - rewrite join_cons, IH. done.
Qed.

Lemma sub_blank_lines_feeds m (b : text) run :
  b ≠ [] → LF ∉ b →
  sub_blank_lines run (replicate m LF ++ b) = replicate (min m (2 - run)) LF ++ b.
Proof.
  intros Hne Hb. revert run. induction m as [|m IH]; intros run.
  - simpl. rewrite <- (app_nil_r b). by rewrite sub_blank_lines_app.
  - change (replicate (S m) LF ++ b) with (LF :: (replicate m LF ++ b)).
    cbn [sub_blank_lines]. change (LF =? LF)%N with true. cbv iota.
    destruct (run <? 2) eqn:E.
    + apply Nat.ltb_lt in E. rewrite IH.
      replace (min (S m) (2 - run)) with (S (min m (2 - S run))) by lia. done.
    + apply Nat.ltb_ge in E. rewrite IH.
      replace (min m (2 - S run)) with 0 by lia.
      replace (min (S m) (2 - run)) with 0 by lia. done.
Qed.

End BlankLineFacts.

(** X28. Blank lines are collapsed before the lines are trimmed, so lines
    that hold white space only are not counted as blank: [n] lines of one
    space between two lines of text come out as [n] empty lines, whatever
    [n] is.  Normalising the result once more leaves one empty line, so
    from three such lines on [normalize_whitespace] is not idempotent. *)
Theorem normalize_whitespace_space_lines (a b : text) (n : nat) :
  plain_line a → plain_line b →
  normalize_whitespace (a ++ [LF] ++ space_lines n ++ b)
  = a ++ replicate (S n) LF ++ b
  ∧ normalize_whitespace (a ++ replicate (S n) LF ++ b)
    = a ++ replicate (min (S n) 2) LF ++ b.
Proof.
  intros ([Ha Hta] & Hal & Hac) ([Hb Htb] & Hbl & Hbc).
  assert (Hstrip : ∀ mid, strip (a ++ mid ++ b) = a ++ mid ++ b).
  { intros mid. apply strip_id. by destruct (trimmed_app a mid b) as [_ ?]. }
  assert (Hnorm : ∀ m, normalize_whitespace (a ++ replicate (S m) LF ++ b)
                       = a ++ replicate (min (S m) 2) LF ++ b).
  { intros m. unfold normalize_whitespace.
    assert (Hcr : CR ∉ a ++ replicate (S m) LF ++ b).
    { rewrite !elem_of_app. intros [?|[H|?]]; [done| |done].
      apply elem_of_replicate in H as [H _]. discriminate H. }
    rewrite replace_pair_absent, replace_absent by done.
    rewrite sub_blank_lines_app, sub_blank_lines_feeds by done.
    change (2 - 0) with 2.
    destruct m as [|m].
    - simpl replicate. change (a ++ [LF] ++ b) with (a ++ LF :: b).
      rewrite split_app_sep, split_sepfree_one by done. simpl.
      rewrite (strip_id a), (strip_id b) by done. apply (Hstrip [LF]).
    - replace (min (S (S m)) 2) with 2 by lia. simpl replicate.
      change (a ++ [LF; LF] ++ b) with (a ++ LF :: ([] ++ LF :: b)).
      rewrite split_app_sep, split_app_sep, split_sepfree_one;
        [|done|apply not_elem_of_nil|done].
      simpl. rewrite (strip_id a), (strip_id b) by done. apply (Hstrip [LF; LF]). }
  split; [|apply Hnorm].
  unfold normalize_whitespace.
  assert (Hcr : CR ∉ a ++ [LF] ++ space_lines n ++ b).
  { rewrite !elem_of_app. intros [?|[H|[H|?]]]; [done| | |done].
    - apply list_elem_of_singleton in H. discriminate H.
    - apply space_lines_elem in H as [H|H]; discriminate H. }
  rewrite replace_pair_absent, replace_absent by done.
  rewrite sub_blank_lines_app by done.
  change ([LF] ++ space_lines n ++ b) with (LF :: (space_lines n ++ b)).
  cbn [sub_blank_lines]. change (LF =? LF)%N with true. change (0 <? 2) with true.
  cbv iota. rewrite sub_blank_lines_space_lines by done.
  rewrite split_app_sep, split_space_lines by done.
  change (map strip (a :: replicate n [SPACE] ++ [b]))
    with (strip a :: map strip (replicate n [SPACE] ++ [b])).
  rewrite map_app. simpl map at 2.
  assert (Hs : map strip (replicate n [SPACE]) = replicate n []).
  { clear. induction n as [|n IH]; [done|]. simpl. by rewrite IH. }
  rewrite Hs, (strip_id a), (strip_id b) by done.
  assert (Hj : join [LF] (a :: replicate n [] ++ [b]) = a ++ replicate (S n) LF ++ b).
  { destruct (replicate n [] ++ [b]) as [|q ps] eqn:E; [by destruct n|].
    rewrite join_cons, <- E, join_empty_lines. done. }
  rewrite Hj. apply Hstrip.
Qed.

Lemma normalize_whitespace_space_lines_witness :
  normalize_whitespace (py "a" ++ [LF] ++ space_lines 2 ++ py "b")
  = py "a" ++ replicate 3 LF ++ py "b"
  ∧ normalize_whitespace (py "a" ++ replicate 3 LF ++ py "b")
    = py "a" ++ replicate (min 3 2) LF ++ py "b".
Proof.
  apply (normalize_whitespace_space_lines (py "a") (py "b") 2);
    (split; [split; [done|split; intros c Hc; vm_compute in Hc; by injection Hc as <-]
            |split; intros Hc; apply list_elem_of_singleton in Hc; discriminate Hc]).
Defined.

(** ** What the extractors keep *)

Section ExtractorFacts.

Lemma is_linebreak_isspace c : is_linebreak c = true → isspace c = true.
Proof.
  unfold is_linebreak, isspace.
  rewrite !orb_true_iff, !andb_true_iff, !N.leb_le, !N.eqb_eq. lia.
Qed.

Lemma visible_join_sep (sep : text) (ls : list text) :
  visible sep = [] → visible (join sep ls) = visible (concat ls).
Proof.
  intros Hsep. induction ls as [|p [|q ps] IH]; [done| |].
  - simpl. by rewrite app_nil_r.
  - rewrite join_cons. cbn [concat]. rewrite !visible_app, IH, Hsep.
    cbn [concat]. by rewrite visible_app.
Qed.

Lemma visible_filter (f : text → bool) (ls : list text) :
  (∀ l, f l = false → visible l = []) →
  visible (concat (List.filter f ls)) = visible (concat ls).
Proof.
  intros Hf. induction ls as [|l ls IH]; [done|]. simpl.
  destruct (f l) eqn:E; cbn [concat]; rewrite !visible_app, IH; [done|].
  by rewrite (Hf l E).
Qed.

Lemma visible_map_strip (ls : list text) :
  visible (concat (map strip ls)) = visible (concat ls).
Proof.
  induction ls as [|l ls IH]; [done|]. simpl.
  by rewrite !visible_app, visible_strip, IH.
Qed.

Lemma visible_splitlines_from s : ∀ cur,
  visible (concat (splitlines_from cur s)) = visible (reverse cur ++ s).
Proof.
  induction s as [s IH] using text_length_ind. intros cur.
  destruct s as [|c rest].
  - simpl. destruct cur; [done|]. simpl. by rewrite !app_nil_r.
  - simpl. destruct (is_linebreak c) eqn:Ec.
    + apply is_linebreak_isspace in Ec.
      assert (Hc : ∀ x, visible (reverse cur ++ c :: x) = visible (reverse cur) ++ visible x).
      { intros x. rewrite visible_app. unfold visible at 2. simpl. by rewrite Ec. }
      cbn [concat]. rewrite visible_app, Hc. f_equal.
      destruct (c =? CR)%N.
      * destruct rest as [|d rest']; [done|].
        destruct (d =? LF)%N eqn:Ed.
        -- apply N.eqb_eq in Ed as ->. rewrite IH by (simpl; lia). done.
        -- rewrite IH by (simpl; lia). done.
      * rewrite IH by (simpl; lia). done.
    + rewrite IH by (simpl; lia). by rewrite reverse_cons, <- app_assoc.
Qed.

Lemma visible_concat_nil (ls : list text) :
  visible (concat ls) = [] ↔ Forall (λ l, visible l = []) ls.
Proof.
  induction ls as [|l ls IH]; [done|]. cbn [concat]. rewrite visible_app. split.
  - intros H. apply app_eq_nil in H as [? ?]. constructor; [done | by apply IH].
  - intros H. inversion H as [|? ? Hl Hls]; subst. rewrite Hl. by apply IH.
Qed.

End ExtractorFacts.

(** X29. The three extractors lose white space only: the visible
    characters of the pages of a PDF, of the paragraphs of a DOCX file and
    of the text of an HTML page come out unchanged and in order.  So a PDF
    gives a text that normalises to the empty text, which the ingestion
    skips, exactly when no page has a visible character. *)
Theorem extractors_keep_visible :
  (∀ pages, visible (Extractors.pdf_text pages)
            = visible (concat (map page_text pages)))
  ∧ (∀ paragraphs, visible (Extractors.docx_text paragraphs)
                   = visible (concat paragraphs))
  ∧ (∀ t, visible (Extractors.html_text t) = visible t)
  ∧ (∀ pages, normalize_whitespace (Extractors.pdf_text pages) = []
              ↔ Forall (λ page, visible (page_text page) = []) pages).
Proof.
  assert (Hpdf : ∀ pages, visible (Extractors.pdf_text pages)
                          = visible (concat (map page_text pages))).
  { intros pages. unfold Extractors.pdf_text. fold page_text.
    rewrite visible_strip, visible_join_sep by done.
    apply visible_filter. intros l Hl. apply visible_nil_strip.
    by destruct (strip l). }
  split; [exact Hpdf|]. split; [|split].
  - intros ps. unfold Extractors.docx_text.
    rewrite visible_strip, visible_join, visible_map_strip.
    apply visible_filter. intros l Hl. apply visible_nil_strip.
    destruct l; [done|]. simpl in Hl. by destruct (strip _).
  - intros t. unfold Extractors.html_text.
    rewrite visible_strip, visible_join, visible_filter.
    + rewrite visible_map_strip. apply (visible_splitlines_from t []).
    + intros l Hl. by destruct l.
  - intros pages. rewrite normalize_whitespace_nil, Hpdf, visible_concat_nil.
    to_fmap. by rewrite Forall_fmap.
Qed.
